(** * Portfolio site: slider, contact mailer and canvas backgrounds

    A shallow embedding of the scripts of the portfolio repository and the
    properties its specification states about them.

    - [Slider]     slider.js            (index arithmetic of the image slider)
    - [Tesseract]  header-bg.js and the header tesseract of ai-bg.js
    - [Mailer]     sendmail.php         (try/catch around the mail library)
    - [JS], [Canvas]  the numbers, the Math routines and the 2D context the
                   canvas scripts run on
    - [Wave]       ai-bg.js, wave variant (resize, FPS-capped drawFrame)
    - [Mesh]       ai-bg.js, mesh variant (resize, buildNodes, drawMesh, loop)
    - [Typing]     header-typing.js     (the typewriter of the header)

    The definitions come first; the properties follow, each under the
    identifier of the statement it settles (C1 to C10) or of the further
    property of the same code it states (X1 to X21).  The statements on
    the frame loops over runs of events (C4, C5) come last, after the
    lemmas on runs they use.

    Numbers.  JavaScript numbers are IEEE doubles.  Integer-valued data
    (indices, vertex coordinates, bit masks) is modelled in [Z]; pixel and
    time quantities are modelled as exact rationals [Q], so rounding, NaN
    and the infinities are outside the model; the 4D rotation, which needs
    the real sine and cosine, is modelled in [R]. *)

From Stdlib Require Import ZArith QArith Qround Qabs Reals Psatz Lia List Bool.
From Stdlib Require Import Sorted Permutation.
From stdpp Require Import gmap strings list.

Local Open Scope Z_scope.

(** ** Loops *)

(** [range lo n] is [lo, lo+1, ..., lo+n-1]: the values a counting [for]
    loop gives its variable. *)
Fixpoint range (lo : Z) (n : nat) : list Z :=
  match n with
  | O => []
  | S k => lo :: range (lo + 1) k
  end.

(** [for (let i = lo; i < hi; i++) acc = body(acc, i)] *)
Definition for_loop {A : Type} (lo hi : Z) (body : A -> Z -> A) (init : A) : A :=
  fold_left body (range lo (Z.to_nat (hi - lo))) init.

(** ** slider.js *)

Module Slider.

(** The numbers slider.js computes with: integers, and NaN (what [%]
    yields when the image list is empty). *)
Inductive num := Int (z : Z) | NaN.

Definition add (a : num) (b : Z) : num :=
  match a with Int z => Int (z + b) | NaN => NaN end.

(** JavaScript's [%]: the remainder takes the sign of the dividend
    ([Z.rem]), and [x % 0] is NaN. *)
Definition rem (a : num) (b : Z) : num :=
  match a with
  | Int z => if b =? 0 then NaN else Int (Z.rem z b)
  | NaN => NaN
  end.

Definition mul (a : num) (b : Z) : num :=
  match a with Int z => Int (z * b) | NaN => NaN end.

(** The page state the script touches: the module variable [index], the
    node list [images] and the percentage written into
    [slides.style.transform] as [translateX(-...%)]. *)
Record page := {
  index : num;
  images : list string;
  translateX : num
}.

Definition showSlide (i : num) (p : page) : page :=
  let n := Z.of_nat (length (images p)) in
  let index' := rem (add i n) n in
  {| index := index'; images := images p; translateX := mul index' 100 |}.

(** The click handlers of [.prev] and [.next] (the timer runs [next]). *)
Definition prev (p : page) : page := showSlide (add (index p) (-1)) p.
Definition next (p : page) : page := showSlide (add (index p) 1) p.

(** A page with three slides, showing the first. *)
Definition three_slides : page :=
  {| index := Int 0;
     images := ["a.jpg"; "b.jpg"; "c.jpg"]%string;
     translateX := Int 0 |}.

(** A page without slides, as the script finds it at load. *)
Definition no_slides : page :=
  {| index := Int 0; images := []; translateX := Int 0 |}.

End Slider.

(** ** header-bg.js: the tesseract wireframe *)

Module Tesseract.

(** [(i & m) ? 1 : -1] *)
Definition bit_sign (i m : Z) : Z := if Z.land i m =? 0 then -1 else 1.

(** header-bg.js, the loop filling [verts4]. *)
Definition verts4 : list (list Z) :=
  for_loop 0 16 (fun acc i =>
    let x := bit_sign i 1 in
    let y := bit_sign i 2 in
    let z := bit_sign i 4 in
    let w4 := bit_sign i 8 in
    acc ++ [[x; y; z; w4]]) [].

(** [v[k]]; every index used below is in range. *)
Definition coord (v : list Z) (k : Z) : Z := nth (Z.to_nat k) v 0.
Definition vert (vs : list (list Z)) (i : Z) : list Z := nth (Z.to_nat i) vs [].

(** The inner loop of the edge construction: the number of coordinates
    in which [u] and [v] differ. *)
Definition diff_count (u v : list Z) : Z :=
  for_loop 0 4 (fun diff k => if coord u k =? coord v k then diff else diff + 1) 0.

Definition build_edges (vs : list (list Z)) : list (Z * Z) :=
  for_loop 0 16 (fun acc i =>
    for_loop (i + 1) 16 (fun acc j =>
      if diff_count (vert vs i) (vert vs j) =? 1 then acc ++ [(i, j)] else acc) acc) [].

Definition edges : list (Z * Z) := build_edges verts4.

(** ai-bg.js (the variant with the header tesseract) builds
    [headerVerts4] and [headerEdges] with the same two loops. *)
Definition headerVerts4 : list (list Z) :=
  for_loop 0 16 (fun acc i =>
    let x := bit_sign i 1 in
    let y := bit_sign i 2 in
    let z := bit_sign i 4 in
    let w4 := bit_sign i 8 in
    acc ++ [[x; y; z; w4]]) [].

Definition headerEdges : list (Z * Z) := build_edges headerVerts4.

(** The sixteen sign vectors, for comparison. *)
Definition signs : list Z := [-1; 1].
Definition hypercube : list (list Z) :=
  w ← signs; z ← signs; y ← signs; x ← signs; [[x; y; z; w]].

Definition is_sign (c : Z) : Prop := c = -1 \/ c = 1.

(** Two 4-vectors differ in exactly one coordinate. *)
Definition differ_in_one (u v : list Z) : Prop :=
  exists k, 0 <= k < 4 /\
    forall k', 0 <= k' < 4 -> (coord u k' <> coord v k' <-> k' = k).

Definition pair_eqb (a b : Z * Z) : bool := (fst a =? fst b) && (snd a =? snd b).

(** ** The projection, over the reals *)

Local Open Scope R_scope.

Definition at_ (v : list R) (k : nat) : R := nth k v 0.

(** [rot4(v, a, b, theta)]: rotates the components [a] and [b] of [v]
    in place; here the updated array is returned. *)
Definition rot4 (v : list R) (a b : nat) (theta : R) : list R :=
  let ca := cos theta in
  let sa := sin theta in
  let va := at_ v a in
  let vb := at_ v b in
  let v := <[a := va * ca - vb * sa]> v in
  <[b := va * sa + vb * ca]> v.

(** The three rotations at the head of [project4To2]. *)
Definition rotate (v : list R) (theta : R) : list R :=
  let p := v in
  let p := rot4 p 0 1 (theta * 0.7) in
  let p := rot4 p 2 3 (theta * 0.5) in
  rot4 p 0 2 (theta * 0.35).

(** The denominator of [wCoord]. *)
Definition divisor (p : list R) : R :=
  let distance := 3.0 in
  distance - at_ p 3 * 0.9.

Definition project4To2 (v : list R) (theta : R) : list R :=
  let p := rotate v theta in
  let wCoord := 1 / divisor p in
  let x3 := at_ p 0 * wCoord in
  let y3 := at_ p 1 * wCoord in
  let z3 := at_ p 2 * wCoord in
  let f := 1.4 in
  let x2 := x3 * f * (1 + z3 * 0.08) in
  let y2 := y3 * f * (1 + z3 * 0.08) in
  [x2; y2; z3].

(** ai-bg.js, [project4To2_small]: the closure [rot] is [rot4] on the
    local copy [p]. *)
Definition rotate_small (v : list R) (theta : R) : list R :=
  let p := v in
  let p := rot4 p 0 1 (theta * 0.9) in
  let p := rot4 p 2 3 (theta * 0.6) in
  rot4 p 0 2 (theta * 0.35).

Definition divisor_small (p : list R) : R :=
  let distance := 3.2 in
  distance - at_ p 3 * 0.85.

Definition project4To2_small (v : list R) (theta : R) : list R :=
  let p := rotate_small v theta in
  let wCoord := 1 / divisor_small p in
  let x3 := at_ p 0 * wCoord in
  let y3 := at_ p 1 * wCoord in
  let z3 := at_ p 2 * wCoord in
  let f := 1.0 in
  let x2 := x3 * f * (1 + z3 * 0.06) in
  let y2 := y3 * f * (1 + z3 * 0.06) in
  [x2; y2; z3].

(** A vertex as the array of numbers [project4To2] receives. *)
Definition to_reals (v : list Z) : list R := map IZR v.

(** Squared Euclidean norm of a 4-vector. *)
Definition norm2 (p : list R) : R :=
  at_ p 0 * at_ p 0 + at_ p 1 * at_ p 1 + at_ p 2 * at_ p 2 + at_ p 3 * at_ p 3.

End Tesseract.

(** ** sendmail.php *)

Module Mailer.

Local Open Scope string_scope.

(** The [PHPMailer] object, reduced to the properties the script assigns
    or reads. *)
Record PHPMailer := {
  exceptions : bool;
  Host : string;
  SMTPAuth : bool;
  Username : string;
  Password : string;
  SMTPSecure : string;
  Port : Z;
  Subject : string;
  Body : string;
  ErrorInfo : string
}.

(** [new PHPMailer(true)]: exceptions enabled, nothing configured yet. *)
Definition new_PHPMailer (exc : bool) : PHPMailer :=
  {| exceptions := exc; Host := "localhost"; SMTPAuth := false;
     Username := ""; Password := ""; SMTPSecure := ""; Port := 25;
     Subject := ""; Body := ""; ErrorInfo := "" |}.

(** The library methods the script calls. *)
Inductive method :=
| isSMTP
| setFrom (address name : string)
| addAddress (address : string)
| send.

(** What a call of a library method does: it returns (the script ignores
    the value) or it throws the library's [Exception]; in both cases the
    object may have changed, [ErrorInfo] included.  The library itself is
    not part of the repository's sources, so its behaviour is a parameter
    of the script. *)
Inductive outcome :=
| Returns (m : PHPMailer)
| Throws (m : PHPMailer).

Definition library := method -> PHPMailer -> outcome.

(** The run of the script so far: the object, the text echoed, the
    library calls made (with [true] for a call that returned), and the
    keys of [$_POST] read while absent (PHP evaluates such a read to null
    and raises a warning). *)
Record run := {
  mail : PHPMailer;
  output : string;
  calls : list (method * bool);
  undefined_keys : list string
}.

(** A statement of the [try] block either completes or leaves the block
    with the library's exception. *)
Inductive flow :=
| Normal (r : run)
| Raised (r : run).

Definition call (lib : library) (f : method) (r : run) : flow :=
  match lib f (mail r) with
  | Returns m =>
      Normal {| mail := m; output := output r; calls := calls r ++ [(f, true)];
                undefined_keys := undefined_keys r |}
  | Throws m =>
      Raised {| mail := m; output := output r; calls := calls r ++ [(f, false)];
                undefined_keys := undefined_keys r |}
  end.

Definition assign (upd : PHPMailer -> PHPMailer) (r : run) : flow :=
  Normal {| mail := upd (mail r); output := output r; calls := calls r;
            undefined_keys := undefined_keys r |}.

Definition echo (s : string) (r : run) : run :=
  {| mail := mail r; output := output r ++ s; calls := calls r;
     undefined_keys := undefined_keys r |}.

Definition andThen (a : flow) (k : run -> flow) : flow :=
  match a with
  | Normal r => k r
  | Raised r => Raised r
  end.

Notation "a >>> k" := (andThen a k) (at level 61, left associativity).

(** [$_POST[key]]: the field, or null (the empty string once interpolated)
    with the key noted. *)
Definition POST (post : gmap string string) (key : string) (r : run) : string * run :=
  match post !! key with
  | Some v => (v, r)
  | None => ("", {| mail := mail r; output := output r; calls := calls r;
                    undefined_keys := undefined_keys r ++ [key] |})
  end.

Definition nl : string := String (Ascii.ascii_of_nat 10) "".

Definition set_Host v m :=
  {| exceptions := exceptions m; Host := v; SMTPAuth := SMTPAuth m; Username := Username m;
     Password := Password m; SMTPSecure := SMTPSecure m; Port := Port m;
     Subject := Subject m; Body := Body m; ErrorInfo := ErrorInfo m |}.
Definition set_SMTPAuth v m :=
  {| exceptions := exceptions m; Host := Host m; SMTPAuth := v; Username := Username m;
     Password := Password m; SMTPSecure := SMTPSecure m; Port := Port m;
     Subject := Subject m; Body := Body m; ErrorInfo := ErrorInfo m |}.
Definition set_Username v m :=
  {| exceptions := exceptions m; Host := Host m; SMTPAuth := SMTPAuth m; Username := v;
     Password := Password m; SMTPSecure := SMTPSecure m; Port := Port m;
     Subject := Subject m; Body := Body m; ErrorInfo := ErrorInfo m |}.
Definition set_Password v m :=
  {| exceptions := exceptions m; Host := Host m; SMTPAuth := SMTPAuth m; Username := Username m;
     Password := v; SMTPSecure := SMTPSecure m; Port := Port m;
     Subject := Subject m; Body := Body m; ErrorInfo := ErrorInfo m |}.
Definition set_SMTPSecure v m :=
  {| exceptions := exceptions m; Host := Host m; SMTPAuth := SMTPAuth m; Username := Username m;
     Password := Password m; SMTPSecure := v; Port := Port m;
     Subject := Subject m; Body := Body m; ErrorInfo := ErrorInfo m |}.
Definition set_Port v m :=
  {| exceptions := exceptions m; Host := Host m; SMTPAuth := SMTPAuth m; Username := Username m;
     Password := Password m; SMTPSecure := SMTPSecure m; Port := v;
     Subject := Subject m; Body := Body m; ErrorInfo := ErrorInfo m |}.
Definition set_Subject v m :=
  {| exceptions := exceptions m; Host := Host m; SMTPAuth := SMTPAuth m; Username := Username m;
     Password := Password m; SMTPSecure := SMTPSecure m; Port := Port m;
     Subject := v; Body := Body m; ErrorInfo := ErrorInfo m |}.
Definition set_Body v m :=
  {| exceptions := exceptions m; Host := Host m; SMTPAuth := SMTPAuth m; Username := Username m;
     Password := Password m; SMTPSecure := SMTPSecure m; Port := Port m;
     Subject := Subject m; Body := v; ErrorInfo := ErrorInfo m |}.

(** The Gmail app password is a literal in the script; the secret itself
    is not reproduced. *)
Definition app_password : string := "(app password)".

(** The body of the [try] block, statement by statement. *)
Definition try_block (lib : library) (post : gmap string string) (r : run) : flow :=
  call lib isSMTP r >>>
  assign (set_Host "smtp.gmail.com") >>>
  assign (set_SMTPAuth true) >>>
  assign (set_Username "daskoustav88@gmail.com") >>>
  assign (set_Password app_password) >>>
  assign (set_SMTPSecure "tls") >>>
  assign (set_Port 587) >>>
  (fun r =>
     let '(email, r) := POST post "email" r in
     let '(name, r) := POST post "name" r in
     call lib (setFrom email name) r) >>>
  call lib (addAddress "daskoustav88@gmail.com") >>>
  assign (set_Subject "New message from portfolio") >>>
  (fun r =>
     let '(name, r) := POST post "name" r in
     let '(email, r) := POST post "email" r in
     let '(message, r) := POST post "message" r in
     assign (set_Body ("Name: " ++ name ++ nl ++ "Email: " ++ email ++ nl ++ nl
                       ++ "Message:" ++ nl ++ message)) r) >>>
  call lib send >>>
  (fun r => Normal (echo "Message sent successfully!" r)).

(** The whole script: [try { ... } catch (Exception $e) { echo 'Failed to
    send: ', $mail->ErrorInfo; }]. *)
Definition sendmail (lib : library) (post : gmap string string) : run :=
  let m := new_PHPMailer true in
  let r0 := {| mail := m; output := ""; calls := []; undefined_keys := [] |} in
  match try_block lib post r0 with
  | Normal r => r
  | Raised r => echo (ErrorInfo (mail r)) (echo "Failed to send: " r)
  end.

(** [send()] was called and returned. *)
Definition send_returned (r : run) : Prop := In (send, true) (calls r).

(** Some library call threw. *)
Definition library_threw (r : run) : Prop := exists f, In (f, false) (calls r).

(** What holds after a statement of the [try] block: [N] when it
    completed, [E] when it threw. *)
Definition flow_sat (N E : run -> Prop) (f : flow) : Prop :=
  match f with
  | Normal r => N r
  | Raised r => E r
  end.

(** The library calls the script makes when none throws, with the
    arguments it passes: a field missing from the POST is passed as the
    empty string. *)
Definition expected_calls (post : gmap string string) : list method :=
  [isSMTP;
   setFrom (default "" (post !! "email")) (default "" (post !! "name"));
   addAddress "daskoustav88@gmail.com";
   send].

Definition returned (fs : list method) : list (method * bool) :=
  map (fun f => (f, true)) fs.

(** The first [j] expected calls were made and returned. *)
Definition made (post : gmap string string) (j : nat) (r : run) : Prop :=
  calls r = returned (firstn j (expected_calls post)).

(** The first [j] expected calls returned and the next one threw. *)
Definition stopped (post : gmap string string) (r : run) : Prop :=
  exists j f, nth_error (expected_calls post) j = Some f /\
    calls r = (returned (firstn j (expected_calls post)) ++ [(f, false)])%list.

(** The object after the assignments that follow [isSMTP()]. *)
Definition configured (m : PHPMailer) : PHPMailer :=
  set_Port 587 (set_SMTPSecure "tls" (set_Password app_password
    (set_Username "daskoustav88@gmail.com" (set_SMTPAuth true
      (set_Host "smtp.gmail.com" m))))).

(** The object after the subject and the body are assigned. *)
Definition composed (name email message : string) (m : PHPMailer) : PHPMailer :=
  set_Body ("Name: " ++ name ++ nl ++ "Email: " ++ email ++ nl ++ nl
            ++ "Message:" ++ nl ++ message)
    (set_Subject "New message from portfolio" m).

(** The library's [send()] returns, leaving the object [m']: called in
    the order of the script, on the object as the calls before and the
    assignments of the script leave it, [isSMTP], [setFrom] and
    [addAddress] return and then [send] does. *)
Definition send_returns (lib : library) (name email message : string)
    (m' : PHPMailer) : Prop :=
  exists m1 m2 m3,
    lib isSMTP (new_PHPMailer true) = Returns m1 /\
    lib (setFrom email name) (configured m1) = Returns m2 /\
    lib (addAddress "daskoustav88@gmail.com") m2 = Returns m3 /\
    lib send (composed name email message m3) = Returns m'.

(** The library throws its exception, leaving the object [m']: the first
    of the four calls that does not return. *)
Definition library_throws (lib : library) (name email message : string)
    (m' : PHPMailer) : Prop :=
  lib isSMTP (new_PHPMailer true) = Throws m' \/
  exists m1,
    lib isSMTP (new_PHPMailer true) = Returns m1 /\
    (lib (setFrom email name) (configured m1) = Throws m' \/
     exists m2,
       lib (setFrom email name) (configured m1) = Returns m2 /\
       (lib (addAddress "daskoustav88@gmail.com") m2 = Throws m' \/
        exists m3,
          lib (addAddress "daskoustav88@gmail.com") m2 = Returns m3 /\
          lib send (composed name email message m3) = Throws m')).

(** A library for the examples: it rejects a sender address without an
    [@] and otherwise delivers. *)
Fixpoint has_at (s : string) : bool :=
  match s with
  | EmptyString => false
  | String c s' => Ascii.eqb c (Ascii.ascii_of_nat 64) || has_at s'
  end.

Definition strict_library : library := fun f m =>
  match f with
  | setFrom address _ =>
      if has_at address then Returns m
      else Throws {| exceptions := exceptions m; Host := Host m; SMTPAuth := SMTPAuth m;
                     Username := Username m; Password := Password m;
                     SMTPSecure := SMTPSecure m; Port := Port m; Subject := Subject m;
                     Body := Body m; ErrorInfo := "Invalid address:  (From): " ++ address |}
  | _ => Returns m
  end.

Definition example_post : gmap string string :=
  <["name" := "Ada"]> (<["email" := "ada@example.org"]> (<["message" := "Hello"]> ∅)).

End Mailer.

(** ** The JavaScript runtime the canvas scripts use *)

Module JS.

Local Open Scope Q_scope.

(** [a < b] and [a <= b] on numbers. *)
Definition ltb (a b : Q) : bool := negb (Qle_bool b a).
Definition leb (a b : Q) : bool := Qle_bool a b.

(** [Math.floor], [Math.round] (which rounds halves up), [Math.max],
    [Math.min], [Math.abs]. *)
Definition floor (a : Q) : Z := Qfloor a.
Definition round (a : Q) : Z := Qfloor (a + (1 # 2)).
Definition max (a b : Q) : Q := if leb a b then b else a.
Definition min (a b : Q) : Q := if leb a b then a else b.
Definition abs (a : Q) : Q := Qabs a.

(** [a % b] on numbers: the quotient is truncated toward zero. *)
Definition trunc (a : Q) : Z := if leb 0 a then Qfloor a else Qceiling a.
Definition fmod (a b : Q) : Q := a - b * inject_Z (trunc (a / b)).

(** [a || d] for a number that may be undefined: 0 is falsy too. *)
Definition or_default (a : option Q) (d : Q) : Q :=
  match a with
  | Some v => if Qeq_bool v 0 then d else v
  | None => d
  end.

(** [l[i]], undefined out of range. *)
Definition item {A : Type} (l : list A) (i : Z) : option A :=
  if (i <? 0)%Z then None else nth_error l (Z.to_nat i).

(** [l.slice(0, k)]. *)
Definition slice0 {A : Type} (l : list A) (k : Z) : list A :=
  if (k <? 0)%Z then firstn (length l - Z.to_nat (- k)) l else firstn (Z.to_nat k) l.

(** The routines of [Math] whose results the language leaves to the
    implementation, and the sequence of values [Math.random] returns. *)
Class Math := {
  Math_sin : Q -> Q;
  Math_cos : Q -> Q;
  Math_sqrt : Q -> Q;
  Math_hypot : Q -> Q -> Q;
  Math_PI : Q;
  Math_random : nat -> Q
}.

(** A rational stand-in, used to run the scripts on examples.  Sine and
    cosine are the rational point of the unit circle with half-angle
    tangent [a/2] (exact at 0, as in any implementation); the square root
    is exact to six decimals; the random sequence is a small congruential
    generator in [0, 1). *)
Definition ref_sin (a : Q) : Q := let t := a / 2 in Qred ((2 * t) / (1 + t * t)).
Definition ref_cos (a : Q) : Q := let t := a / 2 in Qred ((1 - t * t) / (1 + t * t)).
Definition ref_sqrt (a : Q) : Q :=
  Qred (inject_Z (Z.sqrt (Qfloor (a * 1000000000000))) / 1000000).
Definition ref_random (i : nat) : Q :=
  Qred (inject_Z ((Z.of_nat i * 7919 + 4001) mod 10007) / 10007).

Definition ref_Math : Math := {|
  Math_sin := ref_sin;
  Math_cos := ref_cos;
  Math_sqrt := ref_sqrt;
  Math_hypot := fun a b => ref_sqrt (a * a + b * b);
  Math_PI := 3.141592653589793;
  Math_random := ref_random
|}.

End JS.

(** ** The 2D canvas *)

Module Canvas.

Inductive color :=
| rgba (r g b a : Q).

Inductive style :=
| Solid (c : color)
| LinearGradient (x0 y0 x1 y1 : Q) (stops : list (Q * color)).

(** The calls and property writes on the 2D context, in the order made. *)
Inductive op :=
| clearRect (x y w h : Q)
| fillRect (x y w h : Q)
| fillStyle (s : style)
| strokeStyle (s : style)
| lineWidth (w : Q)
| lineCap (v : string)
| globalCompositeOperation (v : string)
| shadowBlur (v : Q)
| shadowColor (c : color)
| save
| restore
| translate (x y : Q)
| beginPath
| moveTo (x y : Q)
| lineTo (x y : Q)
| arcTo (x1 y1 x2 y2 r : Q)
| closePath
| stroke
| fill.

(** The canvas element and its context: the backing-store size, the CSS
    size in pixels, the transform last set with [setTransform], and the
    drawing calls made so far. *)
Record canvas := {
  width : Z;
  height : Z;
  style_width : Q;
  style_height : Q;
  transform : Q * Q * Q * Q * Q * Q;
  log : list op
}.

Definition draw (ops : list op) (c : canvas) : canvas :=
  {| width := width c; height := height c; style_width := style_width c;
     style_height := style_height c; transform := transform c; log := log c ++ ops |}.

(** A canvas of the default size, nothing drawn. *)
Definition blank : canvas :=
  {| width := 300; height := 150; style_width := 300; style_height := 150;
     transform := (1, 0, 0, 1, 0, 0)%Q; log := [] |}.

End Canvas.

(** What the scripts read of [window] and [document]. *)
Record window := {
  devicePixelRatio : option Q;
  innerWidth : Q;
  innerHeight : Q;
  hidden : bool
}.

(** ** ai-bg.js, the wave variant *)

Module Wave.

Import JS.
Local Open Scope Q_scope.

Record config := {
  waves : Z;
  amplitude : Q;
  wavelength : Q;
  speed : Q;
  thickness : Q;
  dprMax : Q;
  fps : Q;
  colorA : Q * Q * Q;
  colorB : Q * Q * Q;
  alpha : Q
}.

Definition cfg : config := {|
  waves := 10;
  amplitude := 36;
  wavelength := 420;
  speed := 0.12;
  thickness := 1.1;
  dprMax := 2;
  fps := 45;
  colorA := (0, 180, 255);
  colorB := (0, 230, 210);
  alpha := 0.55
|}.

(** Per-wave parameters. *)
Record wave := {
  w_phase : Q;
  w_speed : Q;
  w_amp : Q;
  w_offsetY : Q;
  w_thickness : Q;
  w_wobble : Q
}.

(** The variables of the script, the canvas, the window, the number of
    animation-frame callbacks requested and not yet run, and the number of
    [Math.random] calls made. *)
Record state := {
  win : window;
  canvas : Canvas.canvas;
  w : Q;
  h : Q;
  dpr : Q;
  lastFrame : Q;
  wave_list : list wave;
  requested : nat;
  draws : nat
}.

Definition frameInterval : Q := 1000 / fps cfg.

Definition requestAnimationFrame (s : state) : state :=
  {| win := win s; canvas := canvas s; w := w s; h := h s; dpr := dpr s;
     lastFrame := lastFrame s; wave_list := wave_list s;
     requested := S (requested s); draws := draws s |}.

Definition set_lastFrame (t : Q) (s : state) : state :=
  {| win := win s; canvas := canvas s; w := w s; h := h s; dpr := dpr s;
     lastFrame := t; wave_list := wave_list s;
     requested := requested s; draws := draws s |}.

Definition ctx (ops : list Canvas.op) (s : state) : state :=
  {| win := win s; canvas := Canvas.draw ops (canvas s); w := w s; h := h s; dpr := dpr s;
     lastFrame := lastFrame s; wave_list := wave_list s;
     requested := requested s; draws := draws s |}.

Section WithMath.
Context {M : Math}.

Definition initWaves (s : state) : state :=
  let d := draws s in
  let ws :=
    map (fun i =>
      let k := (d + 5 * Z.to_nat i)%nat in
      {| w_phase := Math_random k * Math_PI * 2;
         w_speed := speed cfg * (0.6 + Math_random (k + 1) * 0.9);
         w_amp := amplitude cfg * (0.65 + Math_random (k + 2) * 0.85);
         w_offsetY := (inject_Z i + 0.5) / inject_Z (waves cfg);
         w_thickness := thickness cfg * (0.7 + Math_random (k + 3) * 0.9);
         w_wobble := 0.002 + Math_random (k + 4) * 0.006 |})
      (range 0 (Z.to_nat (waves cfg))) in
  {| win := win s; canvas := canvas s; w := w s; h := h s; dpr := dpr s;
     lastFrame := lastFrame s; wave_list := ws;
     requested := requested s; draws := (d + 5 * Z.to_nat (waves cfg))%nat |}.

Definition resize (s : state) : state :=
  let dpr := min (or_default (devicePixelRatio (win s)) 1) (dprMax cfg) in
  let w := max 1 (inject_Z (floor (innerWidth (win s)))) in
  let h := max 1 (inject_Z (floor (innerHeight (win s)))) in
  {| win := win s;
     canvas := {| Canvas.width := floor (w * dpr);
                  Canvas.height := floor (h * dpr);
                  Canvas.style_width := w;
                  Canvas.style_height := h;
                  Canvas.transform := (dpr, 0, 0, dpr, 0, 0);
                  Canvas.log := Canvas.log (canvas s) |};
     w := w; h := h; dpr := dpr;
     lastFrame := lastFrame s; wave_list := wave_list s;
     requested := requested s; draws := draws s |}.

Definition lerp (a b t : Q) : Q := a + (b - a) * t.

Definition mixColor (a b : Q * Q * Q) (t : Q) : Q * Q * Q :=
  let '(a0, a1, a2) := a in
  let '(b0, b1, b2) := b in
  (inject_Z (round (lerp a0 b0 t)), inject_Z (round (lerp a1 b1 t)),
   inject_Z (round (lerp a2 b2 t))).

Definition clear (s : state) : state :=
  ctx [Canvas.clearRect 0 0 (w s) (h s);
       Canvas.fillStyle (Canvas.LinearGradient 0 0 0 (h s)
         [(0, Canvas.rgba 6 8 14 0.02); (1, Canvas.rgba 2 4 8 0.06)]);
       Canvas.fillRect 0 0 (w s) (h s)] s.

(** The sampling loop that traces one wave line. *)
Definition trace (s : state) (t : Q) (i : Z) (wv : wave) (yBase phase : Q) : list Canvas.op :=
  let sampling := max 24 (inject_Z (floor (w s / 18))) in
  map (fun k =>
    let x := (inject_Z k / sampling) * w s in
    let wl := wavelength cfg * (0.9 + 0.25 * Math_sin (w_phase wv * 1.3 + inject_Z i)) in
    let freq := (2 * Math_PI) / wl in
    let base := Math_sin (x * freq + phase) in
    let wob := Math_sin (t * w_wobble wv + x * 0.0006) * 0.28 in
    let y := yBase + base * w_amp wv * (1 + wob) in
    if (k =? 0)%Z then Canvas.moveTo x y else Canvas.lineTo x y)
    (range 0 (Z.to_nat (floor sampling + 1))).

Definition drawWave (s : state) (t margin usable : Q) (i : Z) (wv : wave) : list Canvas.op :=
  let yBase := margin + usable * w_offsetY wv in
  let progress := (t * 0.001) * w_speed wv in
  let phase := w_phase wv + progress in
  let depthMix := max 0 (min 1 (1 - abs (w_offsetY wv - 0.5) * 1.6)) in
  let '(c0, c1, c2) := mixColor (colorA cfg) (colorB cfg) (0.25 + 0.75 * depthMix) in
  let alpha := alpha cfg * (0.45 + 0.55 * depthMix) in
  [Canvas.lineWidth (w_thickness wv);
   Canvas.strokeStyle (Canvas.Solid (Canvas.rgba c0 c1 c2 alpha));
   Canvas.lineCap "round";
   Canvas.beginPath]
  ++ trace s t i wv yBase phase
  ++ [Canvas.stroke;
      Canvas.lineWidth (max 0.4 (w_thickness wv * 0.5));
      Canvas.strokeStyle (Canvas.Solid (Canvas.rgba 255 255 255 (alpha * 0.06)));
      Canvas.beginPath]
  ++ trace s t i wv yBase phase
  ++ [Canvas.stroke].

(** [drawFrame(t)], the animation-frame callback. *)
Definition drawFrame (t : Q) (s : state) : state :=
  if ltb (t - lastFrame s) frameInterval then
    requestAnimationFrame s
  else
    let s := set_lastFrame t s in
    let s := clear s in
    let margin := min 120 (h s * 0.08) in
    let usable := max 32 (h s - margin * 2) in
    let s :=
      ctx (flat_map (fun '(i, wv) => drawWave s t margin usable i wv)
             (combine (range 0 (length (wave_list s))) (wave_list s))) s in
    requestAnimationFrame s.

(** [start()]: the resize listener runs [resize(); initWaves();]. *)
Definition onResize (wn : window) (s : state) : state :=
  let s := {| win := wn; canvas := canvas s; w := w s; h := h s; dpr := dpr s;
              lastFrame := lastFrame s; wave_list := wave_list s;
              requested := requested s; draws := draws s |} in
  initWaves (resize s).

Definition start (s : state) : state :=
  requestAnimationFrame (initWaves (resize s)).

End WithMath.

(** The script's variables as declared, before [start()]. *)
Definition initial (wn : window) : state :=
  {| win := wn; canvas := Canvas.blank; w := 0; h := 0; dpr := 1; lastFrame := 0;
     wave_list := []; requested := 0; draws := 0 |}.

(** The frame body ran: the canvas received drawing calls. *)
Definition drew (s s' : state) : Prop :=
  Canvas.log (canvas s') <> Canvas.log (canvas s).

End Wave.

(** ** ai-bg.js, the mesh variant *)

Module Mesh.

Import JS.
Local Open Scope Q_scope.

Definition color : Type := Q * Q * Q.

Record config := {
  baseNodes : Q;
  kNeighbors : Z;
  depth : Q;
  layerCount : Z;
  lineWidth : Q;
  glow : Q;
  speed : Q;
  flowScale : Q;
  flowStrength : Q;
  colors : gmap string color;
  pulseSpeed : Q;
  pathDeviation : Q
}.

(** The configuration object of the script. *)
Definition cfg : config := {|
  baseNodes := 180;
  kNeighbors := 6;
  depth := 2000;
  layerCount := 4;
  lineWidth := 0.8;
  glow := 12;
  speed := 0.00065;
  flowScale := 2800;
  flowStrength := 0.14;
  colors :=
    <["primary" := (0, 180, 255)]> (
    <["accent1" := (60, 240, 220)]> (
    <["accent2" := (140, 80, 255)]> (
    <["highlight" := (255, 140, 60)]> (
    <["energy" := (40, 210, 255)]> ∅))));
  pulseSpeed := 0.00045;
  pathDeviation := 0.3
|}.

(** The same configuration with the palette under the names [drawMesh]
    reads, as in the earlier revision of the script. *)
Definition cfg_named : config := {|
  baseNodes := baseNodes cfg;
  kNeighbors := kNeighbors cfg;
  depth := depth cfg;
  layerCount := layerCount cfg;
  lineWidth := lineWidth cfg;
  glow := glow cfg;
  speed := speed cfg;
  flowScale := flowScale cfg;
  flowStrength := flowStrength cfg;
  colors :=
    <["blue" := (12, 160, 255)]> (
    <["cyan" := (0, 220, 200)]> (
    <["orange" := (255, 150, 80)]> ∅));
  pulseSpeed := pulseSpeed cfg;
  pathDeviation := pathDeviation cfg
|}.

Record node := {
  x : Q;
  y : Q;
  z : Q;
  vx : Q;
  vy : Q;
  energy : Q;
  offset : Q;
  layer : Z;
  pathOffset : Q;
  lastUpdate : Q;
  neighbors : option (list Z)
}.

Record pointer := {
  mouse_x : Q;
  mouse_y : Q;
  active : bool
}.

(** The browser's side of [requestAnimationFrame] and [Math.random]: the
    handles of the callbacks requested and not yet run, the last handle
    issued, and the number of random draws made. *)
Record browser := {
  pending : list Z;
  issued : Z;
  draws : nat
}.

(** The variables of the script ([t0] is never read and is left out),
    with the window, the canvas and the browser. *)
Record state := {
  win : window;
  canvas : Canvas.canvas;
  host : browser;
  width : Q;
  height : Q;
  dpr : Q;
  nodes : list node;
  raf : option Z;
  mouse : pointer;
  visible : bool;
  p : list Z;
  lastFrameTime : Q
}.

Definition set_win (v : window) (s : state) : state :=
  {| win := v; canvas := canvas s; host := host s; width := width s; height := height s;
     dpr := dpr s; nodes := nodes s; raf := raf s; mouse := mouse s; visible := visible s;
     p := p s; lastFrameTime := lastFrameTime s |}.
Definition set_canvas (v : Canvas.canvas) (s : state) : state :=
  {| win := win s; canvas := v; host := host s; width := width s; height := height s;
     dpr := dpr s; nodes := nodes s; raf := raf s; mouse := mouse s; visible := visible s;
     p := p s; lastFrameTime := lastFrameTime s |}.
Definition set_host (v : browser) (s : state) : state :=
  {| win := win s; canvas := canvas s; host := v; width := width s; height := height s;
     dpr := dpr s; nodes := nodes s; raf := raf s; mouse := mouse s; visible := visible s;
     p := p s; lastFrameTime := lastFrameTime s |}.
Definition set_size (wd ht d : Q) (s : state) : state :=
  {| win := win s; canvas := canvas s; host := host s; width := wd; height := ht;
     dpr := d; nodes := nodes s; raf := raf s; mouse := mouse s; visible := visible s;
     p := p s; lastFrameTime := lastFrameTime s |}.
Definition set_nodes (v : list node) (s : state) : state :=
  {| win := win s; canvas := canvas s; host := host s; width := width s; height := height s;
     dpr := dpr s; nodes := v; raf := raf s; mouse := mouse s; visible := visible s;
     p := p s; lastFrameTime := lastFrameTime s |}.
Definition set_raf (v : option Z) (s : state) : state :=
  {| win := win s; canvas := canvas s; host := host s; width := width s; height := height s;
     dpr := dpr s; nodes := nodes s; raf := v; mouse := mouse s; visible := visible s;
     p := p s; lastFrameTime := lastFrameTime s |}.
Definition set_mouse (v : pointer) (s : state) : state :=
  {| win := win s; canvas := canvas s; host := host s; width := width s; height := height s;
     dpr := dpr s; nodes := nodes s; raf := raf s; mouse := v; visible := visible s;
     p := p s; lastFrameTime := lastFrameTime s |}.
Definition set_visible (v : bool) (s : state) : state :=
  {| win := win s; canvas := canvas s; host := host s; width := width s; height := height s;
     dpr := dpr s; nodes := nodes s; raf := raf s; mouse := mouse s; visible := v;
     p := p s; lastFrameTime := lastFrameTime s |}.
Definition set_p (v : list Z) (s : state) : state :=
  {| win := win s; canvas := canvas s; host := host s; width := width s; height := height s;
     dpr := dpr s; nodes := nodes s; raf := raf s; mouse := mouse s; visible := visible s;
     p := v; lastFrameTime := lastFrameTime s |}.
Definition set_lastFrameTime (v : Q) (s : state) : state :=
  {| win := win s; canvas := canvas s; host := host s; width := width s; height := height s;
     dpr := dpr s; nodes := nodes s; raf := raf s; mouse := mouse s; visible := visible s;
     p := p s; lastFrameTime := v |}.

(** *** Statements that may throw *)

Inductive error :=
| TypeError (reading : string).

(** A statement run from a state either completes with a value or throws;
    what it did to the state before throwing stays done. *)
Inductive result (A : Type) :=
| Ok (a : A) (s : state)
| Throw (e : error) (s : state).
Arguments Ok {A} a s.
Arguments Throw {A} e s.

Definition stmt (A : Type) : Type := state -> result A.

Definition ret {A : Type} (a : A) : stmt A := fun s => Ok a s.
Definition throw {A : Type} (e : error) : stmt A := fun s => Throw e s.
Definition bind {A B : Type} (m : stmt A) (k : A -> stmt B) : stmt B :=
  fun s => match m s with
           | Ok a s' => k a s'
           | Throw e s' => Throw e s'
           end.
Definition get : stmt state := fun s => Ok s s.
Definition modify (f : state -> state) : stmt unit := fun s => Ok tt (f s).

Notation "'do' a <- m ; k" := (bind m (fun a => k))
  (at level 10, a name, m at level 100, k at level 200).
Notation "m ;; k" := (bind m (fun _ => k))
  (at level 100, k at level 200, right associativity).

(** [for (const a of l) body(a)] *)
Fixpoint for_each {A : Type} (l : list A) (body : A -> stmt unit) : stmt unit :=
  match l with
  | [] => ret tt
  | a :: l' => body a ;; for_each l' body
  end.

(** [v.field] where [v] came from an array read: a TypeError on
    undefined. *)
Definition defined {A : Type} (v : option A) (reading : string) : stmt A :=
  match v with
  | Some a => ret a
  | None => throw (TypeError reading)
  end.

Definition state_of {A : Type} (r : result A) : state :=
  match r with
  | Ok _ s => s
  | Throw _ s => s
  end.

Definition threw {A : Type} (r : result A) : bool :=
  match r with
  | Ok _ _ => false
  | Throw _ _ => true
  end.

Definition ctx (ops : list Canvas.op) : stmt unit :=
  modify (fun s => set_canvas (Canvas.draw ops (canvas s)) s).

(** [raf = requestAnimationFrame(loop)] *)
Definition requestAnimationFrame : stmt unit :=
  modify (fun s =>
    let h := (issued (host s) + 1)%Z in
    set_raf (Some h)
      (set_host {| pending := pending (host s) ++ [h]; issued := h;
                   draws := draws (host s) |} s)).


Section Script.
Context {M : Math}.

(** The configuration is a variable here, so that statements can range
    over configurations; the script runs with [cfg]. *)
Variable c : config.

Definition resize (s : state) : state :=
  let dpr := min (or_default (devicePixelRatio (win s)) 1) 2 in
  let width := innerWidth (win s) in
  let height := innerHeight (win s) in
  let cv :=
    {| Canvas.width := Z.max 1 (floor (width * dpr));
       Canvas.height := Z.max 1 (floor (height * dpr));
       Canvas.style_width := width;
       Canvas.style_height := height;
       Canvas.transform := (dpr, 0, 0, dpr, 0, 0);
       Canvas.log := Canvas.log (canvas s) |} in
  set_canvas cv (set_size width height dpr s).

Definition lerp (a b t : Q) : Q := a + (b - a) * t.

Definition fade (t : Q) : Q := t * t * t * (t * (t * 6 - 15) + 10).

Definition grad (hash : Z) (x y : Q) : Q :=
  let h := Z.land hash 15 in
  let u := if (h <? 8)%Z then x else y in
  let v := if (h <? 4)%Z then y
           else if ((h =? 12) || (h =? 14))%Z then x else 0 in
  (if (Z.land h 1 =? 0)%Z then u else - u) + (if (Z.land h 2 =? 0)%Z then v else - v).

(** [p[i]] of the permutation table; the indices [noise] computes are
    within its 512 entries. *)
Definition perm (tbl : list Z) (i : Z) : Z := nth (Z.to_nat i) tbl 0%Z.

Definition noise (tbl : list Z) (x y : Q) : Q :=
  let X := Z.land (floor x) 255 in
  let Y := Z.land (floor y) 255 in
  let x := x - inject_Z (floor x) in
  let y := y - inject_Z (floor y) in
  let u := fade x in
  let v := fade y in
  let A := (perm tbl X + Y)%Z in
  let B := (perm tbl (X + 1) + Y)%Z in
  lerp v (lerp u (grad (perm tbl A) x y) (grad (perm tbl B) (x - 1) y))
         (lerp u (grad (perm tbl (A + 1)) x (y - 1)) (grad (perm tbl (B + 1)) (x - 1) (y - 1))).

(** The permutation table, filled when the script loads:
    [p[i] = p[i+256] = Math.floor(Math.random()*256)]. *)
Definition build_p (s : state) : state :=
  let d := draws (host s) in
  let half := map (fun i => floor (Math_random (d + Z.to_nat i) * 256)) (range 0 256) in
  set_p (half ++ half)
    (set_host {| pending := pending (host s); issued := issued (host s);
                 draws := (d + 256)%nat |} s).

(** The record pushed by the [i]-th round of the loop in [buildNodes];
    [k] is the number of random draws made before it. *)
Definition new_node (s : state) (k : nat) : node :=
  let angle := Math_random k * Math_PI * 2 in
  let rad := Math_random (k + 1) * 0.8 + 0.2 in
  {| x := width s / 2 + Math_cos angle * (width s / 2 * rad * 1.4);
     y := height s / 2 + Math_sin angle * (height s / 2 * rad * 1.4);
     z := Math_random (k + 2) * depth c;
     vx := 0;
     vy := 0;
     energy := Math_random (k + 3);
     offset := Math_random (k + 4) * Math_PI * 2;
     layer := floor (Math_random (k + 5) * inject_Z (layerCount c));
     pathOffset := Math_random (k + 6) * Math_PI * 2;
     lastUpdate := 0;
     neighbors := None |}.

Definition node_count (s : state) : Z :=
  let area := width s * height s in
  let scale := Math_sqrt (area / (1280 * 720)) in
  Z.max 80 (floor (baseNodes c * scale * dpr s)).

Definition buildNodes (s : state) : state :=
  let count := Z.to_nat (node_count s) in
  let d := draws (host s) in
  let built := map (fun i => new_node s (d + 7 * i)) (seq 0 count) in
  set_nodes built
    (set_host {| pending := pending (host s); issued := issued (host s);
                 draws := (d + 7 * count)%nat |} s).

(** [dists.sort((u,v) => u.dist - v.dist)]: the sort is stable. *)
Fixpoint insert (u : Z * Q) (l : list (Z * Q)) : list (Z * Q) :=
  match l with
  | [] => [u]
  | v :: l' => if leb (snd u) (snd v) then u :: l else v :: insert u l'
  end.

Definition sort (l : list (Z * Q)) : list (Z * Q) := fold_right insert [] l.

Definition set_neighbors (v : option (list Z)) (n : node) : node :=
  {| x := x n; y := y n; z := z n; vx := vx n; vy := vy n; energy := energy n;
     offset := offset n; layer := layer n; pathOffset := pathOffset n;
     lastUpdate := lastUpdate n; neighbors := v |}.

Definition indexed {A : Type} (l : list A) : list (Z * A) :=
  combine (range 0 (length l)) l.

Definition computeNeighbors (s : state) : state :=
  let pts := nodes s in
  let with_neighbors :=
    map (fun '(i, a) =>
      let dists :=
        flat_map (fun '(j, b) =>
          if (i =? j)%Z then []
          else
            let dx := x a - x b in
            let dy := y a - y b in
            [(j, dx * dx + dy * dy)]) (indexed pts) in
      set_neighbors (Some (map fst (slice0 (sort dists) (kNeighbors c)))) a)
      (indexed pts) in
  set_nodes with_neighbors s.

(** [mix(a, b, t)] reads [a[0]] and [b[0]] first: it throws when either
    colour is undefined. *)
Definition mix (a b : option color) (t : Q) : stmt color :=
  do a <- defined a "0";
  do b <- defined b "0";
  let '(a0, a1, a2) := a in
  let '(b0, b1, b2) := b in
  ret (inject_Z (round (lerp a0 b0 t)), inject_Z (round (lerp a1 b1 t)),
       inject_Z (round (lerp a2 b2 t))).

(** The calls [clear()] makes on the context. *)
Definition clear_ops (s : state) : list Canvas.op :=
  [Canvas.clearRect 0 0 (width s) (height s);
   Canvas.fillStyle (Canvas.LinearGradient 0 0 0 (height s)
     [(0, Canvas.rgba 4 8 18 1); (1, Canvas.rgba 0 0 0 0.95)]);
   Canvas.fillRect 0 0 (width s) (height s)].

Definition clear : stmt unit :=
  do s <- get;
  ctx (clear_ops s).

(** The four wraparound tests of the node update. *)
Definition wrap (wd ht : Q) (n : node) : node :=
  let nx := x n in
  let ny := y n in
  let nx := if ltb nx (- wd * 0.3) then wd * 1.3 else nx in
  let nx := if ltb (wd * 1.3) nx then - wd * 0.3 else nx in
  let ny := if ltb ny (- ht * 0.3) then ht * 1.3 else ny in
  let ny := if ltb (ht * 1.3) ny then - ht * 0.3 else ny in
  {| x := nx; y := ny; z := z n; vx := vx n; vy := vy n; energy := energy n;
     offset := offset n; layer := layer n; pathOffset := pathOffset n;
     lastUpdate := lastUpdate n; neighbors := neighbors n |}.

(** The flow step: momentum, then the move. *)
Definition flow (tbl : list Z) (n : node) : node :=
  let nx := x n / flowScale c in
  let ny := y n / flowScale c in
  let flowAngle := noise tbl nx ny * Math_PI * 2 in
  let fx := Math_cos flowAngle * flowStrength c in
  let fy := Math_sin flowAngle * flowStrength c in
  let vx' := vx n * 0.95 + fx in
  let vy' := vy n * 0.95 + fy in
  {| x := x n + vx'; y := y n + vy'; z := z n; vx := vx'; vy := vy'; energy := energy n;
     offset := offset n; layer := layer n; pathOffset := pathOffset n;
     lastUpdate := lastUpdate n; neighbors := neighbors n |}.

Definition set_lastUpdate (v : Q) (n : node) : node :=
  {| x := x n; y := y n; z := z n; vx := vx n; vy := vy n; energy := energy n;
     offset := offset n; layer := layer n; pathOffset := pathOffset n;
     lastUpdate := v; neighbors := neighbors n |}.

Definition set_energy (v : Q) (n : node) : node :=
  {| x := x n; y := y n; z := z n; vx := vx n; vy := vy n; energy := v;
     offset := offset n; layer := layer n; pathOffset := pathOffset n;
     lastUpdate := lastUpdate n; neighbors := neighbors n |}.

(** The callback of [nodes.forEach] in [drawMesh]. *)
Definition update (s : state) (now : Q) (n : node) : node :=
  let n :=
    if ltb 16 (now - lastUpdate n)
    then set_lastUpdate now (wrap (width s) (height s) (flow (p s) n))
    else n in
  set_energy (fmod (energy n + pulseSpeed c) 1) n.

(** An element of [pts]. *)
Record point := {
  p_x : Q;
  p_y : Q;
  p_z : Q;
  p_zp : Q;
  p_scale : Q;
  p_layer : Z;
  p_energy : Q;
  originalNode : node
}.

Definition place (s : state) (now camX camY : Q) (n : node) : point :=
  let mod_ := Math_sin ((now * speed c * (0.7 + inject_Z (layer n) * 0.2)) + offset n) in
  let z := fmod (z n + mod_ * 100) (depth c) in
  let zp := z / depth c in
  let scale := 1 / (1 + zp * 1.4) in
  let x := (x n - width s / 2) * scale + width s / 2 + camX * (1 - scale * 0.8) in
  let y := (y n - height s / 2) * scale + height s / 2 + camY * (1 - scale * 0.8) in
  {| p_x := x; p_y := y; p_z := z; p_zp := zp; p_scale := scale;
     p_layer := layer n; p_energy := energy n; originalNode := n |}.

(** The body of [for (const idx of nObj.neighbors || [])]. *)
Definition connect (pts : list point) (baseColor : color) (A : point) (idx : Z) : stmt unit :=
  do B <- defined (item pts idx) "layer";
  if ltb 1 (abs (inject_Z (p_layer B - p_layer A))) then ret tt else
  let dx := p_x A - p_x B in
  let dy := p_y A - p_y B in
  let dist := Math_hypot dx dy in
  let baseAlpha := max 0 (0.95 - dist / (320 * (1 + (p_zp A + p_zp B)))) in
  if ltb baseAlpha 0.02 then ret tt else
  let wob := 0.35 + 0.65 * (1 - (p_zp A + p_zp B) / 2) in
  do color <- mix (Some baseColor) (colors c !! "orange") ((1 - wob) * 0.15);
  let '(c0, c1, c2) := color in
  ctx [Canvas.save;
       Canvas.strokeStyle (Canvas.Solid (Canvas.rgba c0 c1 c2 (baseAlpha * 0.9)));
       Canvas.shadowBlur (max 0 ((glow c * 0.35) * (1 - max (p_scale A) (p_scale B))));
       Canvas.shadowColor (Canvas.rgba c0 c1 c2 (min 0.25 baseAlpha));
       Canvas.beginPath;
       Canvas.moveTo (p_x A) (p_y A);
       Canvas.lineTo (p_x B) (p_y B);
       Canvas.stroke;
       Canvas.restore].

(** One round of the layer loop. *)
Definition drawLayer (pts : list point) (layerIdx : Z) : stmt unit :=
  let layerTint := inject_Z layerIdx / max 1 (inject_Z (layerCount c - 1)) in
  do baseColor <- mix (colors c !! "blue") (colors c !! "cyan") (layerTint * 0.6);
  ctx [Canvas.lineWidth (lineWidth c); Canvas.globalCompositeOperation "lighter"] ;;
  for_each (indexed pts) (fun '(i, A) =>
    if negb (p_layer A =? layerIdx)%Z then ret tt else
    do s <- get;
    do nObj <- defined (item (nodes s) i) "neighbors";
    for_each (default [] (neighbors nObj)) (connect pts baseColor A)).

Definition roundRect (x y w h r : Q) : list Canvas.op :=
  [Canvas.moveTo (x + r) y;
   Canvas.arcTo (x + w) y (x + w) (y + h) r;
   Canvas.arcTo (x + w) (y + h) x (y + h) r;
   Canvas.arcTo x (y + h) x y r;
   Canvas.arcTo x y (x + w) y r;
   Canvas.closePath].

(** The callback of [filter] that counts the visible neighbours. *)
Fixpoint countVisible (ns : list node) (pt : point) (l : list Z) : stmt Z :=
  match l with
  | [] => ret 0%Z
  | idx :: l' =>
      do n <- defined (item ns idx) "layer";
      do k <- countVisible ns pt l';
      ret (if leb (abs (inject_Z (layer n - p_layer pt))) 1 then (k + 1)%Z else k)
  end.

(** One round of the loop that draws the accents. *)
Definition drawAccent (i : Z) (pt : point) : stmt unit :=
  do s <- get;
  do nObj <- defined (item (nodes s) i) "neighbors";
  do visibleNeighbors <- countVisible (nodes s) pt (default [] (neighbors nObj));
  if (visibleNeighbors <? 2)%Z then ret tt else
  let intensity := min 1 (0.3 + inject_Z visibleNeighbors * 0.18) * (1 - p_zp pt) in
  if ltb intensity 0.06 then ret tt else
  do col <- mix (colors c !! "cyan") (colors c !! "blue") (0.2 + 0.6 * (1 - p_zp pt));
  let '(c0, c1, c2) := col in
  let sz := 1.2 + (1 - p_zp pt) * 1.8 in
  ctx ([Canvas.save;
        Canvas.fillStyle (Canvas.Solid (Canvas.rgba c0 c1 c2 (0.9 * intensity)));
        Canvas.translate (p_x pt) (p_y pt);
        Canvas.beginPath]
       ++ roundRect (- sz / 2) (- sz / 2) sz sz (sz * 0.3)
       ++ [Canvas.fill; Canvas.restore]).

Definition drawMesh (now : Q) : stmt unit :=
  do s <- get;
  let camX := if active (mouse s) then (mouse_x (mouse s) - width s / 2) * 0.012
              else Math_sin (now * 0.00006) * 15 in
  let camY := if active (mouse s) then (mouse_y (mouse s) - height s / 2) * 0.012
              else Math_cos (now * 0.00004) * 12 in
  modify (fun s => set_nodes (map (update s now) (nodes s)) s) ;;
  do s <- get;
  let pts := map (place s now camX camY) (nodes s) in
  for_each (rev (range 0 (Z.to_nat (layerCount c)))) (drawLayer pts) ;;
  ctx [Canvas.globalCompositeOperation "lighter"] ;;
  for_each (indexed pts) (fun '(i, pt) => drawAccent i pt) ;;
  ctx [Canvas.globalCompositeOperation "source-over"].

Definition FPS : Q := 30.
Definition FRAME_INTERVAL : Q := 1000 / FPS.

(** [loop(now)], the animation-frame callback. *)
Definition loop (now : Q) : stmt unit :=
  do s <- get;
  if negb (visible s) then requestAnimationFrame else
  if ltb (now - lastFrameTime s) FRAME_INTERVAL then requestAnimationFrame else
  modify (set_lastFrameTime now) ;;
  clear ;;
  drawMesh now ;;
  requestAnimationFrame.

(** The listeners registered by [attach]. *)
Inductive event :=
| Resize (w : window)
| MouseMove (clientX clientY : Q)
| MouseOut
| TouchMove (touch : option (Q * Q))
| VisibilityChange (is_hidden : bool)
| AnimationFrame (now : Q).

Definition set_hidden (b : bool) (w : window) : window :=
  {| devicePixelRatio := devicePixelRatio w; innerWidth := innerWidth w;
     innerHeight := innerHeight w; hidden := b |}.

(** The browser takes the oldest requested callback off its list and
    runs it; with none requested nothing runs. *)
Definition runFrame (now : Q) : stmt unit :=
  do s <- get;
  match pending (host s) with
  | [] => ret tt
  | _ :: rest =>
      modify (set_host {| pending := rest; issued := issued (host s);
                          draws := draws (host s) |}) ;;
      loop now
  end.

Definition dispatch (e : event) : stmt unit :=
  match e with
  | Resize w =>
      modify (fun s => computeNeighbors (buildNodes (resize (set_win w s))))
  | MouseMove cx cy =>
      modify (set_mouse {| mouse_x := cx; mouse_y := cy; active := true |})
  | MouseOut =>
      modify (fun s => set_mouse {| mouse_x := mouse_x (mouse s); mouse_y := mouse_y (mouse s);
                                    active := false |} s)
  | TouchMove (Some (cx, cy)) =>
      modify (set_mouse {| mouse_x := cx; mouse_y := cy; active := true |})
  | TouchMove None => ret tt
  | VisibilityChange b =>
      modify (fun s => set_visible (negb b) (set_win (set_hidden b (win s)) s))
  | AnimationFrame now => runFrame now
  end.

(** An exception thrown by a listener is reported and the page goes on:
    later events run from the state the listener left. *)
Fixpoint run (es : list event) (s : state) : state :=
  match es with
  | [] => s
  | e :: es' => run es' (state_of (dispatch e s))
  end.

(** [init(); computeAndStart();] *)
Definition init : stmt unit :=
  modify resize ;;
  modify buildNodes ;;
  requestAnimationFrame.

Definition boot (s : state) : state :=
  computeNeighbors (state_of (init (build_p s))).

End Script.

(** The variables as the script declares them. *)
Definition initial (w : window) : state :=
  {| win := w; canvas := Canvas.blank;
     host := {| pending := []; issued := 0; draws := 0 |};
     width := 0; height := 0; dpr := 1; nodes := []; raf := None;
     mouse := {| mouse_x := 0; mouse_y := 0; active := false |};
     visible := true; p := []; lastFrameTime := 0 |}.

(** *** Vocabulary for the properties *)

(** [s] after further drawing calls, nothing else changed. *)
Definition appended (ops : list Canvas.op) (s : state) : state :=
  set_canvas (Canvas.draw ops (canvas s)) s.

(** A statement that only draws: whatever its outcome, it leaves the state
    it started from with more calls on the context. *)
Definition drawing {A : Type} (m : stmt A) : Prop :=
  forall s, exists ops, state_of (m s) = appended ops s.

(** A statement that only draws and, unless it throws, ends with the
    calls [last]. *)
Definition drawing_to {A : Type} (last : list Canvas.op) (m : stmt A) : Prop :=
  forall s, exists ops,
    state_of (m s) = appended (if threw (m s) then ops else ops ++ last) s.

(** [s] after one more [raf = requestAnimationFrame(loop)]. *)
Definition rescheduled (s : state) : state := state_of (requestAnimationFrame s).

(** The canvas received drawing calls between [s] and [s']. *)
Definition drew (s s' : state) : Prop :=
  Canvas.log (canvas s') <> Canvas.log (canvas s).

(** The palette has the three names [drawMesh] reads. *)
Definition palette_named (c : config) : Prop :=
  is_Some (colors c !! "blue") /\ is_Some (colors c !! "cyan") /\
  is_Some (colors c !! "orange").

(** Every neighbour index stored in a node is an index of the array. *)
Definition in_range_of {A : Type} (l : list A) (idx : Z) : Prop :=
  (0 <= idx < Z.of_nat (length l))%Z.

Definition neighbors_in_range (ns : list node) : Prop :=
  Forall (fun n => Forall (in_range_of ns) (default [] (neighbors n))) ns.

(** A statement that does not throw when the node array is [ns]. *)
Definition calm {A : Type} (ns : list node) (m : stmt A) : Prop :=
  forall s, nodes s = ns -> threw (m s) = false.

(** The node lies on the visible canvas. *)
Definition within_canvas (wd ht : Q) (n : node) : Prop :=
  (0 <= x n /\ x n <= wd) /\ (0 <= y n /\ y n <= ht).

(** The node lies on the canvas enlarged by 30% of its size on every
    side, the band the wraparound tests of [drawMesh] use. *)
Definition within_margin (wd ht : Q) (n : node) : Prop :=
  (- wd * 0.3 <= x n /\ x n <= wd * 1.3) /\ (- ht * 0.3 <= y n /\ y n <= ht * 1.3).

(** A record as [buildNodes] pushes it. *)
Definition fresh_node (c : config) (n : node) : Prop :=
  (0 <= z n /\ z n < depth c) /\
  (vx n = 0 /\ vy n = 0) /\
  (0 <= layer n < layerCount c)%Z /\
  (0 <= energy n /\ energy n < 1) /\
  lastUpdate n = 0.

End Mesh.

(** ** header-typing.js *)

Module Typing.

Local Open Scope Z_scope.

(** [word.slice(0, k)]: a negative [k] counts from the end. *)
Definition slice (word : string) (k : Z) : string :=
  if k <? 0 then String.substring 0 (String.length word - Z.to_nat (- k)) word
  else String.substring 0 (Z.to_nat k) word.

Definition script_words : list string := ["coder"; "editor"; "Developer"]%string.

Definition typeSpeed : Z := 80.
Definition eraseSpeed : Z := 50.
Definition holdDelay : Z := 1200.
Definition nextDelay : Z := 400.

(** The variables of the script, the text of the element, and the delays
    of the [setTimeout(tick, d)] calls made so far, in order. *)
Record state := {
  wordIndex : Z;
  charIndex : Z;
  typing : bool;
  textContent : string;
  timeouts : list Z
}.

Section Script.

(** The [words] array; the script's is [script_words]. *)
Variable words : list string.

(** [tick()]: [None] when [words[wordIndex]] is undefined, where
    [word.slice] throws. *)
Definition tick (s : state) : option state :=
  match JS.item words (wordIndex s) with
  | None => None
  | Some word =>
    if typing s then
      let text := slice word (charIndex s + 1) in
      let charIndex' := charIndex s + 1 in
      if charIndex' =? Z.of_nat (String.length word) then
        Some {| wordIndex := wordIndex s; charIndex := charIndex'; typing := false;
                textContent := text; timeouts := timeouts s ++ [holdDelay] |}
      else
        Some {| wordIndex := wordIndex s; charIndex := charIndex'; typing := true;
                textContent := text; timeouts := timeouts s ++ [typeSpeed] |}
    else
      let text := slice word (charIndex s - 1) in
      let charIndex' := charIndex s - 1 in
      if charIndex' =? 0 then
        Some {| wordIndex := Z.rem (wordIndex s + 1) (Z.of_nat (length words));
                charIndex := charIndex'; typing := true;
                textContent := text; timeouts := timeouts s ++ [nextDelay] |}
      else
        Some {| wordIndex := wordIndex s; charIndex := charIndex'; typing := false;
                textContent := text; timeouts := timeouts s ++ [eraseSpeed] |}
  end.

(** Every call of [tick] sets the one timer that runs the next: [ticks n]
    is the first [n] calls. *)
Fixpoint ticks (n : nat) (s : state) : option state :=
  match n with
  | O => Some s
  | S n' =>
    match tick s with
    | Some s' => ticks n' s'
    | None => None
    end
  end.

End Script.

(** The variables as declared, before the first [tick()], with the text
    the page has in the element. *)
Definition initial (text : string) : state :=
  {| wordIndex := 0; charIndex := 0; typing := true; textContent := text; timeouts := [] |}.

(** The script is at character [charIndex] of [word], typing before its
    end or erasing after its start. *)
Definition at_word (words : list string) (s : state) (word : string) : Prop :=
  JS.item words (wordIndex s) = Some word /\
  0 <= charIndex s <= Z.of_nat (String.length word) /\
  (typing s = true -> charIndex s < Z.of_nat (String.length word)) /\
  (typing s = false -> 0 < charIndex s).

(** The element shows the first [charIndex] characters of [word]. *)
Definition shows_prefix (s : state) (word : string) : Prop :=
  textContent s = String.substring 0 (Z.to_nat (charIndex s)) word.

End Typing.

(** ** Windows and states for the examples *)

(** A desktop window at ratio 1. *)
Definition desktop : window :=
  {| devicePixelRatio := Some 1%Q; innerWidth := 1280; innerHeight := 720; hidden := false |}.

(** A window collapsed to nothing (a hidden frame). *)
Definition collapsed : window :=
  {| devicePixelRatio := Some 1%Q; innerWidth := 0; innerHeight := 0; hidden := false |}.

(** What the specification says of [resize]: the clamped ratio, CSS
    dimensions of at least a pixel, a backing store of exactly the scaled
    size, and the pure scaling as transform. *)
Definition dpr_aware (wn : window) (w h dpr : Q) (cv : Canvas.canvas) : Prop :=
  dpr = JS.min (JS.or_default (devicePixelRatio wn) 1) 2 /\
  (1 <= w /\ 1 <= h)%Q /\
  (Canvas.width cv = JS.floor (w * dpr) /\ Canvas.height cv = JS.floor (h * dpr)) /\
  Canvas.transform cv = (dpr, 0, 0, dpr, 0, 0)%Q.

(** The same with the clamp where the mesh variant has it: on the backing
    store, not on the CSS dimensions. *)
Definition dpr_aware_backing (wn : window) (w h dpr : Q) (cv : Canvas.canvas) : Prop :=
  dpr = JS.min (JS.or_default (devicePixelRatio wn) 1) 2 /\
  (w = innerWidth wn /\ h = innerHeight wn) /\
  (Canvas.width cv = Z.max 1 (JS.floor (w * dpr)) /\
   Canvas.height cv = Z.max 1 (JS.floor (h * dpr))) /\
  Canvas.transform cv = (dpr, 0, 0, dpr, 0, 0)%Q.

(** The mesh page on a desktop window, with a single node that drifts
    left through the top-left corner of the canvas. *)
Definition drifting_node : Mesh.node :=
  {| Mesh.x := 0; Mesh.y := 0; Mesh.z := 100; Mesh.vx := - (1); Mesh.vy := 0;
     Mesh.energy := 0.5; Mesh.offset := 0; Mesh.layer := 0; Mesh.pathOffset := 0;
     Mesh.lastUpdate := 0; Mesh.neighbors := Some [] |}.

Definition drifting : Mesh.state :=
  Mesh.set_nodes [drifting_node]
    (Mesh.resize (Mesh.build_p (M := JS.ref_Math) (Mesh.initial desktop))).

(** ** Vocabulary for the further properties *)

(** Sine and cosine stay within [-1, 1], as every implementation's do. *)
Definition bounded_trig {M : JS.Math} : Prop :=
  forall a, (- (1) <= JS.Math_cos a /\ JS.Math_cos a <= 1)%Q /\
            (- (1) <= JS.Math_sin a /\ JS.Math_sin a <= 1)%Q.

(** A permutation table as the script fills it: 512 entries below 256,
    the second half repeating the first. *)
Definition table_ok (tbl : list Z) : Prop :=
  length tbl = 512%nat /\
  Forall (fun v => 0 <= v < 256) tbl /\
  forall i, 0 <= i < 256 -> Mesh.perm tbl (i + 256) = Mesh.perm tbl i.

(** The indices at which [noise(x, y)] reads the table, in the order of
    the reads: [p[X]], [p[X+1]], [p[A]], [p[B]], [p[A+1]], [p[B+1]]. *)
Definition noise_reads (tbl : list Z) (x y : Q) : list Z :=
  let X := Z.land (JS.floor x) 255 in
  let Y := Z.land (JS.floor y) 255 in
  let A := Mesh.perm tbl X + Y in
  let B := Mesh.perm tbl (X + 1) + Y in
  [X; X + 1; A; B; A + 1; B + 1].

(** An event as a browser delivers it: a window has no negative size. *)
Definition ok_event (e : Mesh.event) : Prop :=
  match e with
  | Mesh.Resize w => (0 <= innerWidth w /\ 0 <= innerHeight w)%Q
  | _ => True
  end.

(** The fields of a node that [buildNodes] draws within a range. *)
Definition node_ranges (c : Mesh.config) (n : Mesh.node) : Prop :=
  (0 <= Mesh.z n /\ Mesh.z n < Mesh.depth c)%Q /\
  (0 <= Mesh.layer n < Mesh.layerCount c) /\
  (0 <= Mesh.energy n /\ Mesh.energy n < 1)%Q.

(** The velocity is at most 20 times the flow strength in each
    direction (what the momentum factor 0.95 allows). *)
Definition node_slow (c : Mesh.config) (n : Mesh.node) : Prop :=
  (- (20 * Mesh.flowStrength c) <= Mesh.vx n /\ Mesh.vx n <= 20 * Mesh.flowStrength c)%Q /\
  (- (20 * Mesh.flowStrength c) <= Mesh.vy n /\ Mesh.vy n <= 20 * Mesh.flowStrength c)%Q.

(** The page state on which a property of the nodes holds, with the
    canvas size it refers to. *)
Definition nodes_all (good : Q -> Q -> Mesh.node -> Prop) (s : Mesh.state) : Prop :=
  (0 <= Mesh.width s /\ 0 <= Mesh.height s)%Q /\
  Forall (good (Mesh.width s) (Mesh.height s)) (Mesh.nodes s).

(** A few events for the examples. *)
Definition some_events : list Mesh.event :=
  [Mesh.AnimationFrame 40; Mesh.MouseMove 300 200; Mesh.AnimationFrame 80;
   Mesh.Resize collapsed; Mesh.VisibilityChange true; Mesh.AnimationFrame 120;
   Mesh.VisibilityChange false; Mesh.Resize desktop; Mesh.AnimationFrame 160].

(** The animation is alive: one callback is requested, and the neighbour
    lists index the node array. *)
Definition alive (s : Mesh.state) : Prop :=
  length (Mesh.pending (Mesh.host s)) = 1%nat /\ Mesh.neighbors_in_range (Mesh.nodes s).

(** The squared distance [computeNeighbors] sorts by. *)
Definition dist2 (a b : Mesh.node) : Q :=
  (let dx := Mesh.x a - Mesh.x b in
   let dy := Mesh.y a - Mesh.y b in
   dx * dx + dy * dy)%Q.

(** Entries of [dists] in the order of the sort. *)
Definition by_dist (u v : Z * Q) : Prop := (snd u <= snd v)%Q.

(** The [dists] array of the node [a] at index [i]. *)
Definition dists_from (i : Z) (a : Mesh.node) (pts : list (Z * Mesh.node)) : list (Z * Q) :=
  flat_map (fun '(j, b) => if (i =? j)%Z then [] else [(j, dist2 a b)]) pts.

(** The node at index [j] is at most as far from [a] as the one at index
    [m]. *)
Definition nearer (ns : list Mesh.node) (a : Mesh.node) (j m : Z) : Prop :=
  forall b b', JS.item ns j = Some b -> JS.item ns m = Some b' ->
  (dist2 a b <= dist2 a b')%Q.

(** [nb] holds the indices of the [k] nodes of [ns] nearest to [a], the
    node at index [i], itself left out: distinct indices of the array,
    [k] of them or all the others when there are fewer, nearest first, and
    no node outside the list is nearer than one inside. *)
Definition k_nearest (k : Z) (ns : list Mesh.node) (i : Z) (a : Mesh.node)
    (nb : list Z) : Prop :=
  List.NoDup nb /\ ~ In i nb /\ Forall (Mesh.in_range_of ns) nb /\
  length nb = Nat.min (Z.to_nat k) (length ns - 1) /\
  StronglySorted (nearer ns a) nb /\
  (forall j m, In j nb -> ~ In m nb -> m <> i -> nearer ns a j m).

(** Three nodes on a line. *)
Definition node_at (px py : Q) : Mesh.node :=
  {| Mesh.x := px; Mesh.y := py; Mesh.z := 100%Q; Mesh.vx := 0%Q; Mesh.vy := 0%Q;
     Mesh.energy := 0.5%Q; Mesh.offset := 0%Q; Mesh.layer := 0; Mesh.pathOffset := 0%Q;
     Mesh.lastUpdate := 0%Q; Mesh.neighbors := None |}.

Definition three_nodes : Mesh.state :=
  Mesh.set_nodes [node_at 0 0; node_at 3 0; node_at 1 0]%Q drifting.

(** ** Vocabulary of the wave variant *)

(** The ranges [initWaves] draws the parameters of wave [i] from. *)
Definition fresh_wave {M : JS.Math} (i : Z) (wv : Wave.wave) : Prop :=
  (0 <= Wave.w_phase wv /\ Wave.w_phase wv < 2 * JS.Math_PI)%Q /\
  (0.072 <= Wave.w_speed wv /\ Wave.w_speed wv < 0.18)%Q /\
  (23.4 <= Wave.w_amp wv /\ Wave.w_amp wv < 54)%Q /\
  (Wave.w_offsetY wv == (inject_Z i + 0.5) / 10 /\
   0 < Wave.w_offsetY wv /\ Wave.w_offsetY wv < 1)%Q /\
  (0.77 <= Wave.w_thickness wv /\ Wave.w_thickness wv < 1.76)%Q /\
  (0.002 <= Wave.w_wobble wv /\ Wave.w_wobble wv < 0.008)%Q.

Definition is_lineTo (o : Canvas.op) : Prop :=
  match o with
  | Canvas.lineTo _ _ => True
  | _ => False
  end.

(** A path point inside the rectangle [x0, x1] x [y0, y1]. *)
Definition point_within (x0 x1 y0 y1 : Q) (o : Canvas.op) : Prop :=
  match o with
  | Canvas.moveTo x y | Canvas.lineTo x y => (x0 <= x /\ x <= x1) /\ (y0 <= y /\ y <= y1)
  | _ => False
  end%Q.

(** The frames the canvas was cleared for. *)
Definition is_clearRect (o : Canvas.op) : bool :=
  match o with
  | Canvas.clearRect _ _ _ _ => true
  | _ => false
  end.

Definition cleared (cv : Canvas.canvas) : nat :=
  length (List.filter is_clearRect (Canvas.log cv)).

(** The animation-frame callback run at the times [ts]. *)
Definition wave_frames {M : JS.Math} (ts : list Q) (s : Wave.state) : Wave.state :=
  fold_left (fun s t => Wave.drawFrame t s) ts s.

Definition example_wave : Wave.wave :=
  {| Wave.w_phase := 1%Q; Wave.w_speed := 0.1%Q; Wave.w_amp := 36%Q;
     Wave.w_offsetY := 0.25%Q; Wave.w_thickness := 1%Q; Wave.w_wobble := 0.004%Q |}.

Definition wave_page : Wave.state :=
  Wave.start (M := JS.ref_Math) (Wave.initial desktop).

(** * Properties *)

(** ** Loops *)

Lemma range_length lo n : length (range lo n) = n.
Proof.
  revert lo. induction n as [|n IH]; intros lo; simpl; [reflexivity|].
  now rewrite IH.
Qed.

Lemma in_range lo n i : In i (range lo n) <-> lo <= i < lo + Z.of_nat n.
Proof.
  revert lo. induction n as [|n IH]; intros lo.
  - simpl. lia.
  - cbn [range In]. rewrite IH. lia.
Qed.

(** A check that holds on every pair of the first sixteen indices holds
    for any two of them. *)
Lemma forall_pairs_16 (P : Z -> Z -> bool) :
  forallb (fun i => forallb (P i) (range 0 16)) (range 0 16) = true ->
  forall i j, 0 <= i < 16 -> 0 <= j < 16 -> P i j = true.
Proof.
  intros H i j Hi Hj.
  rewrite forallb_forall in H.
  assert (Hin : In i (range 0 16)) by (apply in_range; simpl; lia).
  specialize (H i Hin). rewrite forallb_forall in H.
  apply H. apply in_range; simpl; lia.
Qed.

(** ** slider.js *)

Section SliderFacts.
Import Slider.

Lemma rem_wrap (n a : Z) : 0 < n -> 0 <= a < n -> Z.rem (a + n) n = a.
Proof.
  intros Hn Ha.
  rewrite Z.rem_mod_nonneg by lia.
  replace (a + n) with (a + 1 * n) by ring.
  rewrite Z.mod_add by lia.
  apply Z.mod_small; lia.
Qed.

(** C10.  For a non-empty image list of length n and an index k in
    [0, n), [showSlide(index - 1)] and [showSlide(index + 1)] leave an
    index in [0, n) again: the previous one is k-1, wrapping 0 to n-1, and
    the next one is k+1, wrapping n-1 to 0. *)
Theorem slider_index_in_range (pg : page) (k : Z) :
  images pg <> [] ->
  index pg = Int k ->
  0 <= k < Z.of_nat (length (images pg)) ->
  let n := Z.of_nat (length (images pg)) in
  (exists k', index (prev pg) = Int k' /\ 0 <= k' < n /\
              k' = (if k =? 0 then n - 1 else k - 1)) /\
  (exists k', index (next pg) = Int k' /\ 0 <= k' < n /\
              k' = (if k =? n - 1 then 0 else k + 1)).
Proof.
  intros Hne Hidx Hk n.
  assert (Hn : 0 < n) by (subst n; destruct (images pg); [congruence | simpl; lia]).
  assert (Hnz : (n =? 0) = false) by (apply Z.eqb_neq; lia).
  unfold prev, next, showSlide. rewrite Hidx. cbn [add rem index].
  fold n. rewrite Hnz. split.
  - destruct (Z.eqb_spec k 0) as [->|Hk0].
    + exists (n - 1). repeat split; try lia.
      f_equal. replace (0 + -1 + n) with (n - 1) by ring.
      apply Z.rem_small; lia.
    + exists (k - 1). repeat split; try lia.
      f_equal. replace (k + -1 + n) with ((k - 1) + n) by ring.
      apply rem_wrap; lia.
  - destruct (Z.eqb_spec k (n - 1)) as [->|Hk1].
    + exists 0. repeat split; try lia.
      f_equal. replace (n - 1 + 1 + n) with (0 + 2 * n) by ring.
      rewrite Z.rem_mod_nonneg by lia.
      rewrite Z.mod_add by lia. apply Z.mod_small; lia.
    + exists (k + 1). repeat split; try lia.
      f_equal. apply rem_wrap; lia.
Qed.

End SliderFacts.

(** C10 on three slides showing the first: previous is the third, next
    the second. *)
Lemma slider_index_in_range_witness :
  (exists k', Slider.index (Slider.prev Slider.three_slides) = Slider.Int k' /\ 0 <= k' < 3 /\ k' = 2) /\
  (exists k', Slider.index (Slider.next Slider.three_slides) = Slider.Int k' /\ 0 <= k' < 3 /\ k' = 1).
Proof.
  apply (slider_index_in_range Slider.three_slides 0).
  - simpl. discriminate.
  - reflexivity.
  - simpl. lia.
Defined.

(** ** The tesseract *)

Section TesseractFacts.
Import Tesseract.

Lemma four_cases (k : Z) : 0 <= k < 4 -> k = 0 \/ k = 1 \/ k = 2 \/ k = 3.
Proof. lia. Qed.

Lemma coord4 (a0 a1 a2 a3 : Z) :
  coord [a0; a1; a2; a3] 0 = a0 /\ coord [a0; a1; a2; a3] 1 = a1 /\
  coord [a0; a1; a2; a3] 2 = a2 /\ coord [a0; a1; a2; a3] 3 = a3.
Proof. repeat split. Qed.

Lemma diff_count_unfold (a0 a1 a2 a3 b0 b1 b2 b3 : Z) :
  diff_count [a0; a1; a2; a3] [b0; b1; b2; b3] =
  (if a0 =? b0 then 0 else 1) + (if a1 =? b1 then 0 else 1)
  + (if a2 =? b2 then 0 else 1) + (if a3 =? b3 then 0 else 1).
Proof.
  change (diff_count [a0; a1; a2; a3] [b0; b1; b2; b3]) with
    (let f := fun (diff a b : Z) => if a =? b then diff else diff + 1 in
     f (f (f (f 0 a0 b0) a1 b1) a2 b2) a3 b3).
  cbv beta zeta.
  destruct (a0 =? b0), (a1 =? b1), (a2 =? b2), (a3 =? b3); reflexivity.
Qed.

(** The counting loop of the edge construction is 1 exactly on such
    pairs. *)
Lemma diff_count_one (a0 a1 a2 a3 b0 b1 b2 b3 : Z) :
  diff_count [a0; a1; a2; a3] [b0; b1; b2; b3] = 1 <->
  differ_in_one [a0; a1; a2; a3] [b0; b1; b2; b3].
Proof.
  rewrite diff_count_unfold. unfold differ_in_one.
  destruct (coord4 a0 a1 a2 a3) as (A0 & A1 & A2 & A3).
  destruct (coord4 b0 b1 b2 b3) as (B0 & B1 & B2 & B3).
  split.
  - intros H.
    destruct (Z.eqb_spec a0 b0) as [E0|E0], (Z.eqb_spec a1 b1) as [E1|E1],
             (Z.eqb_spec a2 b2) as [E2|E2], (Z.eqb_spec a3 b3) as [E3|E3];
      try lia;
      [exists 3 | exists 2 | exists 1 | exists 0];
      (split; [lia|]); intros k' Hk';
      destruct (four_cases k' Hk') as [-> | [-> | [-> | ->]]];
      rewrite ?A0, ?A1, ?A2, ?A3, ?B0, ?B1, ?B2, ?B3;
      intuition (try congruence; try lia).
  - intros (k & Hk & H).
    pose proof (H 0 ltac:(lia)) as H0. pose proof (H 1 ltac:(lia)) as H1.
    pose proof (H 2 ltac:(lia)) as H2. pose proof (H 3 ltac:(lia)) as H3.
    rewrite A0, B0 in H0. rewrite A1, B1 in H1.
    rewrite A2, B2 in H2. rewrite A3, B3 in H3.
    destruct (Z.eqb_spec a0 b0) as [E0|E0], (Z.eqb_spec a1 b1) as [E1|E1],
             (Z.eqb_spec a2 b2) as [E2|E2], (Z.eqb_spec a3 b3) as [E3|E3];
      destruct (four_cases k Hk) as [-> | [-> | [-> | ->]]];
      try reflexivity; exfalso; intuition (try congruence; try lia).
Qed.

Lemma verts4_eq : verts4 = hypercube.
Proof. reflexivity. Qed.

Lemma vert_shape (i : Z) :
  0 <= i < 16 ->
  exists a b c d, vert verts4 i = [a; b; c; d].
Proof.
  intros Hi.
  assert (H : In i (range 0 16)) by (apply in_range; simpl; lia).
  cbn in H.
  repeat (destruct H as [<-|H]; [cbv; eauto|]). destruct H.
Qed.

Lemma existsb_pair (e : Z * Z) (l : list (Z * Z)) :
  existsb (pair_eqb e) l = true <-> In e l.
Proof.
  rewrite existsb_exists. split.
  - intros ((a, b) & Hin & Heq). destruct e as (i, j). unfold pair_eqb in Heq. cbn in Heq.
    apply andb_true_iff in Heq as [H1%Z.eqb_eq H2%Z.eqb_eq]. subst. exact Hin.
  - intros Hin. exists e. split; [exact Hin|]. destruct e as (i, j). unfold pair_eqb. cbn.
    now rewrite !Z.eqb_refl.
Qed.

(** The edge list, read index by index. *)
Lemma edges_spec (i j : Z) :
  In (i, j) edges <->
  0 <= i /\ i < j /\ j < 16 /\ diff_count (vert verts4 i) (vert verts4 j) = 1.
Proof.
  split.
  - intros H. vm_compute in H.
    repeat (destruct H as [H|H]; [inversion H; subst; vm_compute; intuition congruence|]).
    destruct H.
  - intros (Hi & Hij & Hj & Hd).
    apply existsb_pair.
    pose proof (forall_pairs_16
      (fun i j => implb ((i <? j) && (diff_count (vert verts4 i) (vert verts4 j) =? 1))
                        (existsb (pair_eqb (i, j)) edges))) as Hall.
    cbv beta in Hall.
    specialize (Hall ltac:(vm_compute; reflexivity) i j ltac:(lia) ltac:(lia)).
    apply Z.eqb_eq in Hd. apply Z.ltb_lt in Hij.
    rewrite Hd, Hij in Hall. exact Hall.
Qed.

(** C6.  The vertex loop builds exactly the sixteen points of
    {-1,+1}^4, each once; the edge list holds exactly the index pairs
    i < j of vertices that differ in exactly one coordinate, each once,
    32 in all; the header tesseract of ai-bg.js is the same wireframe. *)
Theorem tesseract_is_hypercube :
  (length verts4 = 16%nat /\ NoDup verts4 /\
   forall v, In v verts4 <->
     exists a b c d, v = [a; b; c; d] /\ is_sign a /\ is_sign b /\ is_sign c /\ is_sign d) /\
  (forall i j, In (i, j) edges <->
     0 <= i /\ i < j /\ j < 16 /\ differ_in_one (vert verts4 i) (vert verts4 j)) /\
  (length edges = 32%nat /\ NoDup edges) /\
  (headerVerts4 = verts4 /\ headerEdges = edges).
Proof.
  split; [|split; [|split]].
  - split; [reflexivity|]. split.
    + compute_done.
    + intros v. split.
      * intros H. rewrite verts4_eq in H. cbv in H.
        repeat (destruct H as [<-|H];
                [do 4 eexists; split; [reflexivity|]; unfold is_sign; intuition lia|]).
        destruct H.
      * intros (a & b & c & d & -> & [-> | ->] & [-> | ->] & [-> | ->] & [-> | ->]);
          rewrite verts4_eq; cbv; intuition congruence.
  - intros i j. rewrite edges_spec. split.
    + intros (Hi & Hij & Hj & Hd). repeat split; try assumption.
      destruct (vert_shape i ltac:(lia)) as (a0 & a1 & a2 & a3 & Ei).
      destruct (vert_shape j ltac:(lia)) as (b0 & b1 & b2 & b3 & Ej).
      rewrite Ei, Ej in *. now apply diff_count_one.
    + intros (Hi & Hij & Hj & Hd). repeat split; try assumption.
      destruct (vert_shape i ltac:(lia)) as (a0 & a1 & a2 & a3 & Ei).
      destruct (vert_shape j ltac:(lia)) as (b0 & b1 & b2 & b3 & Ej).
      rewrite Ei, Ej in *. now apply diff_count_one.
  - split; [reflexivity|]. compute_done.
  - split; reflexivity.
Qed.

End TesseractFacts.

Section ProjectionFacts.
Import Tesseract.
Local Open Scope R_scope.

Lemma rot4_01 (a b c d t : R) :
  rot4 [a; b; c; d] 0 1 t = [a * cos t - b * sin t; a * sin t + b * cos t; c; d].
Proof. reflexivity. Qed.

Lemma rot4_23 (a b c d t : R) :
  rot4 [a; b; c; d] 2 3 t = [a; b; c * cos t - d * sin t; c * sin t + d * cos t].
Proof. reflexivity. Qed.

Lemma rot4_02 (a b c d t : R) :
  rot4 [a; b; c; d] 0 2 t = [a * cos t - c * sin t; b; a * sin t + c * cos t; d].
Proof. reflexivity. Qed.

Lemma norm2_4 (a b c d : R) : norm2 [a; b; c; d] = a * a + b * b + c * c + d * d.
Proof. reflexivity. Qed.

Lemma planar_rotation (u v t : R) :
  (u * cos t - v * sin t) * (u * cos t - v * sin t)
  + (u * sin t + v * cos t) * (u * sin t + v * cos t) = u * u + v * v.
Proof.
  pose proof (sin2_cos2 t) as H. unfold Rsqr in H.
  replace ((u * cos t - v * sin t) * (u * cos t - v * sin t)
           + (u * sin t + v * cos t) * (u * sin t + v * cos t))
    with ((u * u + v * v) * (sin t * sin t + cos t * cos t)) by ring.
  rewrite H. ring.
Qed.

(** Each planar rotation keeps the Euclidean norm. *)
Lemma rot4_norm2 (a b c d t : R) :
  norm2 (rot4 [a; b; c; d] 0 1 t) = norm2 [a; b; c; d] /\
  norm2 (rot4 [a; b; c; d] 2 3 t) = norm2 [a; b; c; d] /\
  norm2 (rot4 [a; b; c; d] 0 2 t) = norm2 [a; b; c; d].
Proof.
  rewrite rot4_01, rot4_23, rot4_02, !norm2_4.
  pose proof (planar_rotation a b t). pose proof (planar_rotation c d t).
  pose proof (planar_rotation a c t).
  repeat split; lra.
Qed.

Lemma rot4_shape (a b c d t : R) (i j : nat) :
  (i, j) = (0, 1)%nat \/ (i, j) = (2, 3)%nat \/ (i, j) = (0, 2)%nat ->
  exists a' b' c' d', rot4 [a; b; c; d] i j t = [a'; b'; c'; d'] /\
    a' * a' + b' * b' + c' * c' + d' * d' = a * a + b * b + c * c + d * d.
Proof.
  destruct (rot4_norm2 a b c d t) as (N1 & N2 & N3).
  intros [E|[E|E]]; inversion E; subst; do 4 eexists.
  - rewrite rot4_01 in *. split; [reflexivity|]. rewrite !norm2_4 in N1. exact N1.
  - rewrite rot4_23 in *. split; [reflexivity|]. rewrite !norm2_4 in N2. exact N2.
  - rewrite rot4_02 in *. split; [reflexivity|]. rewrite !norm2_4 in N3. exact N3.
Qed.

(** Three rotations in a row, whatever the angles. *)
Lemma three_rotations (a b c d t1 t2 t3 : R) :
  exists a' b' c' d',
    rot4 (rot4 (rot4 [a; b; c; d] 0 1 t1) 2 3 t2) 0 2 t3 = [a'; b'; c'; d'] /\
    a' * a' + b' * b' + c' * c' + d' * d' = a * a + b * b + c * c + d * d.
Proof.
  destruct (rot4_shape a b c d t1 0 1 ltac:(auto)) as (a1 & b1 & c1 & d1 & -> & E1).
  destruct (rot4_shape a1 b1 c1 d1 t2 2 3 ltac:(auto)) as (a2 & b2 & c2 & d2 & -> & E2).
  destruct (rot4_shape a2 b2 c2 d2 t3 0 2 ltac:(auto)) as (a3 & b3 & c3 & d3 & -> & E3).
  exists a3, b3, c3, d3. split; [reflexivity|]. lra.
Qed.

Lemma vertex_norm (v : list Z) :
  In v verts4 ->
  exists a b c d : R, to_reals v = [a; b; c; d] /\ a * a + b * b + c * c + d * d = 4.
Proof.
  intros H. rewrite verts4_eq in H. cbv in H.
  repeat (destruct H as [<-|H]; [do 4 eexists; split; [reflexivity|]; lra|]).
  destruct H.
Qed.

(** C9.  For every vertex of the tesseract and every angle, the point
    that [project4To2] (and [project4To2_small]) has rotated still has
    Euclidean norm 2, so its fourth coordinate is at most 2 in absolute
    value and the perspective divisor is at least 1.2: the division is
    never by zero. *)
Theorem projection_divisor_positive (v : list Z) (theta : R) :
  In v verts4 ->
  (norm2 (rotate (to_reals v) theta) = 4 /\
   Rabs (at_ (rotate (to_reals v) theta) 3) <= 2 /\
   1.2 <= divisor (rotate (to_reals v) theta)) /\
  (norm2 (rotate_small (to_reals v) theta) = 4 /\
   Rabs (at_ (rotate_small (to_reals v) theta) 3) <= 2 /\
   1.2 <= divisor_small (rotate_small (to_reals v) theta)).
Proof.
  intros Hv.
  destruct (vertex_norm v Hv) as (a & b & c & d & -> & Hn).
  unfold rotate, rotate_small. cbv zeta.
  destruct (three_rotations a b c d (theta * 0.7) (theta * 0.5) (theta * 0.35))
    as (a1 & b1 & c1 & d1 & -> & E1).
  destruct (three_rotations a b c d (theta * 0.9) (theta * 0.6) (theta * 0.35))
    as (a2 & b2 & c2 & d2 & -> & E2).
  unfold divisor, divisor_small. rewrite !norm2_4.
  change (at_ [a1; b1; c1; d1] 3) with d1.
  change (at_ [a2; b2; c2; d2] 3) with d2.
  cbv zeta.
  assert (H1 : -2 <= d1 <= 2) by nra.
  assert (H2 : -2 <= d2 <= 2) by nra.
  repeat split; try lra; apply Rabs_le; lra.
Qed.

(** C9 at the vertex (-1,-1,-1,-1) and angle 0. *)
Lemma projection_divisor_positive_witness :
  (norm2 (rotate (to_reals [-1; -1; -1; -1]%Z) 0) = 4 /\
   Rabs (at_ (rotate (to_reals [-1; -1; -1; -1]%Z) 0) 3) <= 2 /\
   1.2 <= divisor (rotate (to_reals [-1; -1; -1; -1]%Z) 0)) /\
  (norm2 (rotate_small (to_reals [-1; -1; -1; -1]%Z) 0) = 4 /\
   Rabs (at_ (rotate_small (to_reals [-1; -1; -1; -1]%Z) 0) 3) <= 2 /\
   1.2 <= divisor_small (rotate_small (to_reals [-1; -1; -1; -1]%Z) 0)).
Proof.
  apply (projection_divisor_positive [-1; -1; -1; -1]%Z 0).
  left. reflexivity.
Defined.

End ProjectionFacts.

(** ** The mailer *)

Section MailerFacts.
Import Mailer.
Local Open Scope string_scope.

Variable lib : library.

Lemma andThen_sat (N N' E : run -> Prop) (a : flow) (k : run -> flow) :
  flow_sat N E a ->
  (forall r, N r -> flow_sat N' E (k r)) ->
  flow_sat N' E (a >>> k).
Proof. destruct a as [r|r]; cbn; auto. Qed.

Lemma failure_text (e : string) : "Message sent successfully!" <> "Failed to send: " ++ e.
Proof. cbn. discriminate. Qed.

(** The script on a POST that carries the three fields, by the results
    of the library: what it echoes, the object it leaves and the calls it
    has made. *)
Lemma sendmail_cases (post : gmap string string) (name email message : string) :
  post !! "name" = Some name ->
  post !! "email" = Some email ->
  post !! "message" = Some message ->
  let r := sendmail lib post in
  undefined_keys r = [] /\
  ((exists m, send_returns lib name email message m /\ mail r = m /\
      output r = "Message sent successfully!" /\
      send_returned r /\ ~ library_threw r) \/
   (exists m, library_throws lib name email message m /\ mail r = m /\
      output r = "Failed to send: " ++ ErrorInfo m /\
      library_threw r /\ ~ send_returned r)).
Proof.
  intros Hn He Hg r.
  assert (Hr : r = sendmail lib post) by reflexivity. clearbody r.
  unfold send_returns, library_throws, send_returned, library_threw.
  unfold sendmail, try_block in Hr. unfold call at 1 in Hr.
  cbv beta iota zeta delta [mail output calls undefined_keys] in Hr.
  destruct (lib isSMTP (new_PHPMailer true)) as [m1|m1] eqn:E1;
    cbv beta iota zeta delta [andThen assign mail output calls undefined_keys app echo] in Hr.
  2:{ subst r. split; [reflexivity|]. right. exists m1.
      split; [now left|]. split; [reflexivity|]. split; [reflexivity|]. split.
      - exists isSMTP. now left.
      - intros [[=]|[]]. }
  unfold POST in Hr. rewrite Hn, He, Hg in Hr. unfold call in Hr.
  cbv beta iota zeta delta [mail output calls undefined_keys] in Hr.
  fold (configured m1) in Hr.
  destruct (lib (setFrom email name) (configured m1)) as [m2|m2] eqn:E2;
    cbv beta iota zeta delta [andThen assign mail output calls undefined_keys app echo] in Hr.
  2:{ subst r. split; [reflexivity|]. right. exists m2.
      split; [right; exists m1; split; [reflexivity | left; exact E2]|].
      split; [reflexivity|]. split; [reflexivity|]. split.
      - exists (setFrom email name). right. now left.
      - intros [[=]|[[=]|[]]]. }
  destruct (lib (addAddress "daskoustav88@gmail.com") m2) as [m3|m3] eqn:E3;
    cbv beta iota zeta delta [andThen assign mail output calls undefined_keys app echo] in Hr.
  2:{ subst r. split; [reflexivity|]. right. exists m3.
      split; [right; exists m1; split; [reflexivity|right; exists m2;
              split; [exact E2 | left; exact E3]]|].
      split; [reflexivity|]. split; [reflexivity|]. split.
      - exists (addAddress "daskoustav88@gmail.com"). right. right. now left.
      - intros [[=]|[[=]|[[=]|[]]]]. }
  fold (composed name email message m3) in Hr.
  destruct (lib send (composed name email message m3)) as [m4|m4] eqn:E4;
    cbv beta iota zeta delta [andThen assign mail output calls undefined_keys app echo] in Hr.
  - subst r. split; [reflexivity|]. left. exists m4.
    split; [exists m1, m2, m3; repeat split; assumption|].
    split; [reflexivity|]. split; [reflexivity|]. split.
    + right. right. right. now left.
    + intros (f & [[=]|[[=]|[[=]|[[=]|[]]]]]).
  - subst r. split; [reflexivity|]. right. exists m4.
    split; [right; exists m1; split; [reflexivity|right; exists m2;
            split; [exact E2|right; exists m3; split; [exact E3 | exact E4]]]|].
    split; [reflexivity|]. split; [reflexivity|]. split.
    + exists send. right. right. right. now left.
    + intros [[=]|[[=]|[[=]|[[=]|[]]]]].
Qed.

(** The library being a function of the call and the object, it cannot
    both let [send()] return and throw. *)
Lemma returns_or_throws (name email message : string) (m m' : PHPMailer) :
  send_returns lib name email message m ->
  library_throws lib name email message m' -> False.
Proof.
  intros (m1 & m2 & m3 & E1 & E2 & E3 & E4) H.
  destruct H as [H|(n1 & F1 & H)]; [congruence|].
  assert (n1 = m1) by congruence. subst n1.
  destruct H as [H|(n2 & F2 & H)]; [congruence|].
  assert (n2 = m2) by congruence. subst n2.
  destruct H as [H|(n3 & F3 & H)]; [congruence|].
  assert (n3 = m3) by congruence. subst n3. congruence.
Qed.

(** C3.  For a POST that carries name, email and message, the script
    echoes exactly one of two texts, decided by the library alone:
    'Message sent successfully!' exactly when the library's [send()]
    returns (it is called once [isSMTP], [setFrom] with the posted email
    and name and [addAddress] have returned, on the object the script has
    configured and composed), and 'Failed to send: ' followed by the error
    info of the object as the throwing call left it exactly when one of
    the library's calls throws its exception.  One of the two happens and
    never both; the script reads no missing field on the way, and the
    record of the calls made agrees. *)
Theorem sendmail_outcome (post : gmap string string) (name email message : string) :
  post !! "name" = Some name ->
  post !! "email" = Some email ->
  post !! "message" = Some message ->
  let r := sendmail lib post in
  undefined_keys r = [] /\
  ((exists m, send_returns lib name email message m /\ mail r = m /\
      output r = "Message sent successfully!") \/
   (exists m, library_throws lib name email message m /\ mail r = m /\
      output r = "Failed to send: " ++ ErrorInfo m)) /\
  (output r = "Message sent successfully!"
   <-> exists m, send_returns lib name email message m) /\
  (output r = "Failed to send: " ++ ErrorInfo (mail r)
   <-> exists m, library_throws lib name email message m) /\
  ((exists m, send_returns lib name email message m)
   <-> ~ exists m, library_throws lib name email message m) /\
  (send_returned r <-> exists m, send_returns lib name email message m) /\
  (library_threw r <-> exists m, library_throws lib name email message m).
Proof.
  intros Hn He Hg r.
  destruct (sendmail_cases post name email message Hn He Hg) as [Hu H].
  fold r in Hu, H. split; [exact Hu|].
  destruct H as [(m & Hs & Hm & Ho & Hl & Hnl)|(m & Ht & Hm & Ho & Hl & Hnl)].
  - assert (Hno : ~ exists m', library_throws lib name email message m').
    { intros (m' & H'). exact (returns_or_throws _ _ _ _ _ Hs H'). }
    split; [left; exists m; auto|].
    split; [split; [intros _; now exists m | intros _; exact Ho]|].
    split; [split; [intros H'; rewrite Ho in H'; now apply failure_text in H'
                   | intros H'; now destruct (Hno H')]|].
    split; [split; [intros _; exact Hno | intros _; now exists m]|].
    split; [split; [intros _; now exists m | intros _; exact Hl]|].
    split; [intros H'; now destruct (Hnl H') | intros H'; now destruct (Hno H')].
  - assert (Hno : ~ exists m', send_returns lib name email message m').
    { intros (m' & H'). exact (returns_or_throws _ _ _ _ _ H' Ht). }
    split; [right; exists m; auto|].
    split; [split; [intros H'; rewrite Ho in H'; symmetry in H';
                    now apply failure_text in H'
                   | intros H'; now destruct (Hno H')]|].
    split; [split; [intros _; now exists m | intros _; now rewrite Hm]|].
    split; [split; [intros H'; now destruct (Hno H')
                   | intros H'; exfalso; apply H'; now exists m]|].
    split; [split; [intros H'; now destruct (Hnl H') | intros H'; now destruct (Hno H')]|].
    split; [intros _; now exists m | intros _; exact Hl].
Qed.

End MailerFacts.

(** C3 on a complete form and a library that delivers. *)
Lemma sendmail_outcome_witness :
  let lib := Mailer.strict_library in
  let r := Mailer.sendmail lib Mailer.example_post in
  let name := "Ada"%string in
  let email := "ada@example.org"%string in
  let message := "Hello"%string in
  Mailer.undefined_keys r = [] /\
  ((exists m, Mailer.send_returns lib name email message m /\ Mailer.mail r = m /\
      Mailer.output r = "Message sent successfully!"%string) \/
   (exists m, Mailer.library_throws lib name email message m /\ Mailer.mail r = m /\
      Mailer.output r = ("Failed to send: " ++ Mailer.ErrorInfo m)%string)) /\
  (Mailer.output r = "Message sent successfully!"%string
   <-> exists m, Mailer.send_returns lib name email message m) /\
  (Mailer.output r = ("Failed to send: " ++ Mailer.ErrorInfo (Mailer.mail r))%string
   <-> exists m, Mailer.library_throws lib name email message m) /\
  ((exists m, Mailer.send_returns lib name email message m)
   <-> ~ exists m, Mailer.library_throws lib name email message m) /\
  (Mailer.send_returned r <-> exists m, Mailer.send_returns lib name email message m) /\
  (Mailer.library_threw r <-> exists m, Mailer.library_throws lib name email message m).
Proof.
  apply (sendmail_outcome Mailer.strict_library Mailer.example_post
           "Ada" "ada@example.org" "Hello"); vm_compute; reflexivity.
Defined.

(** ** Numbers *)

Section NumberFacts.
Import JS.
Local Open Scope Q_scope.

Lemma ltb_lt (a b : Q) : ltb a b = true <-> a < b.
Proof.
  unfold ltb. rewrite negb_true_iff. split.
  - intros H. apply Qnot_le_lt. intros Hle. apply Qle_bool_iff in Hle. congruence.
  - intros H. destruct (Qle_bool b a) eqn:E; [|reflexivity].
    apply Qle_bool_iff in E. exfalso. apply (Qlt_not_le _ _ H). exact E.
Qed.

Lemma ltb_ge (a b : Q) : ltb a b = false <-> b <= a.
Proof.
  unfold ltb. rewrite negb_false_iff. apply Qle_bool_iff.
Qed.

Lemma max_lower (a b : Q) : a <= max a b.
Proof.
  unfold max, leb. destruct (Qle_bool a b) eqn:E.
  - now apply Qle_bool_iff.
  - apply Qle_refl.
Qed.

(** [Math.floor(r * n)] for [r] in [0, 1) and a positive integer [n] is
    one of 0, ..., n-1. *)
Lemma floor_scaled (r : Q) (n : Z) :
  0 <= r -> r < 1 -> (0 < n)%Z -> (0 <= floor (r * inject_Z n) < n)%Z.
Proof.
  intros H0 H1 Hn. unfold floor.
  assert (Hpos : 0 < inject_Z n) by (unfold Qlt; simpl; lia).
  split.
  - change 0%Z with (Qfloor 0). apply Qfloor_resp_le. nra.
  - rewrite Zlt_Qlt. apply Qle_lt_trans with (r * inject_Z n).
    + apply Qfloor_le.
    + nra.
Qed.

Lemma ref_random_unit (i : nat) : 0 <= ref_random i /\ ref_random i < 1.
Proof.
  unfold ref_random.
  pose proof (Z.mod_pos_bound (Z.of_nat i * 7919 + 4001) 10007 ltac:(lia)) as [Hlo Hhi].
  set (k := ((Z.of_nat i * 7919 + 4001) mod 10007)%Z) in *.
  rewrite Qred_correct.
  assert (E : inject_Z k / 10007 == k # 10007).
  { unfold Qdiv, Qmult, Qinv, inject_Z, Qeq. simpl. lia. }
  rewrite E. unfold Qle, Qlt. simpl. lia.
Qed.

End NumberFacts.

(** ** Resizing *)

Section ResizeFacts.
Import JS.
Local Open Scope Q_scope.

Lemma wave_resize_dpr_aware (s : Wave.state) :
  let s' := Wave.resize s in
  dpr_aware (Wave.win s) (Wave.w s') (Wave.h s') (Wave.dpr s') (Wave.canvas s').
Proof.
  cbv zeta. unfold dpr_aware, Wave.resize.
  cbn [Wave.w Wave.h Wave.dpr Wave.canvas Wave.win Canvas.width Canvas.height Canvas.transform].
  repeat split; try reflexivity; apply max_lower.
Qed.

Lemma mesh_resize_dpr_aware_backing (s : Mesh.state) :
  let s' := Mesh.resize s in
  dpr_aware_backing (Mesh.win s) (Mesh.width s') (Mesh.height s') (Mesh.dpr s') (Mesh.canvas s').
Proof.
  cbv zeta. unfold dpr_aware_backing. repeat split.
Qed.

(** C7, on the mesh variant as the claim states it: with a window
    collapsed to nothing the CSS dimensions are 0, not at least 1, and the
    backing store is 1 by 1, not [floor(0 * dpr)]. *)
Lemma mesh_resize_not_dpr_aware :
  let s := Mesh.resize (Mesh.initial collapsed) in
  ~ dpr_aware collapsed (Mesh.width s) (Mesh.height s) (Mesh.dpr s) (Mesh.canvas s).
Proof.
  cbv zeta. intros (_ & (H & _) & _). vm_compute in H. apply H. reflexivity.
Qed.

(** C7, amended.  After every call to [resize] the ratio is
    min(devicePixelRatio or 1, 2) and the transform is the pure scaling by
    it.  In the wave variant the CSS dimensions are at least one pixel and
    the backing store is floor(w*dpr) by floor(h*dpr).  In the mesh variant
    the CSS dimensions are the window's, unclamped, and the backing store
    is max(1, floor(width*dpr)) by max(1, floor(height*dpr)): at least one
    pixel, and the scaled size whenever that is at least one pixel. *)
Theorem resize_dpr_aware :
  (forall s : Wave.state,
     let s' := Wave.resize s in
     dpr_aware (Wave.win s) (Wave.w s') (Wave.h s') (Wave.dpr s') (Wave.canvas s')) /\
  (forall s : Mesh.state,
     let s' := Mesh.resize s in
     dpr_aware_backing (Mesh.win s) (Mesh.width s') (Mesh.height s') (Mesh.dpr s')
       (Mesh.canvas s') /\
     (1 <= Canvas.width (Mesh.canvas s') /\ 1 <= Canvas.height (Mesh.canvas s'))%Z /\
     ((1 <= floor (Mesh.width s' * Mesh.dpr s'))%Z ->
      Canvas.width (Mesh.canvas s') = floor (Mesh.width s' * Mesh.dpr s')) /\
     ((1 <= floor (Mesh.height s' * Mesh.dpr s'))%Z ->
      Canvas.height (Mesh.canvas s') = floor (Mesh.height s' * Mesh.dpr s'))).
Proof.
  split.
  - exact wave_resize_dpr_aware.
  - intros s s'. split; [apply mesh_resize_dpr_aware_backing|].
    subst s'. unfold Mesh.resize.
    cbn [Mesh.canvas Mesh.set_canvas Mesh.set_size Mesh.width Mesh.height Mesh.dpr
         Canvas.width Canvas.height].
    repeat split; lia.
Qed.

End ResizeFacts.

(** ** The nodes of the mesh *)

Section NodeFacts.
Import JS Mesh.
Local Open Scope Q_scope.
Context {M : Math}.
Variable c : config.

Hypothesis random_unit : forall i, 0 <= Math_random i /\ Math_random i < 1.
Hypothesis depth_pos : 0 < depth c.
Hypothesis layers_pos : (0 < layerCount c)%Z.

Lemma new_node_fresh (s : state) (k : nat) : fresh_node c (new_node c s k).
Proof.
  unfold fresh_node, new_node. cbn [z vx vy layer energy lastUpdate].
  destruct (random_unit (k + 2)) as [Hz0 Hz1].
  destruct (random_unit (k + 5)) as [Hl0 Hl1].
  repeat split; try reflexivity; try apply random_unit.
  - nra.
  - nra.
  - apply floor_scaled; assumption.
  - apply floor_scaled; assumption.
Qed.

Lemma buildNodes_nodes (s : state) :
  nodes (buildNodes c s) =
  map (fun i => new_node c s (draws (host s) + 7 * i)) (seq 0 (Z.to_nat (node_count c s))).
Proof. reflexivity. Qed.

Lemma buildNodes_fresh (s : state) : Forall (fresh_node c) (nodes (buildNodes c s)).
Proof.
  rewrite buildNodes_nodes. apply Forall_forall. intros n Hn.
  apply list_elem_of_In, in_map_iff in Hn. destruct Hn as (i & <- & _).
  apply new_node_fresh.
Qed.

Lemma node_count_min (s : state) : (80 <= node_count c s)%Z.
Proof. unfold node_count. lia. Qed.

Lemma indexed_length {A : Type} (l : list A) : length (indexed l) = length l.
Proof.
  unfold indexed. rewrite length_combine, range_length. lia.
Qed.

Lemma set_neighbors_fresh (v : option (list Z)) (n : node) :
  fresh_node c n -> fresh_node c (set_neighbors v n).
Proof. intros H. exact H. Qed.

(** [computeNeighbors] writes the [neighbors] field and nothing else. *)
Lemma computeNeighbors_nodes (s : state) :
  length (nodes (computeNeighbors c s)) = length (nodes s) /\
  (Forall (fresh_node c) (nodes s) -> Forall (fresh_node c) (nodes (computeNeighbors c s))).
Proof.
  unfold computeNeighbors. cbn [nodes set_nodes]. split.
  - now rewrite length_map, indexed_length.
  - intros H. rewrite Forall_forall in H. apply Forall_forall. intros n Hn.
    apply list_elem_of_In, in_map_iff in Hn. destruct Hn as ((i, a) & <- & Hin).
    apply set_neighbors_fresh, H.
    apply list_elem_of_In. unfold indexed in Hin. now apply in_combine_r in Hin.
Qed.

(** C8.  A resize event replaces the node array with records built
    afresh by [buildNodes] (the array it had plays no part), at least 80 of
    them, and every record has z in [0, depth), zero velocity, a layer
    index in [0, layerCount), an energy in [0, 1) and a zero update time;
    the listener attaches the neighbour lists and does not throw. *)
Theorem resize_rebuilds_nodes (w : window) (s : state) :
  let r := dispatch c (Resize w) s in
  threw r = false /\
  (forall old, nodes (state_of (dispatch c (Resize w) (set_nodes old s))) = nodes (state_of r)) /\
  length (nodes (state_of r)) = Z.to_nat (node_count c (resize (set_win w s))) /\
  (80 <= length (nodes (state_of r)))%nat /\
  Forall (fresh_node c) (nodes (state_of r)).
Proof.
  cbv zeta. unfold dispatch, modify. cbn [threw state_of].
  destruct (computeNeighbors_nodes (buildNodes c (resize (set_win w s)))) as [Hlen Hfresh].
  assert (Hn : length (nodes (buildNodes c (resize (set_win w s))))
               = Z.to_nat (node_count c (resize (set_win w s)))).
  { rewrite buildNodes_nodes, length_map, length_seq. reflexivity. }
  split; [reflexivity|]. split; [intros old; reflexivity|].
  split; [|split].
  - now rewrite Hlen.
  - rewrite Hlen, Hn. pose proof (node_count_min (resize (set_win w s))). lia.
  - apply Hfresh, buildNodes_fresh.
Qed.

End NodeFacts.

(** C8 with the script's configuration, when a collapsed window is
    resized to a desktop one. *)
Lemma resize_rebuilds_nodes_witness :
  let r := Mesh.dispatch (M := JS.ref_Math) Mesh.cfg (Mesh.Resize desktop) (Mesh.initial collapsed) in
  Mesh.threw r = false /\
  (forall old,
     Mesh.nodes (Mesh.state_of (Mesh.dispatch (M := JS.ref_Math) Mesh.cfg (Mesh.Resize desktop)
                                  (Mesh.set_nodes old (Mesh.initial collapsed))))
     = Mesh.nodes (Mesh.state_of r)) /\
  length (Mesh.nodes (Mesh.state_of r))
  = Z.to_nat (Mesh.node_count (M := JS.ref_Math) Mesh.cfg
                (Mesh.resize (Mesh.set_win desktop (Mesh.initial collapsed)))) /\
  (80 <= length (Mesh.nodes (Mesh.state_of r)))%nat /\
  Forall (Mesh.fresh_node Mesh.cfg) (Mesh.nodes (Mesh.state_of r)).
Proof.
  apply (resize_rebuilds_nodes (M := JS.ref_Math) Mesh.cfg ref_random_unit).
  - reflexivity.
  - reflexivity.
Defined.

(** ** Frames of the mesh *)

Section FrameFacts.
Import JS Mesh.
Local Open Scope Q_scope.
Context {M : Math}.
Variable c : config.

Lemma bind_get {A : Type} (k : state -> stmt A) (s : state) : bind get k s = k s s.
Proof. reflexivity. Qed.

Lemma bind_modify {A : Type} (f : state -> state) (k : unit -> stmt A) (s : state) :
  bind (modify f) k s = k tt (f s).
Proof. reflexivity. Qed.

Lemma appended_nil (s : state) : appended [] s = s.
Proof.
  destruct s as [wn cv hs wd ht d ns r ms vis tbl lf]. destruct cv.
  unfold appended, set_canvas, Canvas.draw. cbn. now rewrite app_nil_r.
Qed.

Lemma appended_app (ops1 ops2 : list Canvas.op) (s : state) :
  appended ops2 (appended ops1 s) = appended (ops1 ++ ops2) s.
Proof.
  unfold appended, set_canvas, Canvas.draw. cbn. now rewrite app_assoc.
Qed.

Lemma drawing_ret {A : Type} (a : A) : drawing (ret a).
Proof. intros s. exists []. cbn. now rewrite appended_nil. Qed.

Lemma drawing_throw {A : Type} (e : error) : drawing (@throw A e).
Proof. intros s. exists []. cbn. now rewrite appended_nil. Qed.

Lemma drawing_get : drawing get.
Proof. intros s. exists []. cbn. now rewrite appended_nil. Qed.

Lemma drawing_ctx (ops : list Canvas.op) : drawing (ctx ops).
Proof. intros s. exists ops. reflexivity. Qed.

Lemma drawing_bind {A B : Type} (m : stmt A) (k : A -> stmt B) :
  drawing m -> (forall a, drawing (k a)) -> drawing (bind m k).
Proof.
  intros Hm Hk s. unfold bind. destruct (Hm s) as [ops1 E1].
  destruct (m s) as [a s1|e s1]; cbn in E1; subst s1.
  - destruct (Hk a (appended ops1 s)) as [ops2 E2].
    exists (ops1 ++ ops2). now rewrite E2, appended_app.
  - exists ops1. reflexivity.
Qed.

Lemma drawing_defined {A : Type} (v : option A) (reading : string) :
  drawing (defined v reading).
Proof. destruct v; [apply drawing_ret | apply drawing_throw]. Qed.

Lemma drawing_for_each {A : Type} (l : list A) (body : A -> stmt unit) :
  (forall a, drawing (body a)) -> drawing (for_each l body).
Proof.
  intros Hb. induction l as [|a l IH]; cbn [for_each].
  - apply drawing_ret.
  - apply drawing_bind; [apply Hb | intros _; exact IH].
Qed.

Ltac drawing_steps :=
  repeat first
    [ apply drawing_ret | apply drawing_throw | apply drawing_get | apply drawing_ctx
    | apply drawing_defined
    | apply drawing_for_each; intros ?
    | apply drawing_bind; [|intros ?]
    | match goal with
      | |- drawing (if ?b then _ else _) => destruct b
      | |- drawing (let '(_, _) := ?x in _) => destruct x
      | |- drawing (match ?x with (_, _) => _ end) => destruct x
      end
    | progress cbv zeta ].

Lemma drawing_mix (a b : option color) (t : Q) : drawing (mix a b t).
Proof. unfold mix. drawing_steps. Qed.

Lemma drawing_connect (pts : list point) (baseColor : color) (A : point) (idx : Z) :
  drawing (connect c pts baseColor A idx).
Proof. unfold connect. drawing_steps; try apply drawing_mix; drawing_steps. Qed.

Lemma drawing_drawLayer (pts : list point) (layerIdx : Z) :
  drawing (drawLayer c pts layerIdx).
Proof.
  unfold drawLayer. drawing_steps; try apply drawing_mix; drawing_steps;
    try apply drawing_connect.
Qed.

Lemma drawing_countVisible (ns : list node) (pt : point) (l : list Z) :
  drawing (countVisible ns pt l).
Proof. induction l as [|idx l IH]; cbn [countVisible]; drawing_steps. exact IH. Qed.

Lemma drawing_drawAccent (i : Z) (pt : point) : drawing (drawAccent c i pt).
Proof.
  unfold drawAccent. drawing_steps; try apply drawing_countVisible; drawing_steps;
    try apply drawing_mix; drawing_steps.
Qed.

(** What a call of [drawMesh] does to the page, thrown or not: the nodes
    are updated, and the context receives calls. *)
Lemma drawMesh_effect (now : Q) (s : state) :
  exists ops,
    state_of (drawMesh c now s)
    = appended ops (set_nodes (map (update c s now) (nodes s)) s).
Proof.
  unfold drawMesh. rewrite bind_get. cbv zeta. rewrite bind_modify.
  match goal with
  | |- exists ops, state_of (?m ?s1) = appended ops _ =>
      cut (drawing m); [intros Hd; apply (Hd s1)|]
  end.
  apply drawing_bind; [apply drawing_get | intros s']. cbv zeta.
  apply drawing_bind;
    [apply drawing_for_each; intros layerIdx; apply drawing_drawLayer | intros _].
  apply drawing_bind; [apply drawing_ctx | intros _].
  apply drawing_bind;
    [apply drawing_for_each; intros [i pt]; apply drawing_drawAccent | intros _].
  apply drawing_ctx.
Qed.

Lemma loop_hidden (now : Q) (s : state) :
  visible s = false -> loop c now s = requestAnimationFrame s.
Proof. intros H. unfold loop. rewrite bind_get, H. reflexivity. Qed.

Lemma loop_early (now : Q) (s : state) :
  now - lastFrameTime s < FRAME_INTERVAL -> loop c now s = requestAnimationFrame s.
Proof.
  intros H. apply ltb_lt in H. unfold loop. rewrite bind_get, H.
  destruct (visible s); reflexivity.
Qed.

Lemma after_clear (ops : list Canvas.op) (now : Q) (s : state) :
  let s2 := appended (clear_ops s) (set_lastFrameTime now s) in
  appended ops (set_nodes (map (update c s2 now) (nodes s2)) s2)
  = appended (clear_ops s ++ ops)
      (set_nodes (map (update c s now) (nodes s)) (set_lastFrameTime now s)).
Proof.
  cbv zeta. unfold appended, set_canvas, set_nodes, set_lastFrameTime, Canvas.draw.
  cbn [canvas nodes win host width height dpr raf mouse visible p lastFrameTime
       Canvas.width Canvas.height Canvas.style_width Canvas.style_height
       Canvas.transform Canvas.log].
  rewrite <- app_assoc. reflexivity.
Qed.

(** The frame body: [lastFrameTime] is set, [clear()] runs, [drawMesh]
    runs, and the next frame is requested unless [drawMesh] threw. *)
Lemma loop_frame (now : Q) (s : state) :
  visible s = true ->
  FRAME_INTERVAL <= now - lastFrameTime s ->
  exists ops,
    state_of (loop c now s)
    = (if threw (loop c now s) then (fun s' => s') else rescheduled)
        (appended (clear_ops s ++ ops)
           (set_nodes (map (update c s now) (nodes s)) (set_lastFrameTime now s))) /\
    threw (loop c now s)
    = threw (drawMesh c now (appended (clear_ops s) (set_lastFrameTime now s))).
Proof.
  intros Hv Ht. apply ltb_ge in Ht.
  set (s2 := appended (clear_ops s) (set_lastFrameTime now s)).
  assert (E : loop c now s = bind (drawMesh c now) (fun _ => requestAnimationFrame) s2).
  { unfold loop. rewrite bind_get, Hv, Ht. reflexivity. }
  rewrite E. clear E.
  destruct (drawMesh_effect now s2) as [ops E].
  exists ops. rewrite <- (after_clear ops now s). fold s2. rewrite <- E.
  unfold bind.
  destruct (drawMesh c now s2) as [[] s3|e s3]; split; reflexivity.
Qed.

(** *** When [drawMesh] completes *)

Lemma drawing_nodes {A : Type} (m : stmt A) (s : state) :
  drawing m -> nodes (state_of (m s)) = nodes s.
Proof. intros Hd. destruct (Hd s) as [ops ->]. reflexivity. Qed.

Lemma calm_ret {A : Type} (ns : list node) (a : A) : calm ns (ret a).
Proof. intros s _. reflexivity. Qed.

Lemma calm_ctx (ns : list node) (ops : list Canvas.op) : calm ns (ctx ops).
Proof. intros s _. reflexivity. Qed.

(** Sequencing, with what is known of the value passed on. *)
Lemma calm_bind {A B : Type} (ns : list node) (Q : A -> Prop)
      (m : stmt A) (k : A -> stmt B) :
  drawing m -> calm ns m ->
  (forall s a s', nodes s = ns -> m s = Ok a s' -> Q a) ->
  (forall a, Q a -> calm ns (k a)) ->
  calm ns (bind m k).
Proof.
  intros Hd Hm HQ Hk s Hs. unfold bind.
  pose proof (drawing_nodes m s Hd) as Hn. specialize (Hm s Hs).
  destruct (m s) as [a s'|e s'] eqn:E; cbn in Hm, Hn; [|discriminate].
  apply Hk; [apply (HQ s a s' Hs E) | congruence].
Qed.

Lemma calm_seq {B : Type} (ns : list node) (m : stmt unit) (k : stmt B) :
  drawing m -> calm ns m -> calm ns k -> calm ns (bind m (fun _ => k)).
Proof.
  intros Hd Hm Hk. apply (calm_bind ns (fun _ => True)); auto.
Qed.

Lemma calm_get {B : Type} (ns : list node) (k : state -> stmt B) :
  (forall s, nodes s = ns -> calm ns (k s)) -> calm ns (bind get k).
Proof.
  intros Hk. apply (calm_bind ns (fun a => nodes a = ns)).
  - apply drawing_get.
  - intros s _. reflexivity.
  - intros s a s' Hs [= <- _]. exact Hs.
  - exact Hk.
Qed.

Lemma calm_defined {A B : Type} (ns : list node) (v : A) (reading : string)
      (k : A -> stmt B) :
  calm ns (k v) -> calm ns (bind (defined (Some v) reading) k).
Proof.
  intros Hk. apply (calm_bind ns (fun a => a = v)).
  - apply drawing_defined.
  - intros s _. reflexivity.
  - intros s a s' _ [= <- _]. reflexivity.
  - intros a ->. exact Hk.
Qed.

Lemma calm_mix {B : Type} (ns : list node) (a b : color) (t : Q) (k : color -> stmt B) :
  (forall col, calm ns (k col)) -> calm ns (bind (mix (Some a) (Some b) t) k).
Proof.
  intros Hk. apply (calm_bind ns (fun _ => True)).
  - apply drawing_mix.
  - intros s _. destruct a as [[a0 a1] a2], b as [[b0 b1] b2]. reflexivity.
  - auto.
  - intros col _. apply Hk.
Qed.

Lemma calm_for_each {A : Type} (ns : list node) (l : list A) (body : A -> stmt unit) :
  (forall a, drawing (body a)) ->
  (forall a, In a l -> calm ns (body a)) ->
  calm ns (for_each l body).
Proof.
  intros Hd Hb. induction l as [|a l IH]; cbn [for_each].
  - apply calm_ret.
  - apply calm_seq; [apply Hd | apply Hb; now left |].
    apply IH. intros b Hin. apply Hb. now right.
Qed.

Lemma item_in_range {A : Type} (l : list A) (idx : Z) :
  in_range_of l idx -> exists a, item l idx = Some a.
Proof.
  intros [H0 H1]. unfold item.
  destruct (Z.ltb_spec idx 0) as [Hn|_]; [lia|].
  destruct (nth_error l (Z.to_nat idx)) as [a|] eqn:E; [eauto|].
  apply nth_error_None in E. lia.
Qed.

Lemma in_indexed {A : Type} (l : list A) (i : Z) (a : A) :
  In (i, a) (indexed l) -> in_range_of l i /\ item l i = Some a.
Proof.
  unfold indexed, in_range_of, item.
  assert (G : forall (lo : Z) (l : list A),
             In (i, a) (combine (range lo (length l)) l) ->
             (lo <= i < lo + Z.of_nat (length l))%Z /\
             nth_error l (Z.to_nat (i - lo)) = Some a).
  { clear l. intros lo l. revert lo. induction l as [|b l IH]; intros lo; cbn [length range combine].
    - intros [].
    - intros [[= <- <-]|Hin].
      + split; [lia|]. now rewrite Z.sub_diag.
      + destruct (IH (lo + 1)%Z Hin) as [Hr Hn]. split; [lia|].
        replace (Z.to_nat (i - lo)) with (S (Z.to_nat (i - (lo + 1)))) by lia.
        exact Hn. }
  intros Hin. destruct (G 0%Z l Hin) as [Hr Hn].
  split; [lia|]. destruct (Z.ltb_spec i 0); [lia|].
  now rewrite Z.sub_0_r in Hn.
Qed.

Section Completes.

Hypothesis palette : palette_named c.

Variable ns : list node.
Hypothesis ns_in_range : neighbors_in_range ns.

Variable pts : list point.
Hypothesis pts_length : length pts = length ns.

Lemma calm_connect (baseColor : color) (A : point) (idx : Z) :
  in_range_of ns idx -> calm ns (connect c pts baseColor A idx).
Proof.
  intros Hidx. unfold connect.
  destruct (item_in_range pts idx) as [B ->];
    [unfold in_range_of in *; rewrite pts_length; exact Hidx|].
  apply calm_defined.
  destruct (ltb 1 _); [apply calm_ret|]. cbv zeta.
  destruct (ltb _ 0.02); [apply calm_ret|].
  destruct palette as (_ & _ & [orange ->]).
  apply calm_mix. intros [[c0 c1] c2]. apply calm_ctx.
Qed.

Lemma neighbors_of_item (i : Z) (n : node) :
  item ns i = Some n -> Forall (in_range_of ns) (default [] (neighbors n)).
Proof.
  unfold item. destruct (i <? 0)%Z; [discriminate|]. intros Hn.
  apply nth_error_In in Hn. unfold neighbors_in_range in ns_in_range.
  rewrite Forall_forall in ns_in_range. apply ns_in_range. now apply list_elem_of_In.
Qed.

Lemma calm_drawLayer (layerIdx : Z) : calm ns (drawLayer c pts layerIdx).
Proof.
  unfold drawLayer. cbv zeta.
  destruct palette as ([blue ->] & [cyan ->] & _).
  apply calm_mix. intros baseColor.
  apply calm_seq; [apply drawing_ctx | apply calm_ctx |].
  apply calm_for_each.
  - intros [i A]. drawing_steps; try apply drawing_connect.
  - intros [i A] Hin. destruct (negb _); [apply calm_ret|].
    apply calm_get. intros s Hs. rewrite Hs.
    destruct (in_indexed pts i A Hin) as [Hr _].
    destruct (item_in_range ns i) as [nObj E];
      [unfold in_range_of in *; rewrite <- pts_length; exact Hr|].
    rewrite E. apply calm_defined.
    apply calm_for_each; [intros idx; apply drawing_connect|].
    intros idx Hidx. apply calm_connect.
    pose proof (neighbors_of_item i nObj E) as Hall.
    rewrite Forall_forall in Hall. apply Hall. now apply list_elem_of_In.
Qed.

Lemma calm_countVisible {B : Type} (pt : point) (l : list Z) (k : Z -> stmt B) :
  Forall (in_range_of ns) l ->
  (forall v, calm ns (k v)) ->
  calm ns (bind (countVisible ns pt l) k).
Proof.
  intros Hl Hk. apply (calm_bind ns (fun _ => True)).
  - apply drawing_countVisible.
  - clear Hk k. induction Hl as [|idx l Hidx Hl IH]; cbn [countVisible].
    + apply calm_ret.
    + destruct (item_in_range ns idx Hidx) as [n ->]. apply calm_defined.
      apply (calm_bind ns (fun _ => True));
        [apply drawing_countVisible | exact IH | auto | intros v _; apply calm_ret].
  - auto.
  - intros v _. apply Hk.
Qed.

Lemma calm_drawAccent (i : Z) (pt : point) :
  In (i, pt) (indexed pts) -> calm ns (drawAccent c i pt).
Proof.
  intros Hin. unfold drawAccent.
  apply calm_get. intros s Hs. rewrite Hs.
  destruct (in_indexed pts i pt Hin) as [Hr _].
  destruct (item_in_range ns i) as [nObj E];
    [unfold in_range_of in *; rewrite <- pts_length; exact Hr|].
  rewrite E. apply calm_defined.
  apply calm_countVisible; [exact (neighbors_of_item i nObj E)|].
  intros v. destruct (v <? 2)%Z; [apply calm_ret|]. cbv zeta.
  destruct (ltb _ 0.06); [apply calm_ret|].
  destruct palette as ([blue ->] & [cyan ->] & _).
  apply calm_mix. intros [[c0 c1] c2]. apply calm_ctx.
Qed.

End Completes.

Lemma update_neighbors (s : state) (now : Q) (n : node) :
  neighbors (update c s now n) = neighbors n.
Proof. unfold update. destruct (ltb 16 _); reflexivity. Qed.

Lemma update_in_range (s : state) (now : Q) :
  neighbors_in_range (nodes s) ->
  neighbors_in_range (map (update c s now) (nodes s)).
Proof.
  unfold neighbors_in_range, in_range_of. rewrite !Forall_forall.
  intros H n Hn. apply list_elem_of_In, in_map_iff in Hn. destruct Hn as (n0 & <- & Hn0).
  rewrite update_neighbors, length_map. apply H. now apply list_elem_of_In.
Qed.

(** With the three palette names in place and neighbour lists that index
    the node array (as [computeNeighbors] leaves them), [drawMesh] runs to
    its end. *)
Lemma drawMesh_completes (now : Q) (s : state) :
  palette_named c ->
  neighbors_in_range (nodes s) ->
  threw (drawMesh c now s) = false.
Proof.
  intros Hp Hr. unfold drawMesh. rewrite bind_get. cbv zeta. rewrite bind_modify.
  set (ns := map (update c s now) (nodes s)).
  set (s1 := set_nodes ns s).
  assert (Hns : neighbors_in_range ns) by (apply update_in_range; exact Hr).
  match goal with
  | |- threw (?m s1) = false => cut (calm ns m); [intros Hc; apply Hc; reflexivity|]
  end.
  apply calm_get. intros s' Hs'. cbv zeta. rewrite Hs'.
  match goal with
  | |- context [map ?f ns] => set (pts := map f ns)
  end.
  assert (Hlen : length pts = length ns) by (subst pts; apply length_map).
  apply calm_seq.
  - apply drawing_for_each. intros layerIdx. apply drawing_drawLayer.
  - apply calm_for_each; [intros layerIdx; apply drawing_drawLayer|].
    intros layerIdx _. now apply calm_drawLayer.
  - apply calm_seq; [apply drawing_ctx | apply calm_ctx |].
    apply calm_seq.
    + apply drawing_for_each. intros [i pt]. apply drawing_drawAccent.
    + apply calm_for_each; [intros [i pt]; apply drawing_drawAccent|].
      intros [i pt] Hin. now apply (calm_drawAccent Hp ns Hns pts Hlen).
    + apply calm_ctx.
Qed.

Lemma in_insert (u v : Z * Q) (l : list (Z * Q)) :
  In v (insert u l) -> v = u \/ In v l.
Proof.
  induction l as [|w l IH]; cbn [insert].
  - intros [<-|[]]. now left.
  - destruct (leb (snd u) (snd w)).
    + intros [<-|H]; [now left | now right].
    + intros [<-|H]; [right; now left|].
      destruct (IH H) as [->|H']; [now left | right; now right].
Qed.

Lemma in_sort (v : Z * Q) (l : list (Z * Q)) : In v (sort l) -> In v l.
Proof.
  unfold sort. induction l as [|u l IH]; cbn [fold_right].
  - auto.
  - intros H. destruct (in_insert _ _ _ H) as [->|H']; [now left | right; auto].
Qed.

Lemma in_firstn {A : Type} (a : A) (n : nat) (l : list A) : In a (firstn n l) -> In a l.
Proof.
  intros H. rewrite <- (firstn_skipn n l). apply in_or_app. now left.
Qed.

Lemma in_slice0 {A : Type} (a : A) (k : Z) (l : list A) : In a (slice0 l k) -> In a l.
Proof. unfold slice0. destruct (k <? 0)%Z; apply in_firstn. Qed.

(** [computeNeighbors] stores indices of the array only. *)
Lemma computeNeighbors_in_range (s : state) :
  neighbors_in_range (nodes (computeNeighbors c s)).
Proof.
  destruct (computeNeighbors_nodes c s) as [Hlen _].
  unfold neighbors_in_range, in_range_of. rewrite Hlen.
  unfold computeNeighbors. cbn [nodes set_nodes].
  apply Forall_forall. intros n Hn.
  apply list_elem_of_In, in_map_iff in Hn. destruct Hn as ((i, a) & <- & _).
  cbn [neighbors set_neighbors default]. apply Forall_forall. intros idx Hidx.
  apply list_elem_of_In, in_map_iff in Hidx. destruct Hidx as ((j, d) & <- & Hin).
  apply in_slice0, in_sort, in_flat_map in Hin. destruct Hin as ((j', b) & Hjb & Hin).
  destruct (i =? j')%Z; [destruct Hin|]. destruct Hin as [[= <- _]|[]].
  cbn [fst]. apply (in_indexed (nodes s) j' b Hjb).
Qed.

(** So, with the palette names in place, every frame on the page as a
    resize event leaves it runs [drawMesh] to its end. *)
Lemma drawMesh_completes_after_resize (now : Q) (w : window) (s : state) :
  palette_named c ->
  threw (drawMesh c now (state_of (dispatch c (Resize w) s))) = false.
Proof.
  intros Hp. apply drawMesh_completes; [exact Hp|].
  apply computeNeighbors_in_range.
Qed.

End FrameFacts.

(** ** The claims about the mesh and wave frames *)

Section MeshClaims.
Import JS Mesh.
Local Open Scope Q_scope.
Context {M : Math}.

(** With the configuration of the script the layer loop throws in its
    first round, at [mix(cfg.colors.blue, ...)]: the nodes have been
    updated, nothing has been drawn. *)
Lemma drawMesh_cfg (now : Q) (s : state) :
  drawMesh cfg now s
  = Throw (TypeError "0") (set_nodes (map (update cfg s now) (nodes s)) s).
Proof. reflexivity. Qed.

(** The first frame that is drawn is the last: the callback throws
    before it requests the next frame. *)
Lemma loop_cfg_stops (now : Q) (s : state) :
  visible s = true ->
  FRAME_INTERVAL <= now - lastFrameTime s ->
  threw (loop cfg now s) = true /\
  host (state_of (loop cfg now s)) = host s.
Proof.
  intros Hv Ht. destruct (loop_frame cfg now s Hv Ht) as (ops & E & Hthrew).
  rewrite drawMesh_cfg in Hthrew. cbn [threw] in Hthrew.
  rewrite Hthrew in E. split; [exact Hthrew|]. rewrite E. reflexivity.
Qed.

Lemma cfg_named_palette : palette_named cfg_named.
Proof. repeat split; eexists; reflexivity. Qed.

(** C1.  The claim fails on the script's own configuration: for every
    state and every time, [drawMesh] throws a TypeError while computing
    the colour of the first layer, after it has updated the nodes and
    before it has drawn anything; a frame that gets as far as [drawMesh]
    therefore throws and requests no further frame.  The palette names are
    all that is wrong: with a configuration that has them (such as the
    palette of the earlier revision), [drawMesh] completes on every page
    as a resize event leaves it. *)
Theorem drawMesh_throws_with_cfg (now : Q) (s : state) :
  drawMesh cfg now s
  = Throw (TypeError "0") (set_nodes (map (update cfg s now) (nodes s)) s) /\
  threw (drawMesh cfg now s) = true /\
  canvas (state_of (drawMesh cfg now s)) = canvas s /\
  (visible s = true -> FRAME_INTERVAL <= now - lastFrameTime s ->
   threw (loop cfg now s) = true /\ host (state_of (loop cfg now s)) = host s) /\
  (forall (c : config) (w : window),
     palette_named c ->
     threw (drawMesh c now (state_of (dispatch c (Resize w) s))) = false) /\
  palette_named cfg_named.
Proof.
  rewrite drawMesh_cfg.
  split; [reflexivity|]. split; [reflexivity|]. split; [reflexivity|].
  split; [apply loop_cfg_stops|]. split.
  - intros c w Hp. now apply drawMesh_completes_after_resize.
  - exact cfg_named_palette.
Qed.

Variable c : config.

Lemma Forall2_map_same {A : Type} (R : A -> A -> Prop) (f : A -> A) (l : list A) :
  (forall a, R a (f a)) -> Forall2 R l (map f l).
Proof. intros H. induction l; cbn; constructor; auto. Qed.

Lemma wrap_within_margin (wd ht : Q) (n : node) :
  0 <= wd -> 0 <= ht -> within_margin wd ht (wrap wd ht n).
Proof.
  intros Hw Hh. unfold within_margin, wrap. cbn [x y].
  destruct (ltb (x n) (- wd * 0.3)) eqn:E1;
  destruct (ltb (y n) (- ht * 0.3)) eqn:E3;
  match goal with
  | |- context [ltb (wd * 1.3) ?a] => destruct (ltb (wd * 1.3) a) eqn:E2
  end;
  match goal with
  | |- context [ltb (ht * 1.3) ?a] => destruct (ltb (ht * 1.3) a) eqn:E4
  end;
  rewrite ?ltb_lt, ?ltb_ge in *; repeat split; lra.
Qed.

Lemma update_within_margin (s : state) (now : Q) (n : node) :
  0 <= width s -> 0 <= height s ->
  16 < now - lastUpdate n ->
  within_margin (width s) (height s) (update c s now n).
Proof.
  intros Hw Hh Ht. apply ltb_lt in Ht. unfold update. rewrite Ht.
  exact (wrap_within_margin (width s) (height s) (flow c (p s) n) Hw Hh).
Qed.

(** C2, amended.  After the wraparound step every node that the frame
    updated lies on the canvas enlarged by 30% of its size on each side:
    -0.3 width <= x <= 1.3 width and -0.3 height <= y <= 1.3 height. *)
Theorem wrap_keeps_nodes_within_margin (now : Q) (s : state) :
  0 <= width s ->
  0 <= height s ->
  let s' := state_of (drawMesh c now s) in
  (width s' = width s /\ height s' = height s) /\
  Forall2 (fun n n' => 16 < now - lastUpdate n -> within_margin (width s') (height s') n')
          (nodes s) (nodes s').
Proof.
  intros Hw Hh s'. subst s'.
  destruct (drawMesh_effect c now s) as [ops ->].
  split; [split; reflexivity|].
  cbn [nodes appended set_canvas set_nodes width height].
  apply Forall2_map_same. intros n Hn. now apply update_within_margin.
Qed.

(** [requestAnimationFrame(loop)] touches the handle and the browser's
    list of callbacks, nothing else. *)
Lemma rescheduled_same (s : state) :
  canvas (rescheduled s) = canvas s /\ nodes (rescheduled s) = nodes s /\
  lastFrameTime (rescheduled s) = lastFrameTime s /\ visible (rescheduled s) = visible s /\
  (width (rescheduled s) = width s /\ height (rescheduled s) = height s /\
   dpr (rescheduled s) = dpr s) /\
  mouse (rescheduled s) = mouse s /\ p (rescheduled s) = p s /\ win (rescheduled s) = win s.
Proof. repeat split. Qed.

Lemma wave_rescheduled_same (s : Wave.state) :
  let s' := Wave.requestAnimationFrame s in
  Wave.canvas s' = Wave.canvas s /\ Wave.wave_list s' = Wave.wave_list s /\
  Wave.lastFrame s' = Wave.lastFrame s /\
  (Wave.w s' = Wave.w s /\ Wave.h s' = Wave.h s /\ Wave.dpr s' = Wave.dpr s) /\
  Wave.requested s' = S (Wave.requested s).
Proof. repeat split. Qed.


(** While the page is hidden, frames change nothing but the browser's
    bookkeeping, and one callback stays requested. *)
Lemma hidden_frames (ts : list Q) (s : state) :
  visible s = false ->
  pending (host s) <> [] ->
  let s' := run c (map AnimationFrame ts) s in
  canvas s' = canvas s /\ nodes s' = nodes s /\ lastFrameTime s' = lastFrameTime s /\
  visible s' = false /\ length (pending (host s')) = length (pending (host s)).
Proof.
  revert s. induction ts as [|t ts IH]; intros s Hv Hp; cbn [map run].
  - repeat split. exact Hv.
  - cbv zeta in IH.
    destruct (pending (host s)) as [|h rest] eqn:Eh; [congruence|].
    assert (E : dispatch c (AnimationFrame t) s
                = requestAnimationFrame
                    (set_host {| pending := rest; issued := issued (host s);
                                 draws := draws (host s) |} s)).
    { unfold dispatch, runFrame. rewrite bind_get, Eh, bind_modify.
      apply loop_hidden. exact Hv. }
    rewrite E. set (s1 := state_of (requestAnimationFrame _)).
    assert (Hv1 : visible s1 = false) by exact Hv.
    assert (Hp1 : pending (host s1) <> []).
    { subst s1. cbn. destruct rest; discriminate. }
    destruct (IH s1 Hv1 Hp1) as (Hc & Hn & Hl & Hvis & Hlen).
    rewrite Hc, Hn, Hl, Hvis, Hlen. repeat split.
    subst s1. cbn. rewrite length_app. cbn. lia.
Qed.

(** No listener but the one on visibilitychange writes the flag. *)
Lemma visible_kept (e : event) (s : state) :
  (forall b, e <> VisibilityChange b) ->
  visible (state_of (dispatch c e s)) = visible s.
Proof.
  intros He. destruct e as [w|cx cy| |[[cx cy]|]|b|now]; try reflexivity.
  - exfalso. now apply (He b).
  - unfold dispatch, runFrame. rewrite bind_get.
    destruct (pending (host s)) as [|h rest]; [reflexivity|].
    rewrite bind_modify.
    set (s1 := set_host _ s). change (visible s) with (visible s1).
    destruct (visible s1) eqn:Hv.
    + destruct (Qlt_le_dec (now - lastFrameTime s1) FRAME_INTERVAL) as [Hlt|Hge].
      * rewrite (loop_early c now s1 Hlt). exact Hv.
      * destruct (loop_frame c now s1 Hv Hge) as (ops & -> & _).
        destruct (threw (loop c now s1)); exact Hv.
    + rewrite (loop_hidden c now s1 Hv). exact Hv.
Qed.

End MeshClaims.

(** ** The claims on examples *)

(** C2, as the claim states it: a node at the top-left corner of a
    1280 by 720 canvas that moves left at one pixel a frame is, after the
    update and its wraparound tests, at x = -0.81: off the canvas, and
    inside the margin where nothing wraps it. *)
Lemma drifting_node_leaves_canvas :
  let s' := Mesh.state_of (Mesh.drawMesh (M := JS.ref_Math) Mesh.cfg 100 drifting) in
  ~ Forall (Mesh.within_canvas (Mesh.width s') (Mesh.height s')) (Mesh.nodes s').
Proof.
  cbv zeta. rewrite drawMesh_cfg. intros H.
  apply Forall_inv in H. destruct H as [[H _] _].
  vm_compute in H. apply H. reflexivity.
Qed.

(** C2, amended, on the same page: the node stays within the margin. *)
Lemma wrap_keeps_nodes_within_margin_witness :
  let s' := Mesh.state_of (Mesh.drawMesh (M := JS.ref_Math) Mesh.cfg 100 drifting) in
  (Mesh.width s' = Mesh.width drifting /\ Mesh.height s' = Mesh.height drifting) /\
  Forall2 (fun n n' => (16 < 100 - Mesh.lastUpdate n)%Q ->
                       Mesh.within_margin (Mesh.width s') (Mesh.height s') n')
          (Mesh.nodes drifting) (Mesh.nodes s').
Proof.
  apply (wrap_keeps_nodes_within_margin (M := JS.ref_Math) Mesh.cfg 100 drifting).
  - vm_compute. discriminate.
  - vm_compute. discriminate.
Defined.

(** * Further properties *)

(** ** slider.js, further *)

Section SliderMore.
Import Slider.

Lemma next_index (pg : page) (k : Z) :
  index pg = Int k ->
  0 <= k < Z.of_nat (length (images pg)) ->
  index (next pg) = Int ((k + 1) mod Z.of_nat (length (images pg))) /\
  translateX (next pg) = Int ((k + 1) mod Z.of_nat (length (images pg)) * 100) /\
  images (next pg) = images pg.
Proof.
  intros Hidx Hk. set (n := Z.of_nat (length (images pg))) in *.
  assert (Hnz : (n =? 0) = false) by (apply Z.eqb_neq; lia).
  unfold next, showSlide. rewrite Hidx. cbn [add rem mul index translateX images].
  fold n. rewrite Hnz. cbn [mul].
  rewrite Z.rem_mod_nonneg by lia.
  replace (k + 1 + n) with (k + 1 + 1 * n) by ring.
  rewrite Z.mod_add by lia. repeat split.
Qed.

Lemma prev_index (pg : page) (k : Z) :
  index pg = Int k ->
  0 <= k < Z.of_nat (length (images pg)) ->
  index (prev pg) = Int ((k - 1) mod Z.of_nat (length (images pg))) /\
  translateX (prev pg) = Int ((k - 1) mod Z.of_nat (length (images pg)) * 100) /\
  images (prev pg) = images pg.
Proof.
  intros Hidx Hk. set (n := Z.of_nat (length (images pg))) in *.
  assert (Hnz : (n =? 0) = false) by (apply Z.eqb_neq; lia).
  unfold prev, showSlide. rewrite Hidx. cbn [add rem mul index translateX images].
  fold n. rewrite Hnz. cbn [mul].
  rewrite Z.rem_mod_nonneg by lia.
  replace (k + -1 + n) with (k - 1 + 1 * n) by ring.
  rewrite Z.mod_add by lia. repeat split.
Qed.

(** X1.  On a non-empty slider with its index in range, the two buttons
    undo each other: next then previous, and previous then next, show the
    slide that was shown, with its offset. *)
Theorem slider_buttons_undo (pg : page) (k : Z) :
  index pg = Int k ->
  0 <= k < Z.of_nat (length (images pg)) ->
  (index (prev (next pg)) = Int k /\ translateX (prev (next pg)) = Int (k * 100)) /\
  (index (next (prev pg)) = Int k /\ translateX (next (prev pg)) = Int (k * 100)).
Proof.
  intros Hidx Hk. set (n := Z.of_nat (length (images pg))) in *.
  destruct (next_index pg k Hidx Hk) as (Hn & _ & Hin). fold n in Hn.
  destruct (prev_index pg k Hidx Hk) as (Hp & _ & Hip). fold n in Hp.
  assert (Hb1 : 0 <= (k + 1) mod n < n) by (apply Z.mod_pos_bound; lia).
  assert (Hb2 : 0 <= (k - 1) mod n < n) by (apply Z.mod_pos_bound; lia).
  destruct (prev_index (next pg) ((k + 1) mod n) Hn) as (H1 & H1' & _);
    [rewrite Hin; exact Hb1|].
  destruct (next_index (prev pg) ((k - 1) mod n) Hp) as (H2 & H2' & _);
    [rewrite Hip; exact Hb2|].
  rewrite Hin in H1, H1'. rewrite Hip in H2, H2'. fold n in H1, H1', H2, H2'.
  assert (E1 : ((k + 1) mod n - 1) mod n = k).
  { rewrite Zminus_mod_idemp_l. replace (k + 1 - 1) with k by ring.
    apply Z.mod_small; lia. }
  assert (E2 : ((k - 1) mod n + 1) mod n = k).
  { rewrite Zplus_mod_idemp_l. replace (k - 1 + 1) with k by ring.
    apply Z.mod_small; lia. }
  rewrite E1 in H1, H1'. rewrite E2 in H2, H2'. auto.
Qed.

Lemma iter_next (pg : page) (k : Z) (j : nat) :
  index pg = Int k ->
  0 <= k < Z.of_nat (length (images pg)) ->
  index (Nat.iter j next pg) = Int ((k + Z.of_nat j) mod Z.of_nat (length (images pg))) /\
  images (Nat.iter j next pg) = images pg.
Proof.
  intros Hidx Hk. set (n := Z.of_nat (length (images pg))) in *.
  induction j as [|j [IHi IHl]].
  - change (Nat.iter 0 next pg) with pg. rewrite Hidx. split; [|reflexivity].
    f_equal. rewrite Z.add_0_r. symmetry. apply Z.mod_small; lia.
  - change (Nat.iter (S j) next pg) with (next (Nat.iter j next pg)).
    assert (Hb : 0 <= (k + Z.of_nat j) mod n < n) by (apply Z.mod_pos_bound; lia).
    destruct (next_index (Nat.iter j next pg) _ IHi) as (Hn & _ & Hl);
      [rewrite IHl; exact Hb|].
    rewrite IHl in Hn, Hl. fold n in Hn. split; [|exact Hl].
    rewrite Hn. f_equal. rewrite Zplus_mod_idemp_l. f_equal. lia.
Qed.

(** X2.  The timer (and the next button) walks the slides in order and
    around: after j steps from slide k of n the slider shows slide
    (k + j) mod n, so after n steps it is back where it was. *)
Theorem slider_cycles (pg : page) (k : Z) :
  index pg = Int k ->
  0 <= k < Z.of_nat (length (images pg)) ->
  (forall j : nat,
     index (Nat.iter j next pg) = Int ((k + Z.of_nat j) mod Z.of_nat (length (images pg)))) /\
  index (Nat.iter (length (images pg)) next pg) = Int k.
Proof.
  intros Hidx Hk. split.
  - intros j. apply (iter_next pg k j Hidx Hk).
  - destruct (iter_next pg k (length (images pg)) Hidx Hk) as [-> _].
    f_equal. set (n := Z.of_nat (length (images pg))) in *.
    replace (k + n) with (k + 1 * n) by ring.
    rewrite Z.mod_add by lia. apply Z.mod_small; lia.
Qed.

(** X3.  With no image on the page the index becomes NaN at the first
    call of [showSlide], whatever its argument, and so does the offset
    written to the style; both buttons then leave it NaN. *)
Theorem slider_without_images (pg : page) :
  images pg = [] ->
  (forall i, index (showSlide i pg) = NaN /\ translateX (showSlide i pg) = NaN) /\
  (index (next pg) = NaN /\ index (prev pg) = NaN) /\
  (index (next (next pg)) = NaN /\ index (prev (next pg)) = NaN).
Proof.
  intros Himg.
  assert (H : forall i q, images q = [] ->
                index (showSlide i q) = NaN /\ translateX (showSlide i q) = NaN /\
                images (showSlide i q) = []).
  { intros i q Hq. unfold showSlide. rewrite Hq. cbn [length images index translateX].
    destruct i; cbn; auto. }
  split; [|split].
  - intros i. destruct (H i pg Himg) as (? & ? & _). auto.
  - unfold next, prev. split; apply H; exact Himg.
  - unfold next at 1, prev at 1. split; apply H; apply H; exact Himg.
Qed.

End SliderMore.

Lemma slider_buttons_undo_witness :
  (Slider.index (Slider.prev (Slider.next Slider.three_slides)) = Slider.Int 0 /\
   Slider.translateX (Slider.prev (Slider.next Slider.three_slides)) = Slider.Int (0 * 100)) /\
  (Slider.index (Slider.next (Slider.prev Slider.three_slides)) = Slider.Int 0 /\
   Slider.translateX (Slider.next (Slider.prev Slider.three_slides)) = Slider.Int (0 * 100)).
Proof.
  apply (slider_buttons_undo Slider.three_slides 0); [reflexivity | simpl; lia].
Defined.

Lemma slider_cycles_witness :
  (forall j : nat,
     Slider.index (Nat.iter j Slider.next Slider.three_slides)
     = Slider.Int ((0 + Z.of_nat j) mod 3)) /\
  Slider.index (Nat.iter 3 Slider.next Slider.three_slides) = Slider.Int 0.
Proof.
  apply (slider_cycles Slider.three_slides 0); [reflexivity | simpl; lia].
Defined.

Lemma slider_without_images_witness :
  (forall i, Slider.index (Slider.showSlide i Slider.no_slides) = Slider.NaN /\
             Slider.translateX (Slider.showSlide i Slider.no_slides) = Slider.NaN) /\
  (Slider.index (Slider.next Slider.no_slides) = Slider.NaN /\
   Slider.index (Slider.prev Slider.no_slides) = Slider.NaN) /\
  (Slider.index (Slider.next (Slider.next Slider.no_slides)) = Slider.NaN /\
   Slider.index (Slider.prev (Slider.next Slider.no_slides)) = Slider.NaN).
Proof.
  apply (slider_without_images Slider.no_slides). reflexivity.
Defined.

(** ** sendmail.php, further *)

Section MailerMore.
Import Mailer.
Local Open Scope string_scope.

Variable lib : library.
Variable post : gmap string string.

Lemma POST_reads (key : string) (r : run) :
  fst (POST post key r) = default "" (post !! key) /\
  calls (snd (POST post key r)) = calls r.
Proof. unfold POST. destruct (post !! key); split; reflexivity. Qed.

Lemma returned_snoc (l : list method) (j : nat) (f : method) :
  nth_error l j = Some f ->
  returned (firstn (S j) l) = (returned (firstn j l) ++ [(f, true)])%list.
Proof.
  revert l. induction j as [|j IH]; intros [|a l] Hf; try discriminate.
  - injection Hf as ->. reflexivity.
  - change (firstn (S (S j)) (a :: l)) with (a :: firstn (S j) l).
    change (firstn (S j) (a :: l)) with (a :: firstn j l).
    unfold returned in *. cbn [map app]. f_equal. apply IH. exact Hf.
Qed.

Lemma call_made (j : nat) (f : method) (r : run) :
  nth_error (expected_calls post) j = Some f ->
  made post j r ->
  flow_sat (made post (S j)) (stopped post) (call lib f r).
Proof.
  intros Hf Hm. unfold call, made in *.
  destruct (lib f (mail r)) as [m|m]; cbn [flow_sat calls].
  - rewrite Hm. symmetry. apply returned_snoc. exact Hf.
  - exists j, f. rewrite Hm. auto.
Qed.

Lemma assign_made (j : nat) (upd : PHPMailer -> PHPMailer) (r : run) :
  made post j r -> flow_sat (made post j) (stopped post) (assign upd r).
Proof. intros H. exact H. Qed.

Lemma try_block_calls (r0 : run) :
  calls r0 = [] ->
  flow_sat (made post 4) (stopped post) (try_block lib post r0).
Proof.
  intros Hr0. unfold try_block.
  apply (andThen_sat (made post 4)); [|intros r Hr; exact Hr].
  apply (andThen_sat (made post 3)); [|intros r Hr; apply (call_made 3 send r eq_refl Hr)].
  apply (andThen_sat (made post 3)).
  2:{ intros r Hr.
      destruct (POST_reads "name" r) as [_ C1].
      destruct (POST post "name" r) as [n r1]. cbn [snd] in C1.
      destruct (POST_reads "email" r1) as [_ C2].
      destruct (POST post "email" r1) as [e r2]. cbn [snd] in C2.
      destruct (POST_reads "message" r2) as [_ C3].
      destruct (POST post "message" r2) as [g r3]. cbn [snd] in C3.
      apply assign_made. unfold made in *. congruence. }
  apply (andThen_sat (made post 3)); [|intros r Hr; apply (assign_made 3 _ r Hr)].
  apply (andThen_sat (made post 2)); [|intros r Hr; apply (call_made 2 _ r eq_refl Hr)].
  apply (andThen_sat (made post 1)).
  2:{ intros r Hr.
      destruct (POST_reads "email" r) as [V1 C1].
      destruct (POST post "email" r) as [e r1]. cbn [fst snd] in V1, C1.
      destruct (POST_reads "name" r1) as [V2 C2].
      destruct (POST post "name" r1) as [n r2]. cbn [fst snd] in V2, C2.
      subst e n. apply (call_made 1 _ r2 eq_refl). unfold made in *. congruence. }
  do 6 (apply (andThen_sat (made post 1)); [|intros r Hr; apply (assign_made 1 _ r Hr)]).
  apply (call_made 0 isSMTP r0 eq_refl). exact Hr0.
Qed.

(** X4.  Whatever the library does and whatever was posted, the script
    calls the library in one fixed order - [isSMTP], [setFrom] with the
    posted email and name (the empty string for a missing field),
    [addAddress] with the site owner's address, [send] - and stops at the
    first call that throws.  So [send] runs at most once and only after the
    three others returned, and no posted value is ever used as a
    recipient. *)
Theorem sendmail_calls_in_order :
  let r := sendmail lib post in
  (calls r = returned (expected_calls post) \/ stopped post r) /\
  (forall a b, In (addAddress a, b) (calls r) -> a = "daskoustav88@gmail.com") /\
  (forall b, In (send, b) (calls r) ->
     calls r = (returned (firstn 3 (expected_calls post)) ++ [(send, b)])%list).
Proof.
  cbv zeta. unfold sendmail.
  pose proof (try_block_calls
    {| mail := new_PHPMailer true; output := ""; calls := []; undefined_keys := [] |}
    eq_refl) as H.
  destruct (try_block _ _ _) as [r|r]; cbn [flow_sat] in H.
  - unfold made in H. cbn [firstn] in H. fold (expected_calls post) in H.
    split; [left; exact H|]. rewrite H. cbn [expected_calls returned map firstn]. split.
    + intros a b [[=]|[[=]|[[= <- _]|[[=]|[]]]]]. reflexivity.
    + intros b [[=]|[[=]|[[=]|[[= <-]|[]]]]]. reflexivity.
  - assert (Hc : calls (echo (ErrorInfo (mail r)) (echo "Failed to send: " r)) = calls r)
      by reflexivity.
    rewrite Hc. split; [right; exact H|].
    destruct H as (j & f & Hf & ->).
    destruct j as [|[|[|[|j]]]]; cbn in Hf; try (destruct j; discriminate);
      injection Hf as <-; cbn [expected_calls returned map firstn app]; split.
    all: try (intros a b Hin; repeat destruct Hin as [[=]|Hin]; subst;
              try reflexivity; try destruct Hin; fail).
    all: try (intros b Hin; repeat destruct Hin as [[=]|Hin]; subst;
              try destruct Hin; reflexivity).
Qed.

End MailerMore.

(** ** The tesseract, further *)

Section TesseractMore.
Import Tesseract.
Local Open Scope R_scope.

Lemma list4_eq (a b c d a' b' c' d' : R) :
  a = a' -> b = b' -> c = c' -> d = d' -> [a; b; c; d] = [a'; b'; c'; d'].
Proof. intros -> -> -> ->. reflexivity. Qed.

Lemma turn_back_1 (u v t : R) :
  (u * cos t - v * sin t) * cos (- t) - (u * sin t + v * cos t) * sin (- t) = u.
Proof.
  rewrite cos_neg, sin_neg. pose proof (sin2_cos2 t) as H. unfold Rsqr in H.
  replace ((u * cos t - v * sin t) * cos t - (u * sin t + v * cos t) * - sin t)
    with (u * (sin t * sin t + cos t * cos t)) by ring.
  rewrite H. ring.
Qed.

Lemma turn_back_2 (u v t : R) :
  (u * cos t - v * sin t) * sin (- t) + (u * sin t + v * cos t) * cos (- t) = v.
Proof.
  rewrite cos_neg, sin_neg. pose proof (sin2_cos2 t) as H. unfold Rsqr in H.
  replace ((u * cos t - v * sin t) * - sin t + (u * sin t + v * cos t) * cos t)
    with (v * (sin t * sin t + cos t * cos t)) by ring.
  rewrite H. ring.
Qed.

(** X5.  [rot4] on two different components of a 4-vector is a rotation:
    it keeps the Euclidean norm, and rotating by the opposite angle in the
    same plane gives the vector back. *)
Theorem rot4_is_rotation (a b c d theta : R) (i j : nat) :
  (i < 4)%nat -> (j < 4)%nat -> i <> j ->
  norm2 (rot4 [a; b; c; d] i j theta) = norm2 [a; b; c; d] /\
  rot4 (rot4 [a; b; c; d] i j theta) i j (- theta) = [a; b; c; d].
Proof.
  intros Hi Hj Hij.
  pose proof (planar_rotation a b theta). pose proof (planar_rotation a c theta).
  pose proof (planar_rotation a d theta). pose proof (planar_rotation b c theta).
  pose proof (planar_rotation b d theta). pose proof (planar_rotation c d theta).
  pose proof (planar_rotation b a theta). pose proof (planar_rotation c a theta).
  pose proof (planar_rotation d a theta). pose proof (planar_rotation c b theta).
  pose proof (planar_rotation d b theta). pose proof (planar_rotation d c theta).
  destruct i as [|[|[|[|i]]]]; try lia; destruct j as [|[|[|[|j]]]]; try lia;
    (split;
     [ change (norm2 [a; b; c; d]) with (a * a + b * b + c * c + d * d);
       unfold rot4, norm2, at_; cbn [nth insert list_insert]; lra
     | unfold rot4, at_; cbn [nth insert list_insert];
       apply list4_eq; try reflexivity;
       first [ apply turn_back_1 | apply turn_back_2 ] ]).
Qed.

Lemma rot4_is_rotation_witness :
  norm2 (rot4 [1; -1; 1; -1] 2 3 (PI / 3)) = norm2 [1; -1; 1; -1] /\
  rot4 (rot4 [1; -1; 1; -1] 2 3 (PI / 3)) 2 3 (- (PI / 3)) = [1; -1; 1; -1].
Proof.
  apply (rot4_is_rotation 1 (-1) 1 (-1) (PI / 3) 2 3); lia.
Defined.

Lemma coordinates_bounded (a b c d : R) :
  a * a + b * b + c * c + d * d = 4 ->
  (-2 <= a <= 2) /\ (-2 <= b <= 2) /\ (-2 <= c <= 2) /\ (-2 <= d <= 2).
Proof. intros H. repeat split; nra. Qed.

(** The 3D and 2D steps of both projections, on a point of norm 2 whose
    divisor is at least [m]. *)
Lemma perspective_bounded (a b c D m f g : R) :
  -2 <= a <= 2 -> -2 <= b <= 2 -> -2 <= c <= 2 ->
  0 < m -> m <= D -> 0 <= f -> 0 <= g ->
  let wCoord := 1 / D in
  let x3 := a * wCoord in
  let y3 := b * wCoord in
  let z3 := c * wCoord in
  Rabs z3 <= 2 / m /\
  Rabs (x3 * f * (1 + z3 * g)) <= 2 / m * f * (1 + 2 / m * g) /\
  Rabs (y3 * f * (1 + z3 * g)) <= 2 / m * f * (1 + 2 / m * g).
Proof.
  intros Ha Hb Hc Hm HD Hf Hg. cbv zeta.
  assert (Hw : 0 < 1 / D <= 1 / m).
  { split.
    - apply Rdiv_lt_0_compat; lra.
    - unfold Rdiv. rewrite !Rmult_1_l. apply Rinv_le_contravar; lra. }
  set (w := 1 / D) in *.
  assert (Em : 2 / m = 2 * (1 / m)) by (unfold Rdiv; ring).
  assert (Hq : 0 < 1 / m) by (apply Rdiv_lt_0_compat; lra).
  set (q := 1 / m) in *. rewrite Em.
  assert (I : forall u, -2 <= u <= 2 -> - (2 * q) <= u * w <= 2 * q).
  { intros u Hu. split; nra. }
  assert (B : forall u, -2 <= u <= 2 -> Rabs (u * w) <= 2 * q).
  { intros u Hu. apply Rabs_le. apply I. exact Hu. }
  pose proof (B a Ha) as Bx. pose proof (B b Hb) as By. pose proof (B c Hc) as Bz.
  split; [exact Bz|].
  assert (Bg : Rabs (1 + c * w * g) <= 1 + 2 * q * g).
  { apply Rabs_le. pose proof (I c Hc). split; nra. }
  assert (P : forall u, Rabs (u * w) <= 2 * q ->
                Rabs (u * w * f * (1 + c * w * g)) <= 2 * q * f * (1 + 2 * q * g)).
  { intros u Hu. set (X := u * w) in *. set (Y := 1 + c * w * g) in *.
    rewrite !Rabs_mult. rewrite (Rabs_pos_eq f) by exact Hf.
    apply Rmult_le_compat; try assumption.
    - apply Rmult_le_pos; [apply Rabs_pos | exact Hf].
    - apply Rabs_pos.
    - apply Rmult_le_compat_r; assumption. }
  split; apply P; assumption.
Qed.

(** X6.  Every projected vertex stays near the origin, whatever the
    angle: [project4To2] returns [x2; y2; z3] with |x2|, |y2| <= 119/45
    (about 2.65) and |z3| <= 5/3, and [project4To2_small] returns values
    with |x2|, |y2| <= 1.44 and |z3| <= 4/3; so the wireframe drawn from
    them lies within 2.65 (resp. 1.44) times the base size of its
    centre. *)
Theorem projection_bounded (v : list Z) (theta : R) :
  In v verts4 ->
  (exists x2 y2 z3, project4To2 (to_reals v) theta = [x2; y2; z3] /\
     Rabs x2 <= 119 / 45 /\ Rabs y2 <= 119 / 45 /\ Rabs z3 <= 5 / 3) /\
  (exists x2 y2 z3, project4To2_small (to_reals v) theta = [x2; y2; z3] /\
     Rabs x2 <= 1.44 /\ Rabs y2 <= 1.44 /\ Rabs z3 <= 4 / 3).
Proof.
  intros Hv.
  destruct (vertex_norm v Hv) as (a & b & c & d & -> & Hn).
  unfold project4To2, project4To2_small, rotate, rotate_small. cbv zeta.
  destruct (three_rotations a b c d (theta * 0.7) (theta * 0.5) (theta * 0.35))
    as (a1 & b1 & c1 & d1 & -> & E1).
  destruct (three_rotations a b c d (theta * 0.9) (theta * 0.6) (theta * 0.35))
    as (a2 & b2 & c2 & d2 & -> & E2).
  destruct (coordinates_bounded a1 b1 c1 d1 ltac:(lra)) as (A1 & B1 & C1 & D1).
  destruct (coordinates_bounded a2 b2 c2 d2 ltac:(lra)) as (A2 & B2 & C2 & D2).
  unfold divisor, divisor_small.
  change (at_ [a1; b1; c1; d1] 0) with a1. change (at_ [a1; b1; c1; d1] 1) with b1.
  change (at_ [a1; b1; c1; d1] 2) with c1. change (at_ [a1; b1; c1; d1] 3) with d1.
  change (at_ [a2; b2; c2; d2] 0) with a2. change (at_ [a2; b2; c2; d2] 1) with b2.
  change (at_ [a2; b2; c2; d2] 2) with c2. change (at_ [a2; b2; c2; d2] 3) with d2.
  cbv zeta. split.
  - destruct (perspective_bounded a1 b1 c1 (3.0 - d1 * 0.9) 1.2 1.4 0.08
                A1 B1 C1 ltac:(lra) ltac:(lra) ltac:(lra) ltac:(lra)) as (Hz & Hx & Hy).
    cbv zeta in Hz, Hx, Hy.
    do 3 eexists. split; [reflexivity|]. repeat split; lra.
  - destruct (perspective_bounded a2 b2 c2 (3.2 - d2 * 0.85) 1.5 1.0 0.06
                A2 B2 C2 ltac:(lra) ltac:(lra) ltac:(lra) ltac:(lra)) as (Hz & Hx & Hy).
    cbv zeta in Hz, Hx, Hy.
    do 3 eexists. split; [reflexivity|]. repeat split; lra.
Qed.

Lemma projection_bounded_witness :
  (exists x2 y2 z3, project4To2 (to_reals [1; 1; -1; 1]%Z) (PI / 4) = [x2; y2; z3] /\
     Rabs x2 <= 119 / 45 /\ Rabs y2 <= 119 / 45 /\ Rabs z3 <= 5 / 3) /\
  (exists x2 y2 z3, project4To2_small (to_reals [1; 1; -1; 1]%Z) (PI / 4) = [x2; y2; z3] /\
     Rabs x2 <= 1.44 /\ Rabs y2 <= 1.44 /\ Rabs z3 <= 4 / 3).
Proof.
  apply (projection_bounded [1; 1; -1; 1]%Z (PI / 4)).
  rewrite verts4_eq. cbv. tauto.
Defined.

End TesseractMore.

(** ** Numbers, further *)

Section NumberMore.
Import JS.
Local Open Scope Q_scope.

Lemma div_mul (a b : Q) : 0 < b -> a / b * b == a.
Proof. intros Hb. field. lra. Qed.

(** [a % b] for a positive [b]: between 0 and b for a >= 0, between -b
    and 0 (and not below a) for a < 0. *)
Lemma fmod_nonneg (a b : Q) : 0 <= a -> 0 < b -> 0 <= fmod a b /\ fmod a b < b.
Proof.
  intros Ha Hb. unfold fmod, trunc, leb.
  assert (Hq : 0 <= a / b) by (apply Qle_shift_div_l; lra).
  apply Qle_bool_iff in Hq as Hq'. rewrite Hq'.
  pose proof (Qfloor_le (a / b)) as F1. pose proof (Qlt_floor (a / b)) as F2.
  rewrite inject_Z_plus in F2. pose proof (div_mul a b Hb) as E.
  set (k := inject_Z (Qfloor (a / b))) in *. set (q := a / b) in *.
  change (inject_Z 1) with 1 in F2. split; nra.
Qed.

Lemma fmod_neg (a b : Q) :
  a < 0 -> 0 < b -> (- b < fmod a b /\ fmod a b <= 0) /\ a <= fmod a b.
Proof.
  intros Ha Hb. unfold fmod, trunc, leb.
  assert (Hq : a / b < 0).
  { apply Qlt_shift_div_r; lra. }
  destruct (Qle_bool 0 (a / b)) eqn:Hb0.
  { apply Qle_bool_iff in Hb0. lra. }
  unfold Qceiling. rewrite inject_Z_opp.
  pose proof (Qfloor_le (- (a / b))) as F1. pose proof (Qlt_floor (- (a / b))) as F2.
  rewrite inject_Z_plus in F2. pose proof (div_mul a b Hb) as E.
  assert (F0 : 0 <= inject_Z (Qfloor (- (a / b)))).
  { change 0 with (inject_Z 0). rewrite <- Zle_Qle.
    change 0%Z with (Qfloor 0). apply Qfloor_resp_le. lra. }
  set (k := inject_Z (Qfloor (- (a / b)))) in *. set (q := a / b) in *.
  change (inject_Z 1) with 1 in F2. repeat split; nra.
Qed.

Lemma ref_cos_bounded (a : Q) : - (1) <= ref_cos a /\ ref_cos a <= 1.
Proof.
  unfold ref_cos. cbv zeta. rewrite Qred_correct. set (t := a / 2).
  assert (Hd : 0 < 1 + t * t) by nra.
  split.
  - apply Qle_shift_div_l; [exact Hd | nra].
  - apply Qle_shift_div_r; [exact Hd | nra].
Qed.

Lemma ref_sin_bounded (a : Q) : - (1) <= ref_sin a /\ ref_sin a <= 1.
Proof.
  unfold ref_sin. cbv zeta. rewrite Qred_correct. set (t := a / 2).
  assert (Hd : 0 < 1 + t * t) by nra.
  assert (S1 : 0 <= (1 + t) * (1 + t))
    by (destruct (Qlt_le_dec (1 + t) 0); nra).
  assert (S2 : 0 <= (1 - t) * (1 - t))
    by (destruct (Qlt_le_dec (1 - t) 0); nra).
  split.
  - apply Qle_shift_div_l; [exact Hd | nra].
  - apply Qle_shift_div_r; [exact Hd | nra].
Qed.

Lemma ref_bounded_trig : bounded_trig (M := ref_Math).
Proof. intros a. split; [apply ref_cos_bounded | apply ref_sin_bounded]. Qed.

(** [Math.round] of a number between two integers is between them. *)
Lemma round_between (lo hi : Z) (a : Q) :
  inject_Z lo <= a -> a <= inject_Z hi -> (lo <= round a <= hi)%Z.
Proof.
  intros Hlo Hhi. unfold round. split.
  - rewrite <- (Qfloor_Z lo). apply Qfloor_resp_le. lra.
  - assert (H : (Qfloor (a + (1 # 2)) < hi + 1)%Z).
    { rewrite Zlt_Qlt. apply Qle_lt_trans with (a + (1 # 2)); [apply Qfloor_le|].
      rewrite inject_Z_plus. change (inject_Z 1) with 1. lra. }
    lia.
Qed.

End NumberMore.

(** ** The flow noise *)

Section NoiseFacts.
Import JS Mesh.
Local Open Scope Q_scope.
Context {M : Math}.

Lemma land_255 (a : Z) : (0 <= Z.land a 255 < 256)%Z.
Proof.
  change 255%Z with (Z.ones 8). rewrite Z.land_ones by lia.
  apply Z.mod_pos_bound. reflexivity.
Qed.

Lemma perm_entry (tbl : list Z) (i : Z) :
  table_ok tbl -> (0 <= i < 512)%Z -> (0 <= perm tbl i < 256)%Z.
Proof.
  intros (Hlen & Hall & _) Hi. unfold perm.
  rewrite Forall_forall in Hall. apply Hall. apply list_elem_of_In.
  apply nth_In. lia.
Qed.

Lemma noise_reads_in_table (tbl : list Z) (x y : Q) :
  table_ok tbl -> Forall (fun i => (0 <= i < 512)%Z) (noise_reads tbl x y).
Proof.
  intros Ht. unfold noise_reads. cbv zeta.
  pose proof (land_255 (floor x)) as HX. pose proof (land_255 (floor y)) as HY.
  set (X := Z.land (floor x) 255) in *. set (Y := Z.land (floor y) 255) in *.
  pose proof (perm_entry tbl X Ht ltac:(lia)) as HA.
  pose proof (perm_entry tbl (X + 1) Ht ltac:(lia)) as HB.
  repeat constructor; lia.
Qed.

Lemma perm_app (tbl ext : list Z) (i : Z) :
  length tbl = 512%nat -> (0 <= i < 512)%Z -> perm (tbl ++ ext) i = perm tbl i.
Proof. intros Hlen Hi. unfold perm. apply app_nth1. lia. Qed.

Lemma noise_app (tbl ext : list Z) (x y : Q) :
  table_ok tbl -> noise (tbl ++ ext) x y = noise tbl x y.
Proof.
  intros Ht. pose proof (noise_reads_in_table tbl x y Ht) as Hr.
  destruct Ht as (Hlen & Ht'). unfold noise_reads in Hr. cbv zeta in Hr.
  apply Forall_cons in Hr as [H1 Hr]. apply Forall_cons in Hr as [H2 Hr].
  apply Forall_cons in Hr as [H3 Hr]. apply Forall_cons in Hr as [H4 Hr].
  apply Forall_cons in Hr as [H5 Hr]. apply Forall_cons in Hr as [H6 _].
  unfold noise. cbv zeta.
  rewrite !(perm_app tbl ext (Z.land (floor x) 255)) by assumption.
  rewrite !(perm_app tbl ext (Z.land (floor x) 255 + 1)) by assumption.
  rewrite !(perm_app tbl ext) by assumption.
  reflexivity.
Qed.

Hypothesis random_unit : forall i, 0 <= Math_random i /\ Math_random i < 1.

Lemma build_p_table (s : state) : table_ok (p (build_p s)).
Proof.
  unfold build_p. cbn [p set_p set_host].
  set (half := map (fun i => floor (Math_random (draws (host s) + Z.to_nat i) * 256))
                   (range 0 256)).
  assert (Hh : length half = 256%nat) by (subst half; now rewrite length_map, range_length).
  assert (Hall : Forall (fun v => (0 <= v < 256)%Z) half).
  { subst half. apply Forall_forall. intros v Hv.
    apply list_elem_of_In, in_map_iff in Hv. destruct Hv as (i & <- & _).
    destruct (random_unit (draws (host s) + Z.to_nat i)) as [H0 H1].
    apply (floor_scaled _ 256 H0 H1). reflexivity. }
  split; [|split].
  - rewrite length_app. lia.
  - apply Forall_app. split; exact Hall.
  - intros i Hi. unfold perm.
    replace (Z.to_nat (i + 256)) with (length half + Z.to_nat i)%nat by lia.
    rewrite app_nth2_plus. symmetry. apply app_nth1. lia.
Qed.

(** X7.  The permutation table the script fills at load has 512 entries
    below 256, the second half a copy of the first, and with it [noise]
    reads the table only at indices 0..511, for every argument: no read
    falls outside the table, and nothing beyond it could change the
    result. *)
Theorem noise_stays_in_table (s : state) (x y : Q) :
  let tbl := p (build_p s) in
  table_ok tbl /\
  Forall (fun i => (0 <= i < 512)%Z) (noise_reads tbl x y) /\
  forall ext, noise (tbl ++ ext) x y = noise tbl x y.
Proof.
  cbv zeta. pose proof (build_p_table s) as Ht.
  split; [exact Ht|]. split; [now apply noise_reads_in_table|].
  intros ext. now apply noise_app.
Qed.

End NoiseFacts.

Lemma noise_stays_in_table_witness :
  let tbl := Mesh.p (Mesh.build_p (M := JS.ref_Math) (Mesh.initial desktop)) in
  table_ok tbl /\
  Forall (fun i => (0 <= i < 512)%Z) (noise_reads tbl (-3.7) 1000.25) /\
  forall ext, Mesh.noise (tbl ++ ext) (-3.7) 1000.25 = Mesh.noise tbl (-3.7) 1000.25.
Proof.
  apply (noise_stays_in_table (M := JS.ref_Math) ref_random_unit).
Defined.

Section NoiseLattice.
Import JS Mesh.
Local Open Scope Q_scope.

Lemma grad_origin (hash : Z) (x y : Q) : x == 0 -> y == 0 -> grad hash x y == 0.
Proof.
  intros Hx Hy. unfold grad. cbv zeta.
  repeat match goal with |- context [if ?b then _ else _] => destruct b end; lra.
Qed.

Lemma fade_origin (t : Q) : t == 0 -> fade t == 0.
Proof. intros H. unfold fade. rewrite H. ring. Qed.

(** X8.  On the integer lattice the noise is zero, whatever the
    permutation table holds: a node whose coordinates are whole multiples
    of the flow scale gets the flow angle 0. *)
Theorem noise_zero_on_lattice (tbl : list Z) (i j : Z) :
  noise tbl (inject_Z i) (inject_Z j) == 0.
Proof.
  unfold noise. cbv zeta. unfold floor. rewrite !Qfloor_Z.
  assert (Hx : inject_Z i - inject_Z i == 0) by ring.
  assert (Hy : inject_Z j - inject_Z j == 0) by ring.
  pose proof (fade_origin _ Hx) as Hu. pose proof (fade_origin _ Hy) as Hv.
  set (g1 := grad _ (inject_Z i - inject_Z i) (inject_Z j - inject_Z j)).
  assert (Hg : g1 == 0) by (subst g1; apply grad_origin; assumption).
  unfold lerp.
  set (u := fade (inject_Z i - inject_Z i)) in *.
  set (v := fade (inject_Z j - inject_Z j)) in *.
  generalize (grad (perm tbl (perm tbl (Z.land i 255 + 1) + Z.land j 255))
                (inject_Z i - inject_Z i - 1) (inject_Z j - inject_Z j)).
  intros g2.
  match goal with |- _ + (_ - _) * ?L == 0 => generalize L end.
  intros L2. rewrite Hu, Hv, Hg. ring.
Qed.

End NoiseLattice.

(** ** Runs of the mesh page *)

Section RunFacts.
Import JS Mesh.
Local Open Scope Q_scope.
Context {M : Math}.
Variable c : config.

(** What an animation frame can do to the variables: the sizes and the
    table stay, and the nodes stay or are updated once. *)
Lemma frame_nodes (now : Q) (s : state) :
  let s' := state_of (dispatch c (AnimationFrame now) s) in
  (width s' = width s /\ height s' = height s /\ p s' = p s) /\
  (nodes s' = nodes s \/ nodes s' = map (update c s now) (nodes s)).
Proof.
  cbv zeta. unfold dispatch, runFrame. rewrite bind_get.
  destruct (pending (host s)) as [|h rest]; [repeat split; now left|].
  rewrite bind_modify. set (s1 := set_host _ s).
  change (width s) with (width s1). change (height s) with (height s1).
  change (p s) with (p s1). change (nodes s) with (nodes s1).
  change (update c s now) with (update c s1 now).
  destruct (visible s1) eqn:Hv.
  - destruct (Qlt_le_dec (now - lastFrameTime s1) FRAME_INTERVAL) as [Hlt|Hge].
    + rewrite (loop_early c now s1 Hlt). repeat split. now left.
    + destruct (loop_frame c now s1 Hv Hge) as (ops & -> & _).
      destruct (threw (loop c now s1)); repeat split; now right.
  - rewrite (loop_hidden c now s1 Hv). repeat split. now left.
Qed.

Lemma init_state (s : state) :
  state_of (init c s) = rescheduled (buildNodes c (resize s)).
Proof. reflexivity. Qed.

Section Invariant.

Variable good : Q -> Q -> node -> Prop.
Hypothesis good_fresh :
  forall s k, 0 <= width s -> 0 <= height s -> good (width s) (height s) (new_node c s k).
Hypothesis good_update :
  forall s now n, 0 <= width s -> 0 <= height s ->
    good (width s) (height s) n -> good (width s) (height s) (update c s now n).
Hypothesis good_neighbors :
  forall wd ht v n, good wd ht n -> good wd ht (set_neighbors v n).

Lemma rebuilt_good (s s' : state) :
  0 <= width s -> 0 <= height s ->
  width s' = width s -> height s' = height s ->
  nodes s' = nodes (buildNodes c s) ->
  nodes_all good (computeNeighbors c s').
Proof.
  intros Hw Hh Ew Eh En. unfold nodes_all, computeNeighbors.
  cbn [nodes set_nodes width height]. rewrite Ew, Eh, En.
  split; [split; assumption|].
  apply Forall_forall. intros n Hn.
  apply list_elem_of_In, in_map_iff in Hn. destruct Hn as ((i, a) & <- & Hin).
  apply good_neighbors. unfold indexed in Hin. apply in_combine_r in Hin.
  rewrite buildNodes_nodes in Hin. apply in_map_iff in Hin. destruct Hin as (k & <- & _).
  now apply good_fresh.
Qed.

Lemma dispatch_good (e : event) (s : state) :
  ok_event e -> nodes_all good s -> nodes_all good (state_of (dispatch c e s)).
Proof.
  intros He Hs. destruct e as [w|cx cy| |[[cx cy]|]|b|now]; try exact Hs.
  - destruct He as [Hw Hh]. cbn [dispatch]. unfold modify. cbn [state_of].
    change (innerWidth w) with (width (resize (set_win w s))) in Hw.
    change (innerHeight w) with (height (resize (set_win w s))) in Hh.
    generalize dependent (resize (set_win w s)). intros X Hw Hh.
    apply (rebuilt_good X); try assumption; reflexivity.
  - destruct Hs as [[Hw Hh] Hall].
    destruct (frame_nodes now s) as ((Ew & Eh & _) & [En|En]); cbv zeta in *;
      unfold nodes_all; rewrite Ew, Eh, En; (split; [split; assumption|]).
    + exact Hall.
    + rewrite Forall_forall in Hall. apply Forall_forall. intros n Hn.
      apply list_elem_of_In, in_map_iff in Hn. destruct Hn as (n0 & <- & Hn0).
      apply good_update; try assumption. now apply Hall, list_elem_of_In.
Qed.

Lemma run_good (es : list event) (s : state) :
  Forall ok_event es -> nodes_all good s -> nodes_all good (run c es s).
Proof.
  intros Hes. revert s. induction Hes as [|e es He Hes IH]; intros s Hs; cbn [run].
  - exact Hs.
  - apply IH. now apply dispatch_good.
Qed.

Lemma boot_good (s : state) :
  0 <= innerWidth (win s) -> 0 <= innerHeight (win s) -> nodes_all good (boot c s).
Proof.
  intros Hw Hh. unfold boot. rewrite init_state.
  change (innerWidth (win s)) with (width (resize (build_p s))) in Hw.
  change (innerHeight (win s)) with (height (resize (build_p s))) in Hh.
  generalize dependent (resize (build_p s)). intros X Hw Hh.
  apply (rebuilt_good X); try assumption; reflexivity.
Qed.

Lemma page_good (w0 : window) (es : list event) :
  0 <= innerWidth w0 -> 0 <= innerHeight w0 -> Forall ok_event es ->
  nodes_all good (run c es (boot c (initial w0))).
Proof.
  intros Hw Hh Hes. apply run_good; [exact Hes|]. now apply boot_good.
Qed.

End Invariant.

End RunFacts.

Section NodeInvariants.
Import JS Mesh.
Local Open Scope Q_scope.
Context {M : Math}.
Variable c : config.

Hypothesis random_unit : forall i, 0 <= Math_random i /\ Math_random i < 1.

Lemma update_xy_unchanged (s : state) (now : Q) (n : node) :
  ltb 16 (now - lastUpdate n) = false ->
  x (update c s now n) = x n /\ y (update c s now n) = y n /\
  vx (update c s now n) = vx n /\ vy (update c s now n) = vy n.
Proof. intros H. unfold update. rewrite H. repeat split. Qed.

Lemma update_keeps_z_layer (s : state) (now : Q) (n : node) :
  z (update c s now n) = z n /\ layer (update c s now n) = layer n.
Proof. unfold update. destruct (ltb 16 _); split; reflexivity. Qed.

Lemma update_energy (s : state) (now : Q) (n : node) :
  energy (update c s now n) = fmod (energy n + pulseSpeed c) 1.
Proof. unfold update. destruct (ltb 16 _); reflexivity. Qed.

Section Margin.

Hypothesis trig : bounded_trig.

Lemma new_node_within_margin (s : state) (k : nat) :
  0 <= width s -> 0 <= height s ->
  within_margin (width s) (height s) (new_node c s k).
Proof.
  intros Hw Hh. unfold within_margin, new_node. cbn [x y].
  destruct (random_unit (k + 1)) as [R0 R1].
  destruct (trig (Math_random k * Math_PI * 2)) as [[C0 C1] [S0 S1]].
  set (co := Math_cos _) in *. set (si := Math_sin _) in *.
  set (r := Math_random (k + 1)) in *.
  set (wd := width s) in *. set (ht := height s) in *.
  assert (Hr : 0 <= r * 0.8 + 0.2 /\ r * 0.8 + 0.2 <= 1) by (split; lra).
  set (rad := r * 0.8 + 0.2) in *.
  assert (Ex : wd / 2 == wd * 0.5) by field.
  assert (Ey : ht / 2 == ht * 0.5) by field.
  set (hw := wd / 2) in *. set (hh := ht / 2) in *.
  assert (W1 : 0 <= hw * rad) by (apply Qmult_le_0_compat; lra).
  assert (W2 : 0 <= hw * (1 - rad)) by (apply Qmult_le_0_compat; lra).
  assert (H1 : 0 <= hh * rad) by (apply Qmult_le_0_compat; lra).
  assert (H2 : 0 <= hh * (1 - rad)) by (apply Qmult_le_0_compat; lra).
  set (A := hw * rad * 1.4) in *. set (B := hh * rad * 1.4) in *.
  assert (HA : 0 <= A /\ A <= wd * 0.7) by (subst A; split; lra).
  assert (HB : 0 <= B /\ B <= ht * 0.7) by (subst B; split; lra).
  assert (C2 : 0 <= (1 - co) * A) by (apply Qmult_le_0_compat; lra).
  assert (C3 : 0 <= (1 + co) * A) by (apply Qmult_le_0_compat; lra).
  assert (S2 : 0 <= (1 - si) * B) by (apply Qmult_le_0_compat; lra).
  assert (S3 : 0 <= (1 + si) * B) by (apply Qmult_le_0_compat; lra).
  repeat split; lra.
Qed.

Lemma update_keeps_margin (s : state) (now : Q) (n : node) :
  0 <= width s -> 0 <= height s ->
  within_margin (width s) (height s) n ->
  within_margin (width s) (height s) (update c s now n).
Proof.
  intros Hw Hh Hn. destruct (ltb 16 (now - lastUpdate n)) eqn:E.
  - apply update_within_margin; try assumption. now apply ltb_lt.
  - destruct (update_xy_unchanged s now n E) as (Ex & Ey & _).
    unfold within_margin. rewrite Ex, Ey. exact Hn.
Qed.

(** X9.  From the start of the script and through any sequence of
    events (resizes to any window of non-negative size, pointer and
    visibility events, animation frames at any times), every node is
    always within the canvas enlarged by 30% on each side: fresh nodes are
    placed within 20%, and the wraparound keeps the moving ones in. *)
Theorem nodes_always_within_margin (w0 : window) (es : list event) :
  0 <= innerWidth w0 -> 0 <= innerHeight w0 -> Forall ok_event es ->
  let s := run c es (boot c (initial w0)) in
  Forall (within_margin (width s) (height s)) (nodes s).
Proof.
  intros Hw Hh Hes. cbv zeta.
  apply (page_good c within_margin); try assumption.
  - exact new_node_within_margin.
  - exact update_keeps_margin.
  - intros wd ht v n H. exact H.
Qed.

Hypothesis strength_nonneg : 0 <= flowStrength c.

Lemma update_keeps_slow (s : state) (now : Q) (n : node) :
  node_slow c n -> node_slow c (update c s now n).
Proof.
  intros Hn. destruct (ltb 16 (now - lastUpdate n)) eqn:E.
  - unfold update. rewrite E. unfold node_slow in *.
    cbn [vx vy set_energy set_lastUpdate wrap flow].
    match goal with |- context [Math_cos ?a] => destruct (trig a) as [[C0 C1] [S0 S1]];
      set (co := Math_cos a) in *; set (si := Math_sin a) in * end.
    set (f := flowStrength c) in *. destruct Hn as [[X0 X1] [Y0 Y1]].
    repeat split; nra.
  - destruct (update_xy_unchanged s now n E) as (_ & _ & Evx & Evy).
    unfold node_slow. rewrite Evx, Evy. exact Hn.
Qed.

(** X10.  The flow never accelerates a node beyond 20 times the flow
    strength in either direction (2.8 pixels a frame with the script's
    0.14): that bound holds for every node at every moment, from the start
    of the script through any sequence of events. *)
Theorem nodes_never_faster (w0 : window) (es : list event) :
  0 <= innerWidth w0 -> 0 <= innerHeight w0 -> Forall ok_event es ->
  Forall (node_slow c) (nodes (run c es (boot c (initial w0)))).
Proof.
  intros Hw Hh Hes.
  apply (page_good c (fun _ _ => node_slow c)); try assumption.
  - intros s k _ _. unfold node_slow, new_node. cbn [vx vy]. repeat split; lra.
  - intros s now n _ _. apply update_keeps_slow.
  - intros wd ht v n H. exact H.
Qed.

End Margin.

Hypothesis depth_pos : 0 < depth c.
Hypothesis layers_pos : (0 < layerCount c)%Z.
Hypothesis pulse_nonneg : 0 <= pulseSpeed c.

(** X11.  Every node keeps, for as long as the page runs, a depth z in
    [0, depth), a layer index in [0, layerCount) and an energy in [0, 1):
    the frame update only advances the energy, modulo 1. *)
Theorem nodes_keep_their_ranges (w0 : window) (es : list event) :
  0 <= innerWidth w0 -> 0 <= innerHeight w0 -> Forall ok_event es ->
  Forall (node_ranges c) (nodes (run c es (boot c (initial w0)))).
Proof.
  intros Hw Hh Hes.
  apply (page_good c (fun _ _ => node_ranges c)); try assumption.
  - intros s k _ _.
    destruct (new_node_fresh c random_unit depth_pos layers_pos s k) as (Hz & _ & Hl & He & _).
    repeat split; tauto.
  - intros s now n _ _ (Hz & Hl & He). unfold node_ranges.
    destruct (update_keeps_z_layer s now n) as [-> ->]. rewrite update_energy.
    split; [exact Hz|]. split; [exact Hl|].
    apply fmod_nonneg; lra.
  - intros wd ht v n H. exact H.
Qed.

End NodeInvariants.

Lemma some_events_ok : Forall ok_event some_events.
Proof. repeat constructor; vm_compute; discriminate. Qed.

Lemma nodes_always_within_margin_witness :
  let s := Mesh.run (M := JS.ref_Math) Mesh.cfg some_events
             (Mesh.boot (M := JS.ref_Math) Mesh.cfg (Mesh.initial desktop)) in
  Forall (Mesh.within_margin (Mesh.width s) (Mesh.height s)) (Mesh.nodes s).
Proof.
  apply (nodes_always_within_margin (M := JS.ref_Math) Mesh.cfg
           ref_random_unit ref_bounded_trig desktop some_events).
  - vm_compute. discriminate.
  - vm_compute. discriminate.
  - exact some_events_ok.
Defined.

Lemma nodes_never_faster_witness :
  Forall (node_slow Mesh.cfg)
    (Mesh.nodes (Mesh.run (M := JS.ref_Math) Mesh.cfg some_events
                   (Mesh.boot (M := JS.ref_Math) Mesh.cfg (Mesh.initial desktop)))).
Proof.
  apply (nodes_never_faster (M := JS.ref_Math) Mesh.cfg ref_bounded_trig).
  - vm_compute. discriminate.
  - vm_compute. discriminate.
  - vm_compute. discriminate.
  - exact some_events_ok.
Defined.

Lemma nodes_keep_their_ranges_witness :
  Forall (node_ranges Mesh.cfg)
    (Mesh.nodes (Mesh.run (M := JS.ref_Math) Mesh.cfg some_events
                   (Mesh.boot (M := JS.ref_Math) Mesh.cfg (Mesh.initial desktop)))).
Proof.
  apply (nodes_keep_their_ranges (M := JS.ref_Math) Mesh.cfg ref_random_unit).
  - reflexivity.
  - reflexivity.
  - vm_compute. discriminate.
  - vm_compute. discriminate.
  - vm_compute. discriminate.
  - exact some_events_ok.
Defined.

(** ** The life of the animation loop *)

Section LoopLife.
Import JS Mesh.
Local Open Scope Q_scope.
Context {M : Math}.

Lemma rebuilt_host (c : config) (s : state) :
  pending (host (computeNeighbors c (buildNodes c (resize s)))) = pending (host s).
Proof. reflexivity. Qed.

Lemma computeNeighbors_host (c : config) (s : state) :
  host (computeNeighbors c s) = host s.
Proof. reflexivity. Qed.

Lemma built_pending (c : config) (s : state) :
  pending (host (buildNodes c (resize s))) = pending (host s).
Proof. reflexivity. Qed.

Lemma build_p_pending (s : state) : pending (host (build_p s)) = pending (host s).
Proof. reflexivity. Qed.

Lemma rescheduled_pending (s : state) :
  pending (host (rescheduled s)) = pending (host s) ++ [(issued (host s) + 1)%Z].
Proof. reflexivity. Qed.

Section Alive.

Variable c : config.
Hypothesis palette : palette_named c.

Lemma dispatch_alive (e : event) (s : state) :
  alive s ->
  threw (dispatch c e s) = false /\ alive (state_of (dispatch c e s)).
Proof.
  intros [Hp Hr]. destruct e as [w|cx cy| |[[cx cy]|]|b|now];
    try (split; [reflexivity | split; assumption]).
  - split; [reflexivity|]. split.
    + cbn [dispatch]. unfold modify. cbn [state_of].
      rewrite (rebuilt_host c (set_win w s)). exact Hp.
    + apply computeNeighbors_in_range.
  - destruct (pending (host s)) as [|h [|h' rest]] eqn:Eh; try discriminate.
    set (s1 := set_host {| pending := []; issued := issued (host s);
                           draws := draws (host s) |} s).
    assert (E : dispatch c (AnimationFrame now) s = loop c now s1).
    { unfold dispatch, runFrame. rewrite bind_get, Eh, bind_modify. reflexivity. }
    rewrite E.
    assert (Hr1 : neighbors_in_range (nodes s1)) by exact Hr.
    assert (Hq : forall X, nodes X = nodes s1 -> host X = host s1 ->
                   threw (requestAnimationFrame X) = false /\
                   alive (state_of (requestAnimationFrame X))).
    { intros X En Eho. split; [reflexivity|]. split.
      - change (state_of (requestAnimationFrame X)) with (rescheduled X).
        rewrite rescheduled_pending, Eho. reflexivity.
      - change (nodes (state_of (requestAnimationFrame X))) with (nodes X).
        rewrite En. exact Hr1. }
    destruct (visible s1) eqn:Hv.
    + destruct (Qlt_le_dec (now - lastFrameTime s1) FRAME_INTERVAL) as [Hlt|Hge].
      * rewrite (loop_early c now s1 Hlt). now apply Hq.
      * destruct (loop_frame c now s1 Hv Hge) as (ops & Es & Et).
        assert (Hno : threw (loop c now s1) = false).
        { rewrite Et. apply drawMesh_completes; [exact palette | exact Hr1]. }
        rewrite Hno in Es. split; [exact Hno|]. rewrite Es. split.
        -- rewrite rescheduled_pending. reflexivity.
        -- change (nodes (rescheduled ?X)) with (nodes X).
           cbn [nodes appended set_canvas set_nodes].
           apply update_in_range. exact Hr1.
    + rewrite (loop_hidden c now s1 Hv). now apply Hq.
Qed.

Lemma run_alive (es : list event) (s : state) : alive s -> alive (run c es s).
Proof.
  revert s. induction es as [|e es IH]; intros s Hs; cbn [run]; [exact Hs|].
  apply IH. now apply dispatch_alive.
Qed.

Lemma boot_alive (s : state) : pending (host s) = [] -> alive (boot c s).
Proof.
  intros Hp. unfold boot. rewrite init_state. split.
  - rewrite computeNeighbors_host, rescheduled_pending, built_pending, build_p_pending, Hp.
    reflexivity.
  - apply computeNeighbors_in_range.
Qed.

(** X12.  With a configuration whose palette has the names [drawMesh]
    reads, the animation never stops and never throws: from the start of
    the script, after any sequence of events, exactly one animation-frame
    callback is requested and the next event, whatever it is, is handled
    without an exception. *)
Theorem animation_keeps_running (w0 : window) (es : list event) :
  let s := run c es (boot c (initial w0)) in
  length (pending (host s)) = 1%nat /\
  forall e, threw (dispatch c e s) = false.
Proof.
  cbv zeta.
  assert (H : alive (run c es (boot c (initial w0))))
    by (apply run_alive, boot_alive; reflexivity).
  split; [apply H|]. intros e. now apply dispatch_alive.
Qed.

End Alive.

(** Without a requested callback no event draws, and none requests one:
    only [init] and [loop] call [requestAnimationFrame]. *)
Lemma dispatch_dead (c : config) (e : event) (s : state) :
  pending (host s) = [] ->
  pending (host (state_of (dispatch c e s))) = [] /\
  Canvas.log (canvas (state_of (dispatch c e s))) = Canvas.log (canvas s).
Proof.
  intros Hp. destruct e as [w|cx cy| |[[cx cy]|]|b|now];
    try (split; [exact Hp | reflexivity]).
  unfold dispatch, runFrame. rewrite bind_get, Hp. split; [exact Hp | reflexivity].
Qed.

Lemma run_dead (c : config) (es : list event) (s : state) :
  pending (host s) = [] ->
  pending (host (run c es s)) = [] /\
  Canvas.log (canvas (run c es s)) = Canvas.log (canvas s).
Proof.
  revert s. induction es as [|e es IH]; intros s Hp; cbn [run]; [split; [exact Hp|reflexivity]|].
  destruct (dispatch_dead c e s Hp) as [Hp' Hl].
  destruct (IH _ Hp') as [Hp'' Hl']. split; [exact Hp''|]. now rewrite Hl', Hl.
Qed.

(** X13.  With the script's own configuration the first frame that is
    due is the last one: it clears the canvas, throws in [drawMesh] and
    leaves no callback requested, and whatever events follow (frames,
    resizes, pointer or visibility changes) nothing is ever drawn again:
    the context has received the calls of that one [clear()] and no
    more. *)
Theorem animation_stops_with_cfg (now : Q) (h : Z) (s : state) (es : list event) :
  visible s = true ->
  pending (host s) = [h] ->
  FRAME_INTERVAL <= now - lastFrameTime s ->
  let s' := run cfg es (state_of (dispatch cfg (AnimationFrame now) s)) in
  pending (host s') = [] /\
  Canvas.log (canvas s') = Canvas.log (canvas s) ++ clear_ops s.
Proof.
  intros Hv Hp Ht. cbv zeta.
  set (s1 := set_host {| pending := []; issued := issued (host s);
                         draws := draws (host s) |} s).
  assert (E : dispatch cfg (AnimationFrame now) s = loop cfg now s1).
  { unfold dispatch, runFrame. rewrite bind_get, Hp, bind_modify. reflexivity. }
  rewrite E.
  destruct (loop_frame cfg now s1 Hv Ht) as (ops & Es & Et).
  rewrite drawMesh_cfg in Et. cbn [threw] in Et. rewrite Et in Es.
  assert (El : Canvas.log (canvas (state_of (loop cfg now s1)))
               = Canvas.log (canvas s) ++ clear_ops s).
  { assert (Ed : state_of (loop cfg now s1)
                 = set_nodes (map (update cfg s1 now) (nodes s1))
                     (appended (clear_ops s1) (set_lastFrameTime now s1))).
    { assert (Hv1 : visible s1 = true) by exact Hv.
      assert (Ht1 : ltb (now - lastFrameTime s1) FRAME_INTERVAL = false)
        by (apply ltb_ge; exact Ht).
      unfold loop. rewrite bind_get, Hv1, Ht1. reflexivity. }
    rewrite Ed. reflexivity. }
  assert (Ep : pending (host (state_of (loop cfg now s1))) = []) by (rewrite Es; reflexivity).
  destruct (run_dead cfg es _ Ep) as [Hp' Hl].
  split; [exact Hp'|]. now rewrite Hl, El.
Qed.

End LoopLife.

Lemma animation_keeps_running_witness :
  let s := Mesh.run (M := JS.ref_Math) Mesh.cfg_named some_events
             (Mesh.boot (M := JS.ref_Math) Mesh.cfg_named (Mesh.initial desktop)) in
  length (Mesh.pending (Mesh.host s)) = 1%nat /\
  forall e, Mesh.threw (Mesh.dispatch (M := JS.ref_Math) Mesh.cfg_named e s) = false.
Proof.
  apply (animation_keeps_running (M := JS.ref_Math) Mesh.cfg_named cfg_named_palette).
Defined.

Lemma animation_stops_with_cfg_witness :
  let s' := Mesh.run (M := JS.ref_Math) Mesh.cfg some_events
              (Mesh.state_of (Mesh.dispatch (M := JS.ref_Math) Mesh.cfg
                                (Mesh.AnimationFrame 100) (Mesh.rescheduled drifting))) in
  Mesh.pending (Mesh.host s') = [] /\
  Canvas.log (Mesh.canvas s')
  = Canvas.log (Mesh.canvas (Mesh.rescheduled drifting))
    ++ Mesh.clear_ops (Mesh.rescheduled drifting).
Proof.
  apply (animation_stops_with_cfg (M := JS.ref_Math) 100 1 (Mesh.rescheduled drifting)
           some_events).
  - reflexivity.
  - reflexivity.
  - vm_compute. discriminate.
Defined.

(** ** The perspective of the mesh *)

Section PlaceFacts.
Import JS Mesh.
Local Open Scope Q_scope.
Context {M : Math}.
Variable c : config.

Hypothesis trig : bounded_trig.
Hypothesis deep : 140 < depth c.

(** X14.  For a node with z in [0, depth) (every node of the page, at
    all times) the point [drawMesh] computes from it has a depth between
    -100 and [depth]: the modulated z can be negative, since [%] keeps the
    sign.  The perspective divisor 1 + 1.4 zp is nevertheless strictly
    between 0 and 2.4 as long as [depth] exceeds 140 (the script has 2000),
    so the scale is a positive number and the division is never by
    zero. *)
Theorem place_divisor_positive (s : state) (now camX camY : Q) (n : node) :
  0 <= z n -> z n < depth c ->
  let pt := place c s now camX camY n in
  (- (100) <= p_z pt /\ p_z pt < depth c) /\
  (0 < 1 + p_zp pt * 1.4 /\ 1 + p_zp pt * 1.4 < 2.4) /\
  (0 < p_scale pt /\ p_scale pt * (1 + p_zp pt * 1.4) == 1).
Proof.
  intros Hz0 Hz1. cbv zeta. unfold place. cbv zeta.
  cbn [p_z p_zp p_scale].
  match goal with |- context [Math_sin ?a] =>
    destruct (trig a) as [_ [S0 S1]]; set (m := Math_sin a) in * end.
  set (a := z n + m * 100).
  assert (Hd : 0 < depth c) by lra.
  assert (Hpz : - (100) <= fmod a (depth c) /\ fmod a (depth c) < depth c).
  { destruct (Qlt_le_dec a 0) as [Hneg|Hpos].
    - destruct (fmod_neg a (depth c) Hneg Hd) as [[F1 F2] F3]. subst a. split; lra.
    - destruct (fmod_nonneg a (depth c) Hpos Hd) as [F1 F2]. split; lra. }
  set (pz := fmod a (depth c)) in *.
  pose proof (div_mul pz (depth c) Hd) as E.
  set (zp := pz / depth c) in *.
  assert (Hdiv : 0 < 1 + zp * 1.4 /\ 1 + zp * 1.4 < 2.4).
  { split.
    - destruct (Qlt_le_dec 0 (1 + zp * 1.4)) as [H|H]; [exact H|]. exfalso. nra.
    - destruct (Qlt_le_dec (1 + zp * 1.4) 2.4) as [H|H]; [exact H|]. exfalso. nra. }
  split; [exact Hpz|]. split; [exact Hdiv|]. split.
  - unfold Qdiv. rewrite Qmult_1_l. apply Qinv_lt_0_compat. apply Hdiv.
  - field. lra.
Qed.

End PlaceFacts.

Lemma place_divisor_positive_witness :
  let pt := Mesh.place (M := JS.ref_Math) Mesh.cfg drifting 100 0 0 drifting_node in
  ((- (100) <= Mesh.p_z pt /\ Mesh.p_z pt < Mesh.depth Mesh.cfg) /\
   (0 < 1 + Mesh.p_zp pt * 1.4 /\ 1 + Mesh.p_zp pt * 1.4 < 2.4) /\
   (0 < Mesh.p_scale pt /\ Mesh.p_scale pt * (1 + Mesh.p_zp pt * 1.4) == 1))%Q.
Proof.
  apply (place_divisor_positive (M := JS.ref_Math) Mesh.cfg ref_bounded_trig).
  - vm_compute. reflexivity.
  - vm_compute. discriminate.
  - vm_compute. reflexivity.
Defined.

(** ** The neighbours of a node *)

Section NeighborFacts.
Import JS Mesh.
Local Open Scope Q_scope.
Context {M : Math}.
Variable c : config.

Lemma insert_perm (u : Z * Q) (l : list (Z * Q)) : Permutation (insert u l) (u :: l).
Proof.
  induction l as [|v l IH]; cbn [insert]; [reflexivity|].
  destruct (leb (snd u) (snd v)); [reflexivity|].
  etransitivity; [apply perm_skip, IH | apply perm_swap].
Qed.

Lemma sort_perm (l : list (Z * Q)) : Permutation (sort l) l.
Proof.
  induction l as [|u l IH]; [reflexivity|].
  change (sort (u :: l)) with (insert u (sort l)).
  etransitivity; [apply insert_perm | now apply perm_skip].
Qed.

Lemma insert_sorted (u : Z * Q) (l : list (Z * Q)) :
  StronglySorted by_dist l -> StronglySorted by_dist (insert u l).
Proof.
  induction l as [|v l IH]; intros HS; cbn [insert].
  - constructor; constructor.
  - apply StronglySorted_inv in HS. destruct HS as [HS Hv].
    destruct (leb (snd u) (snd v)) eqn:E.
    + unfold leb in E. apply Qle_bool_iff in E.
      constructor; [now constructor|].
      constructor; [exact E|].
      apply List.Forall_forall. intros w Hw.
      rewrite List.Forall_forall in Hv. specialize (Hv w Hw).
      unfold by_dist in *. lra.
    + assert (E' : snd v <= snd u).
      { unfold leb in E. destruct (Qlt_le_dec (snd v) (snd u)) as [H|H]; [lra|].
        apply Qle_bool_iff in H. congruence. }
      constructor; [now apply IH|].
      apply List.Forall_forall. intros w Hw.
      destruct (in_insert _ _ _ Hw) as [->|Hw']; [exact E'|].
      rewrite List.Forall_forall in Hv. now apply Hv.
Qed.

Lemma sort_sorted (l : list (Z * Q)) : StronglySorted by_dist (sort l).
Proof.
  induction l as [|u l IH]; [constructor|].
  change (sort (u :: l)) with (insert u (sort l)). now apply insert_sorted.
Qed.

Lemma in_skipn {A : Type} (a : A) (n : nat) (l : list A) : In a (skipn n l) -> In a l.
Proof.
  intros H. rewrite <- (firstn_skipn n l). apply in_or_app. now right.
Qed.

Lemma sorted_split {A : Type} (R : A -> A -> Prop) (l : list A) (k : nat) (u v : A) :
  StronglySorted R l -> In u (firstn k l) -> In v (skipn k l) -> R u v.
Proof.
  revert k. induction l as [|a l IH]; intros k HS.
  - destruct k; intros [].
  - destruct k as [|k]; [intros []|]. cbn [firstn skipn].
    apply StronglySorted_inv in HS. destruct HS as [HS Ha].
    intros [<-|Hu] Hv.
    + rewrite List.Forall_forall in Ha. apply Ha. now apply in_skipn in Hv.
    + now apply (IH k).
Qed.

Lemma sorted_firstn {A : Type} (R : A -> A -> Prop) (l : list A) (k : nat) :
  StronglySorted R l -> StronglySorted R (firstn k l).
Proof.
  revert k. induction l as [|a l IH]; intros k HS.
  - destruct k; constructor.
  - destruct k as [|k]; [constructor|]. cbn [firstn].
    apply StronglySorted_inv in HS. destruct HS as [HS Ha].
    constructor; [now apply IH|].
    apply List.Forall_forall. intros w Hw.
    rewrite List.Forall_forall in Ha. apply Ha. now apply in_firstn in Hw.
Qed.

Lemma sorted_map_fst (R : Z * Q -> Z * Q -> Prop) (R' : Z -> Z -> Prop)
    (l : list (Z * Q)) :
  (forall u v, In u l -> In v l -> R u v -> R' (fst u) (fst v)) ->
  StronglySorted R l -> StronglySorted R' (map fst l).
Proof.
  induction l as [|a l IH]; intros H HS; cbn [map]; [constructor|].
  apply StronglySorted_inv in HS. destruct HS as [HS Ha].
  constructor.
  - apply IH; [|exact HS]. intros u v Hu Hv. apply H; now right.
  - apply List.Forall_forall. intros j Hj. apply in_map_iff in Hj.
    destruct Hj as (w & <- & Hw). rewrite List.Forall_forall in Ha.
    apply H; [now left | now right | now apply Ha].
Qed.

Lemma NoDup_range (lo : Z) (n : nat) : List.NoDup (range lo n).
Proof.
  revert lo. induction n as [|n IH]; intros lo; cbn [range]; constructor.
  - rewrite in_range. lia.
  - apply IH.
Qed.

Lemma filter_range_out (i lo : Z) (n : nat) :
  (i < lo)%Z ->
  List.filter (fun j => negb (i =? j)%Z) (range lo n) = range lo n.
Proof.
  revert lo. induction n as [|n IH]; intros lo Hi; cbn [range List.filter]; [reflexivity|].
  destruct (Z.eqb_spec i lo) as [E|_]; [lia|]. cbn [negb].
  now rewrite IH by lia.
Qed.

Lemma filter_range_length (i lo : Z) (n : nat) :
  (lo <= i < lo + Z.of_nat n)%Z ->
  length (List.filter (fun j => negb (i =? j)%Z) (range lo n)) = (n - 1)%nat.
Proof.
  revert lo. induction n as [|n IH]; intros lo Hi; [lia|].
  cbn [range List.filter].
  destruct (Z.eqb_spec i lo) as [E|E]; cbn [negb].
  - rewrite filter_range_out by lia. rewrite range_length. lia.
  - cbn [length]. rewrite IH by lia. lia.
Qed.

Lemma fst_indexed {A : Type} (l : list A) : map fst (indexed l) = range 0 (length l).
Proof.
  unfold indexed. generalize 0%Z.
  induction l as [|a l IH]; intros lo; cbn [length range combine map]; [reflexivity|].
  now rewrite IH.
Qed.

Lemma nth_indexed {A : Type} (l : list A) (lo : Z) (k : nat) (p : Z * A) :
  nth_error (combine (range lo (length l)) l) k = Some p ->
  exists a, nth_error l k = Some a /\ p = ((lo + Z.of_nat k)%Z, a).
Proof.
  revert lo k. induction l as [|b l IH]; intros lo k; cbn [length range combine].
  - destruct k; discriminate.
  - destruct k as [|k]; cbn [nth_error].
    + intros [= <-]. exists b. split; [reflexivity|]. f_equal. lia.
    + intros H. destruct (IH _ _ H) as (a & Ha & ->). exists a.
      split; [exact Ha|]. f_equal. lia.
Qed.

Lemma indexed_nth {A : Type} (l : list A) (lo : Z) (k : nat) (a : A) :
  nth_error l k = Some a ->
  In ((lo + Z.of_nat k)%Z, a) (combine (range lo (length l)) l).
Proof.
  revert lo k. induction l as [|b l IH]; intros lo k; cbn [length range combine].
  - destruct k; discriminate.
  - destruct k as [|k]; cbn [nth_error].
    + intros [= <-]. left. f_equal. lia.
    + intros H. right. replace (lo + Z.of_nat (S k))%Z with ((lo + 1) + Z.of_nat k)%Z by lia.
      now apply IH.
Qed.

Lemma item_nth {A : Type} (l : list A) (i : Z) (a : A) :
  item l i = Some a -> (0 <= i)%Z /\ nth_error l (Z.to_nat i) = Some a.
Proof.
  unfold item. destruct (Z.ltb_spec i 0) as [Hlt|Hge]; [discriminate|].
  intros H. split; [lia | exact H].
Qed.

Lemma indexed_item {A : Type} (l : list A) (i : Z) (a : A) :
  item l i = Some a -> In (i, a) (indexed l).
Proof.
  intros H. apply item_nth in H. destruct H as [H0 H].
  apply (indexed_nth l 0%Z) in H. unfold indexed.
  now replace (0 + Z.of_nat (Z.to_nat i))%Z with i in H by lia.
Qed.

Lemma item_map_indexed {A B : Type} (f : Z * A -> B) (l : list A) (i : Z) (n : B) :
  item (map f (indexed l)) i = Some n ->
  exists a, item l i = Some a /\ n = f (i, a).
Proof.
  intros H. apply item_nth in H. destruct H as [H0 H].
  rewrite nth_error_map in H. unfold indexed in H.
  destruct (nth_error (combine (range 0 (length l)) l) (Z.to_nat i)) as [p|] eqn:E;
    [|discriminate].
  cbn [option_map] in H. injection H as <-.
  destruct (nth_indexed _ _ _ _ E) as (a & Ha & ->).
  replace (0 + Z.of_nat (Z.to_nat i))%Z with i by lia.
  exists a. split; [|reflexivity].
  unfold item. destruct (Z.ltb_spec i 0); [lia | exact Ha].
Qed.

Lemma item_unique {A : Type} (l : list A) (i : Z) (a b : A) :
  In (i, a) (indexed l) -> item l i = Some b -> a = b.
Proof.
  intros Hin Hb. destruct (in_indexed l i a Hin) as [_ Ha]. congruence.
Qed.

Lemma fst_dists (i : Z) (a : node) (pts : list (Z * node)) :
  map fst (dists_from i a pts) = List.filter (fun j => negb (i =? j)%Z) (map fst pts).
Proof.
  unfold dists_from.
  induction pts as [|[j b] pts IH]; cbn [flat_map map List.filter fst]; [reflexivity|].
  destruct (i =? j)%Z; cbn [negb app map fst]; now rewrite IH.
Qed.

Lemma in_dists (i : Z) (a : node) (pts : list (Z * node)) (j : Z) (d : Q) :
  In (j, d) (dists_from i a pts) <->
  j <> i /\ exists b, In (j, b) pts /\ d = dist2 a b.
Proof.
  unfold dists_from. rewrite in_flat_map. split.
  - intros ((j', b) & Hin & H). destruct (Z.eqb_spec i j') as [E|E]; [destruct H|].
    destruct H as [[= <- <-]|[]]. split; [congruence|]. now exists b.
  - intros (Hj & b & Hin & ->). exists (j, b). split; [exact Hin|].
    destruct (Z.eqb_spec i j) as [E|E]; [congruence | now left].
Qed.

Lemma computeNeighbors_dists (s : state) :
  nodes (computeNeighbors c s) =
  map (fun '(i, a) =>
         set_neighbors
           (Some (map fst (slice0 (sort (dists_from i a (indexed (nodes s)))) (kNeighbors c))))
           a) (indexed (nodes s)).
Proof. reflexivity. Qed.

(** X15.  [computeNeighbors] gives every node the k nearest other nodes:
    with [kNeighbors] not negative, the node at index [i] keeps its
    fields and gets as neighbours distinct indices of the array, never its
    own, [kNeighbors] of them (all the other nodes when there are fewer),
    listed nearest first by squared distance in the plane, and such that
    no node left out is nearer than one listed. *)
Theorem computeNeighbors_k_nearest (s : state) (i : Z) (n : node) :
  (0 <= kNeighbors c)%Z ->
  item (nodes (computeNeighbors c s)) i = Some n ->
  exists a nb,
    item (nodes s) i = Some a /\ n = set_neighbors (Some nb) a /\
    k_nearest (kNeighbors c) (nodes s) i a nb.
Proof.
  intros Hk Hn. rewrite computeNeighbors_dists in Hn.
  apply item_map_indexed in Hn. destruct Hn as (a & Ha & ->).
  set (ns := nodes s) in *.
  set (D := dists_from i a (indexed ns)).
  assert (Hslice : slice0 (sort D) (kNeighbors c)
                   = firstn (Z.to_nat (kNeighbors c)) (sort D)).
  { unfold slice0. destruct (Z.ltb_spec (kNeighbors c) 0); [lia | reflexivity]. }
  exists a, (map fst (slice0 (sort D) (kNeighbors c))).
  split; [exact Ha|]. split; [reflexivity|].
  rewrite Hslice. set (k := Z.to_nat (kNeighbors c)).
  assert (Hi : (0 <= i < Z.of_nat (length ns))%Z).
  { apply (in_indexed ns i a). now apply indexed_item. }
  assert (HfD : map fst D = List.filter (fun j => negb (i =? j)%Z) (range 0 (length ns))).
  { unfold D. now rewrite fst_dists, fst_indexed. }
  assert (HP : Permutation (map fst (sort D)) (map fst D))
    by apply Permutation_map, sort_perm.
  assert (HND : List.NoDup (map fst (sort D))).
  { apply (Permutation_NoDup (l := map fst D)); [now symmetry|].
    rewrite HfD. apply List.NoDup_filter, NoDup_range. }
  assert (Hin : forall j d, In (j, d) (sort D) ->
            j <> i /\ exists b, In (j, b) (indexed ns) /\ d = dist2 a b).
  { intros j d H. apply in_sort in H. now apply in_dists in H. }
  assert (Hnb : forall j, In j (map fst (firstn k (sort D))) ->
            exists d, In (j, d) (firstn k (sort D))).
  { intros j H. apply in_map_iff in H. destruct H as ((j', d) & <- & H). now exists d. }
  unfold k_nearest. repeat apply conj.
  - rewrite <- firstn_map.
    rewrite <- (firstn_skipn k (map fst (sort D))) in HND.
    now apply List.NoDup_app_remove_r in HND.
  - intros H. destruct (Hnb _ H) as (d & Hd).
    apply in_firstn, Hin in Hd. now destruct Hd.
  - apply List.Forall_forall. intros j H. destruct (Hnb _ H) as (d & Hd).
    apply in_firstn, Hin in Hd. destruct Hd as (_ & b & Hb & _).
    now apply (in_indexed ns j b).
  - rewrite length_map, length_firstn.
    rewrite (Permutation_length (sort_perm D)).
    rewrite <- (length_map fst D), HfD.
    now rewrite filter_range_length by lia.
  - apply (sorted_map_fst by_dist); [|apply sorted_firstn, sort_sorted].
    intros [j d] [m d'] Hu Hv Huv b b' Hb Hb'. cbn [fst] in *.
    apply in_firstn, Hin in Hu. apply in_firstn, Hin in Hv.
    destruct Hu as (_ & b1 & Hb1 & ->). destruct Hv as (_ & b2 & Hb2 & ->).
    rewrite <- (item_unique ns j b1 b Hb1 Hb), <- (item_unique ns m b2 b' Hb2 Hb').
    exact Huv.
  - intros j m Hj Hm Hmi b b' Hb Hb'.
    destruct (Hnb _ Hj) as (d & Hd).
    assert (Hm' : In (m, dist2 a b') (skipn k (sort D))).
    { assert (H : In (m, dist2 a b') (sort D)).
      { apply (Permutation_in (l := D)); [symmetry; apply sort_perm|].
        apply in_dists. split; [exact Hmi|]. exists b'.
        split; [now apply indexed_item | reflexivity]. }
      rewrite <- (firstn_skipn k (sort D)) in H. apply in_app_or in H.
      destruct H as [H|H]; [|exact H]. exfalso. apply Hm.
      apply in_map_iff. now exists (m, dist2 a b'). }
    pose proof (sorted_split by_dist (sort D) k _ _ (sort_sorted D) Hd Hm') as Hle.
    unfold by_dist in Hle. cbn [snd] in Hle.
    apply in_firstn, Hin in Hd. destruct Hd as (_ & b1 & Hb1 & ->).
    now rewrite <- (item_unique ns j b1 b Hb1 Hb).
Qed.

End NeighborFacts.

Lemma computeNeighbors_k_nearest_witness :
  exists a nb,
    JS.item (Mesh.nodes three_nodes) 0 = Some a /\
    Mesh.set_neighbors (Some [2; 1]%Z) (node_at 0%Q 0%Q) = Mesh.set_neighbors (Some nb) a /\
    k_nearest (Mesh.kNeighbors Mesh.cfg) (Mesh.nodes three_nodes) 0 a nb.
Proof.
  apply (computeNeighbors_k_nearest Mesh.cfg three_nodes 0
           (Mesh.set_neighbors (Some [2; 1]%Z) (node_at 0%Q 0%Q))).
  - vm_compute. discriminate.
  - vm_compute. reflexivity.
Defined.

(** ** The wave lines *)

Section WaveFacts.
Import JS Wave.
Local Open Scope Q_scope.
Context {M : Math}.

Lemma nth_range (lo : Z) (n k : nat) (j : Z) :
  nth_error (range lo n) k = Some j -> j = (lo + Z.of_nat k)%Z /\ (k < n)%nat.
Proof.
  revert lo k. induction n as [|n IH]; intros lo k; cbn [range].
  - destruct k; discriminate.
  - destruct k as [|k]; cbn [nth_error].
    + intros [= <-]. split; lia.
    + intros H. destruct (IH _ _ H) as [-> Hk]. split; lia.
Qed.

Lemma range_snoc (lo : Z) (n : nat) :
  range lo (S n) = (range lo n ++ [(lo + Z.of_nat n)%Z])%list.
Proof.
  revert lo. induction n as [|n IH]; intros lo.
  - cbn [range app]. f_equal. lia.
  - change (range lo (S (S n))) with (lo :: range (lo + 1) (S n)).
    rewrite IH. cbn [range app]. do 2 f_equal. f_equal. lia.
Qed.

Lemma sampling_integer (a : Q) :
  max 24 (inject_Z (floor a)) = inject_Z (Z.max 24 (floor a)).
Proof.
  unfold max, leb. destruct (Qle_bool 24 (inject_Z (floor a))) eqn:E.
  - apply Qle_bool_iff in E. change 24 with (inject_Z 24) in E.
    rewrite <- Zle_Qle in E. now rewrite Z.max_r.
  - assert (H : ~ (24 <= floor a)%Z).
    { intros H. rewrite Zle_Qle in H. apply Qle_bool_iff in H.
      change (inject_Z 24) with 24 in H. congruence. }
    rewrite Z.max_l by lia. reflexivity.
Qed.

Lemma scaled_in (b u top : Q) :
  - (1) <= b -> b <= 1 -> 0 <= u -> u <= top -> - top <= b * u /\ b * u <= top.
Proof. intros H1 H2 H3 H4. split; nra. Qed.

(** X16.  One wave line: the path [drawFrame] traces for a wave starts
    with a [moveTo] at the left edge (x = 0), continues with [lineTo]
    only and ends at the right edge (x = w), so each line spans the
    canvas; it has max(24, floor(w/18)) + 1 points, whose x lie within
    the canvas and whose y stay within 1.28 amplitudes of the base line
    of the wave. *)
Theorem wave_line_spans_canvas (s : state) (t : Q) (i : Z) (wv : wave) (yBase phase : Q) :
  bounded_trig -> 0 <= w s -> 0 <= w_amp wv ->
  let ops := trace s t i wv yBase phase in
  length ops = S (Z.to_nat (Z.max 24 (floor (w s / 18)))) /\
  (exists x y rest, ops = Canvas.moveTo x y :: rest /\ x == 0 /\ Forall is_lineTo rest) /\
  (exists front x y, ops = (front ++ [Canvas.lineTo x y])%list /\ x == w s) /\
  Forall (point_within 0 (w s) (yBase - 1.28 * w_amp wv) (yBase + 1.28 * w_amp wv)) ops.
Proof.
  intros trig Hw Hamp. cbv zeta. unfold trace. cbv zeta.
  rewrite sampling_integer.
  set (m := Z.max 24 (floor (w s / 18))).
  assert (Hm : (24 <= m)%Z) by (unfold m; lia).
  assert (HmQ : 24 <= inject_Z m).
  { change 24 with (inject_Z 24). now rewrite <- Zle_Qle. }
  assert (EN : Z.to_nat (floor (inject_Z m) + 1) = S (Z.to_nat m)).
  { unfold floor. rewrite Qfloor_Z. lia. }
  rewrite EN. clear EN.
  repeat apply conj.
  - now rewrite length_map, range_length.
  - cbn [range map]. change (0 =? 0)%Z with true. cbv iota.
    eexists _, _, _. split; [reflexivity|]. split.
    + change (inject_Z 0) with 0. field. lra.
    + apply List.Forall_forall. intros o Ho. apply in_map_iff in Ho.
      destruct Ho as (k & <- & Hk). apply in_range in Hk.
      destruct (Z.eqb_spec k 0) as [E|_]; [lia | exact I].
  - rewrite range_snoc, map_app. cbn [map].
    destruct (Z.eqb_spec (0 + Z.of_nat (Z.to_nat m)) 0) as [E|_]; [lia|].
    eexists _, _, _. split; [reflexivity|].
    replace (0 + Z.of_nat (Z.to_nat m))%Z with m by lia. field. lra.
  - apply List.Forall_forall. intros o Ho. apply in_map_iff in Ho.
    destruct Ho as (k & <- & Hk). apply in_range in Hk.
    assert (Hk0 : 0 <= inject_Z k).
    { change 0 with (inject_Z 0). rewrite <- Zle_Qle. lia. }
    assert (Hk1 : inject_Z k <= inject_Z m) by (rewrite <- Zle_Qle; lia).
    set (q := inject_Z k / inject_Z m).
    assert (Hq : 0 <= q /\ q <= 1).
    { unfold q. split.
      - apply Qle_shift_div_l; lra.
      - apply Qle_shift_div_r; lra. }
    match goal with |- context [Math_sin (?a + phase)] =>
      destruct (trig (a + phase)) as [_ [B0 B1]]; set (base := Math_sin (a + phase)) in * end.
    match goal with |- context [Math_sin (t * ?a + ?b)] =>
      destruct (trig (t * a + b)) as [_ [S0 S1]]; set (sn := Math_sin (t * a + b)) in * end.
    assert (Hx : 0 <= q * w s /\ q * w s <= w s) by (split; nra).
    assert (Hu : 0 <= w_amp wv * (1 + sn * 0.28) /\
                 w_amp wv * (1 + sn * 0.28) <= 1.28 * w_amp wv) by (split; nra).
    destruct (scaled_in base _ _ B0 B1 (proj1 Hu) (proj2 Hu)) as [Y0 Y1].
    assert (Ey : base * w_amp wv * (1 + sn * 0.28) == base * (w_amp wv * (1 + sn * 0.28)))
      by ring.
    destruct (k =? 0)%Z; cbn [point_within]; (split; [exact Hx|]); split; lra.
Qed.

Lemma filter_map_none {A : Type} (f : A -> Canvas.op) (l : list A) :
  (forall a, is_clearRect (f a) = false) -> List.filter is_clearRect (map f l) = [].
Proof.
  intros H. induction l as [|a l IH]; [reflexivity|].
  cbn [map List.filter]. now rewrite H.
Qed.

Lemma filter_flat_map_none {A : Type} (f : A -> list Canvas.op) (l : list A) :
  (forall a, List.filter is_clearRect (f a) = []) ->
  List.filter is_clearRect (flat_map f l) = [].
Proof.
  intros H. induction l as [|a l IH]; [reflexivity|].
  cbn [flat_map]. now rewrite List.filter_app, H, IH.
Qed.

Lemma trace_no_clear (s : state) (t : Q) (i : Z) (wv : wave) (yBase phase : Q) :
  List.filter is_clearRect (trace s t i wv yBase phase) = [].
Proof.
  unfold trace. cbv zeta. apply filter_map_none. intros k.
  now destruct (k =? 0)%Z.
Qed.

Lemma drawWave_no_clear (s : state) (t margin usable : Q) (i : Z) (wv : wave) :
  List.filter is_clearRect (drawWave s t margin usable i wv) = [].
Proof.
  unfold drawWave. cbv zeta. destruct (mixColor _ _ _) as [[c0 c1] c2].
  rewrite !List.filter_app, !trace_no_clear. reflexivity.
Qed.

Lemma clamp_unit (a : Q) : 0 <= max 0 (min 1 a) /\ max 0 (min 1 a) <= 1.
Proof.
  unfold max, min, leb.
  destruct (Qle_bool 1 a) eqn:E1.
  - change (Qle_bool 0 1) with true. cbv iota. split; lra.
  - destruct (Qle_bool 0 a) eqn:E0.
    + apply Qle_bool_iff in E0. split; [exact E0|].
      destruct (Qlt_le_dec a 1) as [H|H]; [lra|].
      apply Qle_bool_iff in H. congruence.
    + split; lra.
Qed.

(** X17.  The waves [initWaves] makes, also as [start] and the resize
    listener leave them: ten waves, wave [i] placed at the relative height
    (i + 0.5) / 10, strictly inside the band, with a phase in [0, 2 pi),
    a speed in [0.072, 0.18), an amplitude in [23.4, 54), a thickness in
    [0.77, 1.76) and a wobble in [0.002, 0.008). *)
Theorem initWaves_fresh (s : state) (wn : window) (ws : list wave) :
  (forall i, 0 <= Math_random i /\ Math_random i < 1) -> 0 < Math_PI ->
  ws = wave_list (initWaves s) \/ ws = wave_list (start s) \/
  ws = wave_list (onResize wn s) ->
  length ws = 10%nat /\ forall i wv, item ws i = Some wv -> fresh_wave i wv.
Proof.
  intros random_unit Hpi Hws.
  assert (G : forall s0, ws = wave_list (initWaves s0) ->
            length ws = 10%nat /\ forall i wv, item ws i = Some wv -> fresh_wave i wv).
  { clear Hws. intros s0 ->. unfold initWaves. cbn [wave_list].
    change (Z.to_nat (waves cfg)) with 10%nat. split.
    - now rewrite length_map, range_length.
    - intros i wv H. unfold item in H.
      destruct (Z.ltb_spec i 0) as [Hlt|Hge]; [discriminate|].
      rewrite nth_error_map in H.
      destruct (nth_error (range 0 10) (Z.to_nat i)) as [j|] eqn:E; [|discriminate].
      apply nth_range in E. destruct E as [-> Hk].
      replace (0 + Z.of_nat (Z.to_nat i))%Z with i in H by lia.
      cbn [option_map] in H. injection H as <-.
      assert (Hi0 : 0 <= inject_Z i).
      { change 0 with (inject_Z 0). rewrite <- Zle_Qle. lia. }
      assert (Hi1 : inject_Z i <= 9).
      { change 9 with (inject_Z 9). rewrite <- Zle_Qle. lia. }
      unfold fresh_wave.
      cbn [w_phase w_speed w_amp w_offsetY w_thickness w_wobble].
      change (speed cfg) with 0.12. change (amplitude cfg) with 36.
      change (thickness cfg) with 1.1. change (inject_Z 10) with 10.
      match goal with |- context [Math_random (?n + 1)] => set (k := n) end.
      destruct (random_unit k) as [A0 A1].
      destruct (random_unit (k + 1)%nat) as [B0 B1].
      destruct (random_unit (k + 2)%nat) as [C0 C1].
      destruct (random_unit (k + 3)%nat) as [D0 D1].
      destruct (random_unit (k + 4)%nat) as [E0 E1].
      assert (Eo : (inject_Z i + 0.5) / 10 == (inject_Z i + 0.5) * 0.1) by (field; lra).
      repeat apply conj; try lra; try nra. }
  destruct Hws as [H|[H|H]].
  - now apply (G s).
  - now apply (G (resize s)).
  - unfold onResize in H. cbv zeta in H. eapply G. exact H.
Qed.

(** X18.  The colours of a wave line.  Whatever the wave, [drawFrame]
    strokes its path twice: first in a colour between the two of the
    configuration (red 0, green in 180..230, blue in 210..255, all
    integers) with an alpha in [0.2475, 0.55], then as a white highlight
    with 0.06 of that alpha and a line width of at least 0.4: the clamp on
    the depth mix keeps every channel a valid one. *)
Theorem wave_colors_valid (s : state) (t margin usable : Q) (i : Z) (wv : wave) :
  exists (r g b : Z) (a lw : Q),
    let path := trace s t i wv (margin + usable * w_offsetY wv)
                  (w_phase wv + t * 0.001 * w_speed wv) in
    drawWave s t margin usable i wv =
      ([Canvas.lineWidth (w_thickness wv);
        Canvas.strokeStyle (Canvas.Solid (Canvas.rgba (inject_Z r) (inject_Z g) (inject_Z b) a));
        Canvas.lineCap "round"; Canvas.beginPath]
       ++ path
       ++ [Canvas.stroke; Canvas.lineWidth lw;
           Canvas.strokeStyle (Canvas.Solid (Canvas.rgba 255 255 255 (a * 0.06)));
           Canvas.beginPath]
       ++ path ++ [Canvas.stroke])%list /\
    r = 0%Z /\ (180 <= g <= 230)%Z /\ (210 <= b <= 255)%Z /\
    (0.2475 <= a /\ a <= 0.55) /\
    (0.4 <= lw /\ w_thickness wv * 0.5 <= lw).
Proof.
  unfold drawWave. cbv zeta.
  destruct (clamp_unit (1 - abs (w_offsetY wv - 0.5) * 1.6)) as [D0 D1].
  set (d := max 0 (min 1 (1 - abs (w_offsetY wv - 0.5) * 1.6))) in *.
  change (mixColor (colorA cfg) (colorB cfg) (0.25 + 0.75 * d))
    with (inject_Z (round (lerp 0 0 (0.25 + 0.75 * d))),
          inject_Z (round (lerp 180 230 (0.25 + 0.75 * d))),
          inject_Z (round (lerp 255 210 (0.25 + 0.75 * d)))).
  cbv iota beta.
  eexists _, _, _, _, _. split; [reflexivity|].
  change (alpha cfg) with 0.55.
  split; [|split; [|split; [|split]]].
  - unfold round.
    assert (E : lerp 0 0 (0.25 + 0.75 * d) + (1 # 2) == (1 # 2)) by (unfold lerp; ring).
    now rewrite E.
  - apply round_between; unfold lerp, inject_Z; nra.
  - apply round_between; unfold lerp, inject_Z; nra.
  - split; nra.
  - split; [apply max_lower|].
    unfold max, leb. destruct (Qle_bool 0.4 (w_thickness wv * 0.5)) eqn:E; [lra|].
    destruct (Qlt_le_dec (w_thickness wv * 0.5) 0.4) as [H|H]; [lra|].
    apply Qle_bool_iff in H. congruence.
Qed.

Lemma drawFrame_step (t : Q) (s : state) :
  let s1 := drawFrame t s in
  ((t - lastFrame s < frameInterval /\ cleared (canvas s1) = cleared (canvas s) /\
    lastFrame s1 = lastFrame s) \/
   (frameInterval <= t - lastFrame s /\ cleared (canvas s1) = S (cleared (canvas s)) /\
    lastFrame s1 = t)) /\
  requested s1 = S (requested s) /\ wave_list s1 = wave_list s.
Proof.
  cbv zeta. unfold drawFrame. destruct (ltb (t - lastFrame s) frameInterval) eqn:E.
  - apply ltb_lt in E. split; [left|]; repeat split; assumption.
  - apply ltb_ge in E. cbv zeta. split; [right|]; repeat split; try assumption.
    unfold cleared, requestAnimationFrame, ctx, clear, set_lastFrame, Canvas.draw.
    cbn [canvas Canvas.log w h wave_list].
    rewrite !List.filter_app, filter_flat_map_none.
    + unfold ctx, Canvas.draw. cbn [canvas Canvas.log].
      rewrite List.filter_app. cbn [List.filter is_clearRect].
      rewrite !length_app. cbn [length]. lia.
    + intros [j wv]. apply drawWave_no_clear.
Qed.

(** X19.  The frame budget over a run.  Over any sequence of
    animation-frame callbacks, every callback requests the next one (the
    animation never stops) and keeps the waves, and the frames actually
    drawn are at least 1000/45 ms apart: the number of times the canvas
    was cleared, times 1000/45, is at most the time between the last frame
    drawn before the run and the last one drawn in it. *)
Theorem wave_frame_budget (ts : list Q) (s : state) :
  let s' := wave_frames ts s in
  let drawn := (cleared (canvas s') - cleared (canvas s))%nat in
  (cleared (canvas s) <= cleared (canvas s'))%nat /\
  inject_Z (Z.of_nat drawn) * (1000 / 45) <= lastFrame s' - lastFrame s /\
  ((drawn = 0%nat /\ lastFrame s' = lastFrame s) \/ In (lastFrame s') ts) /\
  requested s' = (requested s + length ts)%nat /\
  wave_list s' = wave_list s.
Proof.
  cbv zeta. revert s. induction ts as [|t ts IH]; intros s.
  - cbn [wave_frames fold_left length]. rewrite Nat.sub_diag.
    change (inject_Z (Z.of_nat 0)) with 0.
    split; [lia|]. split; [lra|]. split; [left; now split|]. split; [lia | reflexivity].
  - change (wave_frames (t :: ts) s) with (wave_frames ts (drawFrame t s)).
    destruct (IH (drawFrame t s)) as (I1 & I2 & I3 & I4 & I5).
    destruct (drawFrame_step t s) as (Hstep & Hr & Hw).
    set (s1 := drawFrame t s) in *. set (s' := wave_frames ts s1) in *.
    cbn [length]. rewrite I4, I5, Hr, Hw.
    destruct Hstep as [(Ht & Hc & Hl)|(Ht & Hc & Hl)].
    + rewrite Hc, Hl in *. repeat split; try lia; try assumption.
      destruct I3 as [I3|I3]; [now left | right; now right].
    + rewrite Hc, Hl in *. change frameInterval with (1000 / 45) in Ht.
      replace (cleared (canvas s') - cleared (canvas s))%nat
        with (S (cleared (canvas s') - S (cleared (canvas s))))%nat by lia.
      rewrite Nat2Z.inj_succ. unfold Z.succ. rewrite inject_Z_plus.
      change (inject_Z 1) with 1.
      repeat split; try lia.
      * lra.
      * right. destruct I3 as [[_ I3]|I3]; [left; now rewrite I3 | now right].
Qed.

End WaveFacts.

Lemma wave_line_spans_canvas_witness :
  let ops := Wave.trace (M := JS.ref_Math) wave_page 100 0 example_wave 300 1 in
  (length ops = S (Z.to_nat (Z.max 24 (JS.floor (Wave.w wave_page / 18)))) /\
   (exists x y rest, ops = Canvas.moveTo x y :: rest /\ x == 0 /\ Forall is_lineTo rest) /\
   (exists front x y, ops = (front ++ [Canvas.lineTo x y])%list /\ x == Wave.w wave_page) /\
   Forall (point_within 0 (Wave.w wave_page) (300 - 1.28 * Wave.w_amp example_wave)
             (300 + 1.28 * Wave.w_amp example_wave)) ops)%Q.
Proof.
  apply (wave_line_spans_canvas (M := JS.ref_Math) wave_page 100 0 example_wave 300 1
           ref_bounded_trig).
  - vm_compute. discriminate.
  - vm_compute. discriminate.
Defined.

Lemma initWaves_fresh_witness :
  length (Wave.wave_list wave_page) = 10%nat /\
  forall i wv, JS.item (Wave.wave_list wave_page) i = Some wv ->
    fresh_wave (M := JS.ref_Math) i wv.
Proof.
  apply (initWaves_fresh (M := JS.ref_Math) (Wave.initial desktop) desktop
           (Wave.wave_list wave_page) ref_random_unit).
  - vm_compute. reflexivity.
  - right. left. reflexivity.
Defined.

(** ** header-typing.js: the typewriter *)

Section TypingFacts.
Import JS Typing.
Local Open Scope Z_scope.
Variable words : list string.

Lemma substring_all (w : string) : String.substring 0 (String.length w) w = w.
Proof. induction w as [|ch w IH]; [reflexivity|]. cbn [String.length String.substring]. now rewrite IH. Qed.

Lemma substring_none (w : string) : String.substring 0 0 w = EmptyString.
Proof. now destruct w. Qed.

Lemma slice_prefix (w : string) (k : Z) : 0 <= k -> slice w k = String.substring 0 (Z.to_nat k) w.
Proof. intros H. unfold slice. destruct (Z.ltb_spec k 0); [lia | reflexivity]. Qed.

Lemma word_length_pos (w : string) : w <> EmptyString -> 0 < Z.of_nat (String.length w).
Proof. destruct w; [congruence|]. cbn [String.length]. lia. Qed.

Lemma item_Some_range {A : Type} (l : list A) (i : Z) (a : A) :
  item l i = Some a -> 0 <= i < Z.of_nat (length l).
Proof.
  unfold item. destruct (Z.ltb_spec i 0) as [Hlt|Hge]; [discriminate|].
  intros H. assert (Hn : nth_error l (Z.to_nat i) <> None) by congruence.
  apply nth_error_Some in Hn. lia.
Qed.

Lemma tick_typing (s : state) (word : string) (k : nat) :
  item words (wordIndex s) = Some word -> typing s = true ->
  charIndex s = Z.of_nat k ->
  tick words s =
  Some {| wordIndex := wordIndex s; charIndex := Z.of_nat (S k);
          typing := negb (S k =? String.length word)%nat;
          textContent := String.substring 0 (S k) word;
          timeouts := timeouts s ++
            [if (S k =? String.length word)%nat then holdDelay else typeSpeed] |}.
Proof.
  intros Hw Ht Hk. unfold tick. rewrite Hw, Ht, Hk. cbv zeta.
  rewrite slice_prefix by lia.
  replace (Z.to_nat (Z.of_nat k + 1)) with (S k) by lia.
  replace (Z.of_nat k + 1) with (Z.of_nat (S k)) by lia.
  destruct (Nat.eqb_spec (S k) (String.length word)) as [E|E].
  - rewrite <- E, Z.eqb_refl. reflexivity.
  - destruct (Z.eqb_spec (Z.of_nat (S k)) (Z.of_nat (String.length word))) as [E'|_]; [lia|].
    reflexivity.
Qed.

Lemma tick_erasing (s : state) (word : string) (k : nat) :
  item words (wordIndex s) = Some word -> typing s = false ->
  charIndex s = Z.of_nat (S k) ->
  tick words s =
  Some {| wordIndex := if (k =? 0)%nat
                       then Z.rem (wordIndex s + 1) (Z.of_nat (length words))
                       else wordIndex s;
          charIndex := Z.of_nat k;
          typing := (k =? 0)%nat;
          textContent := String.substring 0 k word;
          timeouts := timeouts s ++ [if (k =? 0)%nat then nextDelay else eraseSpeed] |}.
Proof.
  intros Hw Ht Hk. unfold tick. rewrite Hw, Ht, Hk. cbv zeta.
  rewrite slice_prefix by lia.
  replace (Z.to_nat (Z.of_nat (S k) - 1)) with k by lia.
  replace (Z.of_nat (S k) - 1) with (Z.of_nat k) by lia.
  destruct k as [|k]; [reflexivity|].
  destruct (Z.eqb_spec (Z.of_nat (S k)) 0) as [E'|_]; [lia|]. reflexivity.
Qed.

Lemma ticks_add (a b : nat) (s : state) :
  ticks words (a + b) s =
  match ticks words a s with
  | Some s' => ticks words b s'
  | None => None
  end.
Proof.
  revert s. induction a as [|a IH]; intros s; [reflexivity|].
  cbn [Nat.add ticks]. destruct (tick words s) as [s'|]; [apply IH | reflexivity].
Qed.

(** Typing [S j] characters from character [k]. *)
Lemma typing_run (word : string) (j : nat) :
  forall (s : state) (k : nat),
  item words (wordIndex s) = Some word -> typing s = true ->
  charIndex s = Z.of_nat k -> (k + S j <= String.length word)%nat ->
  ticks words (S j) s =
  Some {| wordIndex := wordIndex s; charIndex := Z.of_nat (k + S j);
          typing := negb (k + S j =? String.length word)%nat;
          textContent := String.substring 0 (k + S j) word;
          timeouts := timeouts s ++ repeat typeSpeed j ++
            [if (k + S j =? String.length word)%nat then holdDelay else typeSpeed] |}.
Proof.
  induction j as [|j IH]; intros s k Hw Ht Hk Hle.
  - cbn [ticks]. rewrite (tick_typing s word k Hw Ht Hk).
    replace (k + 1)%nat with (S k) by lia. reflexivity.
  - change (ticks words (S (S j)) s)
      with (match tick words s with Some s' => ticks words (S j) s' | None => None end).
    rewrite (tick_typing s word k Hw Ht Hk).
    destruct (Nat.eqb_spec (S k) (String.length word)) as [E|E]; [lia|].
    rewrite (IH _ (S k)); [|exact Hw|reflexivity|reflexivity|lia].
    cbn [wordIndex timeouts negb]. replace (S k + S j)%nat with (k + S (S j))%nat by lia.
    cbn [repeat]. now rewrite <- app_assoc.
Qed.

(** Erasing [S j] characters from character [k]. *)
Lemma erasing_run (word : string) (j : nat) :
  forall (s : state) (k : nat),
  item words (wordIndex s) = Some word -> typing s = false ->
  charIndex s = Z.of_nat k -> (S j <= k)%nat ->
  ticks words (S j) s =
  Some {| wordIndex := if (k - S j =? 0)%nat
                       then Z.rem (wordIndex s + 1) (Z.of_nat (length words))
                       else wordIndex s;
          charIndex := Z.of_nat (k - S j);
          typing := (k - S j =? 0)%nat;
          textContent := String.substring 0 (k - S j) word;
          timeouts := timeouts s ++ repeat eraseSpeed j ++
            [if (k - S j =? 0)%nat then nextDelay else eraseSpeed] |}.
Proof.
  induction j as [|j IH]; intros s k Hw Ht Hk Hle.
  - destruct k as [|k]; [lia|]. cbn [ticks].
    rewrite (tick_erasing s word k Hw Ht Hk).
    replace (S k - 1)%nat with k by lia. reflexivity.
  - destruct k as [|k]; [lia|].
    change (ticks words (S (S j)) s)
      with (match tick words s with Some s' => ticks words (S j) s' | None => None end).
    rewrite (tick_erasing s word k Hw Ht Hk).
    destruct (Nat.eqb_spec k 0) as [E|E]; [lia|].
    rewrite (IH _ k); [|exact Hw|reflexivity|reflexivity|lia].
    cbn [wordIndex timeouts]. replace (S k - S (S j))%nat with (k - S j)%nat by lia.
    cbn [repeat]. now rewrite <- app_assoc.
Qed.

(** X20.  One word of the typewriter.  From the start of a non-empty
    word, the element shows one more character of it with every tick
    until the whole word stands, is then emptied one character per tick,
    and after twice as many ticks as the word has characters the script
    is at the start of the next word (the first again after the last),
    having waited 80 ms after each typed character, 1200 ms on the full
    word, 50 ms after each erased character and 400 ms on the empty
    element. *)
Theorem typewriter_word_cycle (s : state) (word : string) :
  item words (wordIndex s) = Some word -> word <> EmptyString ->
  charIndex s = 0 -> typing s = true ->
  let L := String.length word in
  (forall k, (k < L)%nat ->
     exists s', ticks words (S k) s = Some s' /\ textContent s' = String.substring 0 (S k) word) /\
  (exists s1, ticks words L s = Some s1 /\ textContent s1 = word /\ typing s1 = false) /\
  (forall k, (k < L)%nat ->
     exists s', ticks words (L + S k) s = Some s' /\
                textContent s' = String.substring 0 (L - S k) word) /\
  (exists s2, ticks words (2 * L) s = Some s2 /\
     textContent s2 = EmptyString /\ charIndex s2 = 0 /\ typing s2 = true /\
     wordIndex s2 = Z.rem (wordIndex s + 1) (Z.of_nat (length words)) /\
     timeouts s2 = (timeouts s ++ repeat typeSpeed (L - 1) ++ [holdDelay] ++
                    repeat eraseSpeed (L - 1) ++ [nextDelay])%list).
Proof.
  intros Hw Hne Hk Ht. cbv zeta.
  pose proof (word_length_pos word Hne) as HL.
  set (L := String.length word) in *.
  assert (HL' : exists n, L = S n) by (exists (L - 1)%nat; lia).
  destruct HL' as (n & En).
  assert (Htyped : forall j, (S j <= L)%nat ->
            ticks words (S j) s =
            Some {| wordIndex := wordIndex s; charIndex := Z.of_nat (0 + S j);
                    typing := negb (0 + S j =? L)%nat;
                    textContent := String.substring 0 (0 + S j) word;
                    timeouts := timeouts s ++ repeat typeSpeed j ++
                      [if (0 + S j =? L)%nat then holdDelay else typeSpeed] |}).
  { intros j Hj. apply typing_run; [exact Hw | exact Ht | now rewrite Hk | exact Hj]. }
  assert (Hfull : ticks words L s =
            Some {| wordIndex := wordIndex s; charIndex := Z.of_nat L; typing := false;
                    textContent := word;
                    timeouts := timeouts s ++ repeat typeSpeed n ++ [holdDelay] |}).
  { rewrite En, (Htyped n) by lia. cbn [Nat.add]. rewrite <- En, Nat.eqb_refl.
    unfold L at 2. now rewrite substring_all. }
  assert (Herased : forall j, (S j <= L)%nat ->
            ticks words (L + S j) s =
            Some {| wordIndex := if (L - S j =? 0)%nat
                                 then Z.rem (wordIndex s + 1) (Z.of_nat (length words))
                                 else wordIndex s;
                    charIndex := Z.of_nat (L - S j);
                    typing := (L - S j =? 0)%nat;
                    textContent := String.substring 0 (L - S j) word;
                    timeouts := (timeouts s ++ repeat typeSpeed n ++ [holdDelay]) ++
                      repeat eraseSpeed j ++
                      [if (L - S j =? 0)%nat then nextDelay else eraseSpeed] |}).
  { intros j Hj. rewrite ticks_add, Hfull.
    erewrite (erasing_run word j _ L);
      [reflexivity | exact Hw | reflexivity | reflexivity | exact Hj]. }
  split; [|split; [|split]].
  - intros k Hlt. eexists. split; [apply Htyped; lia | reflexivity].
  - eexists. split; [exact Hfull|]. now split.
  - intros k Hlt. eexists. split; [apply Herased; lia | reflexivity].
  - eexists. split.
    + replace (2 * L)%nat with (L + S n)%nat by lia. apply Herased. lia.
    + replace (L - S n)%nat with 0%nat by lia. cbn [Nat.eqb textContent charIndex typing
        wordIndex timeouts]. rewrite substring_none.
      replace (L - 1)%nat with n by lia.
      repeat split. now rewrite <- !app_assoc.
Qed.

(** Every tick leaves the script inside a word, given non-empty words. *)
Lemma tick_at_word (s : state) (word : string) :
  Forall (fun w => w <> EmptyString) words ->
  at_word words s word ->
  exists s' word' d,
    tick words s = Some s' /\ at_word words s' word' /\ shows_prefix s' word' /\
    timeouts s' = (timeouts s ++ [d])%list.
Proof.
  intros Hne (Hw & Hc & Hty & Her).
  destruct (typing s) eqn:Ht.
  - specialize (Hty eq_refl).
    assert (Ek : charIndex s = Z.of_nat (Z.to_nat (charIndex s))) by lia.
    rewrite (tick_typing s word _ Hw Ht Ek).
    eexists _, word, _. split; [reflexivity|].
    unfold at_word, shows_prefix. cbn [wordIndex charIndex typing textContent timeouts].
    split; [|split; [now rewrite Nat2Z.id | reflexivity]].
    split; [exact Hw|]. split; [lia|].
    destruct (Nat.eqb_spec (S (Z.to_nat (charIndex s))) (String.length word)) as [E|E];
      cbn [negb]; split; intros; try discriminate; lia.
  - specialize (Her eq_refl).
    assert (Ek : charIndex s = Z.of_nat (S (Z.to_nat (charIndex s - 1)))) by lia.
    rewrite (tick_erasing s word _ Hw Ht Ek).
    set (k := Z.to_nat (charIndex s - 1)).
    destruct (Nat.eqb_spec k 0) as [E|E].
    + pose proof (item_Some_range _ _ _ Hw) as Hr.
      assert (Hr' : 0 <= Z.rem (wordIndex s + 1) (Z.of_nat (length words))
                    < Z.of_nat (length words)).
      { apply Z.rem_bound_pos; lia. }
      destruct (item_in_range words _ Hr') as (word' & Hw').
      assert (Hin : word' <> EmptyString).
      { rewrite List.Forall_forall in Hne. apply Hne.
        unfold item in Hw'. destruct (Z.ltb_spec (Z.rem (wordIndex s + 1)
          (Z.of_nat (length words))) 0) as [Hlt|Hge]; [discriminate|].
        now apply nth_error_In in Hw'. }
      pose proof (word_length_pos word' Hin) as HL.
      eexists _, word', _. split; [reflexivity|].
      unfold at_word, shows_prefix. cbn [wordIndex charIndex typing textContent timeouts].
      rewrite E. cbn [Z.of_nat Z.to_nat]. rewrite !substring_none.
      split; [|split; reflexivity].
      split; [exact Hw'|]. split; [lia|]. split; intros; [lia | discriminate].
    + eexists _, word, _. split; [reflexivity|].
      unfold at_word, shows_prefix. cbn [wordIndex charIndex typing textContent timeouts].
      rewrite Nat2Z.id.
      split; [|split; reflexivity].
      split; [exact Hw|]. split; [lia|]. split; intros; [discriminate | lia].
Qed.

(** X21.  The typewriter never stops.  With no empty word in the array,
    from any position inside a word (the start of the first among them)
    every tick finds its word, so none throws; each sets exactly one
    timer, and after each the element shows the first [charIndex]
    characters of the current word, [charIndex] staying within the
    word. *)
Theorem typewriter_never_stops (s : state) (word : string) (n : nat) :
  Forall (fun w => w <> EmptyString) words ->
  at_word words s word ->
  exists s' word',
    ticks words (S n) s = Some s' /\ at_word words s' word' /\ shows_prefix s' word' /\
    length (timeouts s') = (length (timeouts s) + S n)%nat.
Proof.
  intros Hne. revert s word. induction n as [|n IH]; intros s word Hat.
  - destruct (tick_at_word s word Hne Hat) as (s' & word' & d & Ht & Hat' & Hs & Hto).
    exists s', word'. cbn [ticks]. rewrite Ht, Hto, length_app. cbn [length].
    repeat split; try assumption; apply Hat'.
  - destruct (tick_at_word s word Hne Hat) as (s1 & word1 & d & Ht & Hat1 & _ & Hto).
    destruct (IH s1 word1 Hat1) as (s' & word' & Hrun & Hat' & Hs & Hlen).
    exists s', word'.
    change (ticks words (S (S n)) s)
      with (match tick words s with Some s' => ticks words (S n) s' | None => None end).
    rewrite Ht, Hrun, Hlen, Hto, length_app. cbn [length].
    repeat split; try assumption; try apply Hat'. lia.
Qed.

End TypingFacts.

Lemma typewriter_word_cycle_witness :
  let words := Typing.script_words in
  let s := Typing.initial "" in
  let word := "coder"%string in
  let L := String.length word in
  (forall k, (k < L)%nat ->
     exists s', Typing.ticks words (S k) s = Some s' /\
                Typing.textContent s' = String.substring 0 (S k) word) /\
  (exists s1, Typing.ticks words L s = Some s1 /\ Typing.textContent s1 = word /\
              Typing.typing s1 = false) /\
  (forall k, (k < L)%nat ->
     exists s', Typing.ticks words (L + S k) s = Some s' /\
                Typing.textContent s' = String.substring 0 (L - S k) word) /\
  (exists s2, Typing.ticks words (2 * L) s = Some s2 /\
     Typing.textContent s2 = EmptyString /\ Typing.charIndex s2 = 0 /\
     Typing.typing s2 = true /\
     Typing.wordIndex s2 = Z.rem (Typing.wordIndex s + 1) (Z.of_nat (length words)) /\
     Typing.timeouts s2 =
       (Typing.timeouts s ++ repeat Typing.typeSpeed (L - 1) ++ [Typing.holdDelay] ++
        repeat Typing.eraseSpeed (L - 1) ++ [Typing.nextDelay])%list).
Proof.
  apply (typewriter_word_cycle Typing.script_words (Typing.initial "") "coder").
  - reflexivity.
  - discriminate.
  - reflexivity.
  - reflexivity.
Defined.

Lemma typewriter_never_stops_witness :
  exists s' word',
    Typing.ticks Typing.script_words 41 (Typing.initial "") = Some s' /\
    Typing.at_word Typing.script_words s' word' /\ Typing.shows_prefix s' word' /\
    length (Typing.timeouts s') =
      (length (Typing.timeouts (Typing.initial "")) + 41)%nat.
Proof.
  apply (typewriter_never_stops Typing.script_words (Typing.initial "") "coder" 40).
  - repeat constructor; discriminate.
  - unfold Typing.at_word. cbn. repeat split; try lia; discriminate.
Defined.

(** * The frame loops over runs *)

Section FrameLoops.
Import JS Mesh.
Local Open Scope Q_scope.
Context {M : Math}.

(** ** The wave callback *)




(** ** The mesh callback *)

Lemma drawing_to_ctx (last : list Canvas.op) : drawing_to last (ctx last).
Proof. intros s. exists []. reflexivity. Qed.

Lemma drawing_to_bind {A B : Type} (last : list Canvas.op) (m : stmt A) (k : A -> stmt B) :
  drawing m -> (forall a, drawing_to last (k a)) -> drawing_to last (bind m k).
Proof.
  intros Hm Hk s. unfold bind. destruct (Hm s) as [ops1 E1].
  destruct (m s) as [a s1|e s1]; cbn [state_of] in E1; subst s1.
  - destruct (Hk a (appended ops1 s)) as [ops2 E2].
    exists (ops1 ++ ops2). rewrite E2, appended_app.
    destruct (threw (k a (appended ops1 s))); [reflexivity | now rewrite app_assoc].
  - exists ops1. reflexivity.
Qed.

(** [drawMesh] ends, unless it throws, by setting the composite operation
    back to source-over. *)
Lemma drawMesh_ends (c : config) (now : Q) (s : state) :
  exists ops,
    state_of (drawMesh c now s)
    = appended (if threw (drawMesh c now s) then ops
                else ops ++ [Canvas.globalCompositeOperation "source-over"])
        (set_nodes (map (update c s now) (nodes s)) s).
Proof.
  unfold drawMesh. rewrite bind_get. cbv zeta. rewrite bind_modify.
  match goal with
  | |- exists ops, state_of (?m ?s1) = appended _ _ =>
      cut (drawing_to [Canvas.globalCompositeOperation "source-over"] m);
        [intros Hd; apply (Hd s1)|]
  end.
  apply drawing_to_bind; [apply drawing_get | intros s']. cbv zeta.
  apply drawing_to_bind;
    [apply drawing_for_each; intros layerIdx; apply drawing_drawLayer | intros _].
  apply drawing_to_bind; [apply drawing_ctx | intros _].
  apply drawing_to_bind;
    [apply drawing_for_each; intros [i pt]; apply drawing_drawAccent | intros _].
  apply drawing_to_ctx.
Qed.

(** The frame body, with the calls it starts and ends with. *)
Lemma loop_frame_ends (c : config) (now : Q) (s : state) :
  visible s = true ->
  FRAME_INTERVAL <= now - lastFrameTime s ->
  exists ops,
    state_of (loop c now s)
    = (if threw (loop c now s) then (fun s' => s') else rescheduled)
        (appended (clear_ops s ++
                   (if threw (loop c now s) then ops
                    else ops ++ [Canvas.globalCompositeOperation "source-over"]))
           (set_nodes (map (update c s now) (nodes s)) (set_lastFrameTime now s))).
Proof.
  intros Hv Ht. apply ltb_ge in Ht.
  set (s2 := appended (clear_ops s) (set_lastFrameTime now s)).
  assert (E : loop c now s = bind (drawMesh c now) (fun _ => requestAnimationFrame) s2).
  { unfold loop. rewrite bind_get, Hv, Ht. reflexivity. }
  rewrite E. clear E.
  destruct (drawMesh_ends c now s2) as [ops E].
  exists ops. unfold bind.
  destruct (drawMesh c now s2) as [[] s3|e s3]; cbn [state_of threw] in *; subst s3;
    rewrite <- (after_clear c _ now s); reflexivity.
Qed.






(** ** Pausing and resuming *)

Lemma boot_pending (c : config) (s : state) :
  pending (host s) = [] -> length (pending (host (boot c s))) = 1%nat.
Proof.
  intros Hp. unfold boot. rewrite init_state.
  rewrite computeNeighbors_host, rescheduled_pending, built_pending, build_p_pending, Hp.
  reflexivity.
Qed.

(** At most one callback is ever requested. *)
Lemma dispatch_pending (c : config) (e : event) (s : state) :
  (length (pending (host s)) <= 1)%nat ->
  (length (pending (host (state_of (dispatch c e s)))) <= 1)%nat.
Proof.
  intros Hp. destruct e as [w|cx cy| |[[cx cy]|]|b|now]; try exact Hp.
  unfold dispatch, runFrame. rewrite bind_get.
  destruct (pending (host s)) as [|h [|h' rest]] eqn:Eh;
    [cbn [state_of ret]; rewrite Eh; exact Hp | | cbn in Hp; lia].
  rewrite bind_modify.
  set (s1 := set_host {| pending := []; issued := issued (host s);
                         draws := draws (host s) |} s).
  assert (Hq : forall X, host X = host s1 ->
            (length (pending (host (state_of (requestAnimationFrame X)))) <= 1)%nat).
  { intros X Eho. change (state_of (requestAnimationFrame X)) with (rescheduled X).
    rewrite rescheduled_pending, Eho. cbn. lia. }
  destruct (visible s1) eqn:Hv.
  - destruct (Qlt_le_dec (now - lastFrameTime s1) FRAME_INTERVAL) as [Hlt|Hge].
    + rewrite (loop_early c now s1 Hlt). now apply Hq.
    + destruct (loop_frame c now s1 Hv Hge) as (ops & Es & _). rewrite Es.
      destruct (threw (loop c now s1)).
      * cbn. lia.
      * rewrite rescheduled_pending. cbn. lia.
  - rewrite (loop_hidden c now s1 Hv). now apply Hq.
Qed.

Lemma run_pending (c : config) (es : list event) (s : state) :
  (length (pending (host s)) <= 1)%nat ->
  (length (pending (host (run c es s))) <= 1)%nat.
Proof.
  revert s. induction es as [|e es IH]; intros s Hp; cbn [run]; [exact Hp|].
  apply IH. now apply dispatch_pending.
Qed.

(** With the configuration of the script, a frame that is due on a
    visible page with its callback requested throws and is the last. *)
Lemma due_frame_cfg (now : Q) (h : Z) (s : state) (es : list event) :
  visible s = true ->
  pending (host s) = [h] ->
  FRAME_INTERVAL <= now - lastFrameTime s ->
  threw (dispatch cfg (AnimationFrame now) s) = true /\
  pending (host (run cfg es (state_of (dispatch cfg (AnimationFrame now) s)))) = [] /\
  Canvas.log (canvas (run cfg es (state_of (dispatch cfg (AnimationFrame now) s))))
  = Canvas.log (canvas s) ++ clear_ops s.
Proof.
  intros Hv Hp Ht.
  set (s1 := set_host {| pending := []; issued := issued (host s);
                         draws := draws (host s) |} s).
  assert (E : dispatch cfg (AnimationFrame now) s = loop cfg now s1).
  { unfold dispatch, runFrame. rewrite bind_get, Hp, bind_modify. reflexivity. }
  rewrite E.
  destruct (loop_frame cfg now s1 Hv Ht) as (ops & Es & Et).
  rewrite drawMesh_cfg in Et. cbn [threw] in Et. rewrite Et in Es.
  assert (El : Canvas.log (canvas (state_of (loop cfg now s1)))
               = Canvas.log (canvas s) ++ clear_ops s).
  { assert (Ed : state_of (loop cfg now s1)
                 = set_nodes (map (update cfg s1 now) (nodes s1))
                     (appended (clear_ops s1) (set_lastFrameTime now s1))).
    { assert (Hv1 : visible s1 = true) by exact Hv.
      assert (Ht1 : ltb (now - lastFrameTime s1) FRAME_INTERVAL = false)
        by (apply ltb_ge; exact Ht).
      unfold loop. rewrite bind_get, Hv1, Ht1. reflexivity. }
    rewrite Ed. reflexivity. }
  assert (Ep : pending (host (state_of (loop cfg now s1))) = []) by (rewrite Es; reflexivity).
  destruct (run_dead cfg es _ Ep) as [Hp' Hl].
  split; [exact Et|]. split; [exact Hp'|]. now rewrite Hl, El.
Qed.

(** C5.  The pause holds, the resumption does not.  While the page is
    hidden the callback does no clearing, no drawing and no node update:
    it only requests the next callback, through any run of hidden frames,
    and only the visibilitychange listener writes the flag, as the
    negation of [document.hidden]; this is so for every configuration.
    With a configuration whose palette has the names [drawMesh] reads,
    drawing resumes as the claim says: on every page the script can
    reach, the first callback on a visible page at least 1000/30 ms after
    the last drawn frame records its time, clears, updates the nodes, runs
    [drawMesh] to its last statement and requests the next callback.  With
    the script's own configuration it does not: on every page the script
    can reach, the first such callback clears the canvas and throws in
    [drawMesh] with no callback requested, and whatever follows - the page
    hidden and shown again, callbacks at any later times - the context
    receives no further call.  The animation is stopped by the exception,
    not by visibility, and showing the page does not resume it. *)
Theorem visibility_pause :
  (forall (c : config) (now : Q) (s : state),
     visible s = false ->
     loop c now s = requestAnimationFrame s) /\
  (forall (c : config) (ts : list Q) (s : state),
     visible s = false ->
     pending (host s) <> [] ->
     let s' := run c (map AnimationFrame ts) s in
     canvas s' = canvas s /\ nodes s' = nodes s /\ lastFrameTime s' = lastFrameTime s /\
     visible s' = false /\ length (pending (host s')) = length (pending (host s))) /\
  (forall (c : config) (b : bool) (s : state),
     let s' := state_of (dispatch c (VisibilityChange b) s) in
     visible s' = negb b /\ canvas s' = canvas s /\ nodes s' = nodes s /\
     lastFrameTime s' = lastFrameTime s /\ host s' = host s) /\
  (forall (c : config) (e : event) (s : state),
     (forall b, e <> VisibilityChange b) ->
     visible (state_of (dispatch c e s)) = visible s) /\
  (forall (c : config) (w0 : window) (es : list event) (now : Q),
     palette_named c ->
     let s := run c es (boot c (initial w0)) in
     visible s = true ->
     FRAME_INTERVAL <= now - lastFrameTime s ->
     let s' := state_of (dispatch c (AnimationFrame now) s) in
     threw (dispatch c (AnimationFrame now) s) = false /\
     lastFrameTime s' = now /\
     nodes s' = map (update c s now) (nodes s) /\
     (exists ops,
        Canvas.log (canvas s')
        = Canvas.log (canvas s) ++
            Canvas.clearRect 0 0 (width s) (height s) :: ops
            ++ [Canvas.globalCompositeOperation "source-over"]) /\
     length (pending (host s')) = 1%nat) /\
  (forall (w0 : window) (es : list event) (now : Q) (later : list event),
     let s := run cfg es (boot cfg (initial w0)) in
     visible s = true ->
     pending (host s) <> [] ->
     FRAME_INTERVAL <= now - lastFrameTime s ->
     let s' := run cfg later (state_of (dispatch cfg (AnimationFrame now) s)) in
     threw (dispatch cfg (AnimationFrame now) s) = true /\
     pending (host s') = [] /\
     Canvas.log (canvas s')
     = Canvas.log (canvas s) ++
         [Canvas.clearRect 0 0 (width s) (height s);
          Canvas.fillStyle (Canvas.LinearGradient 0 0 0 (height s)
            [(0, Canvas.rgba 4 8 18 1); (1, Canvas.rgba 0 0 0 0.95)]);
          Canvas.fillRect 0 0 (width s) (height s)]) /\
  (forall (now : Q) (h : Z) (s : state) (later : list event),
     visible s = true ->
     pending (host s) = [h] ->
     FRAME_INTERVAL <= now - lastFrameTime s ->
     let s' := run cfg later (state_of (dispatch cfg (AnimationFrame now) s)) in
     threw (dispatch cfg (AnimationFrame now) s) = true /\
     pending (host s') = [] /\
     Canvas.log (canvas s')
     = Canvas.log (canvas s) ++
         [Canvas.clearRect 0 0 (width s) (height s);
          Canvas.fillStyle (Canvas.LinearGradient 0 0 0 (height s)
            [(0, Canvas.rgba 4 8 18 1); (1, Canvas.rgba 0 0 0 0.95)]);
          Canvas.fillRect 0 0 (width s) (height s)]).
Proof.
  split; [exact loop_hidden|]. split; [exact hidden_frames|].
  split; [intros c b s; repeat split|]. split; [exact visible_kept|].
  split; [|split].
  - intros c w0 es now Hpal s Hv Ht s'.
    assert (Ha : alive s) by (apply (run_alive c Hpal), (boot_alive c); reflexivity).
    destruct (dispatch_alive c Hpal (AnimationFrame now) s Ha) as [Hno Ha'].
    fold s' in Ha'. split; [exact Hno|].
    destruct Ha as [Hp _].
    destruct (pending (host s)) as [|h [|h' rest]] eqn:Eh; try discriminate Hp.
    set (s1 := set_host {| pending := []; issued := issued (host s);
                           draws := draws (host s) |} s).
    assert (E : dispatch c (AnimationFrame now) s = loop c now s1).
    { unfold dispatch, runFrame. rewrite bind_get, Eh, bind_modify. reflexivity. }
    destruct (loop_frame_ends c now s1 Hv Ht) as (ops & Es).
    rewrite E in Hno. rewrite Hno in Es.
    assert (Es' : s' = rescheduled
              (appended (clear_ops s1 ++ ops ++ [Canvas.globalCompositeOperation "source-over"])
                 (set_nodes (map (update c s1 now) (nodes s1)) (set_lastFrameTime now s1)))).
    { unfold s'. rewrite E. exact Es. }
    split; [now rewrite Es'|]. split; [now rewrite Es'|].
    split; [exists (tl (clear_ops s1) ++ ops); now rewrite Es' | apply Ha'].
  - intros w0 es now later s Hv Hp Ht s'.
    assert (Hle : (length (pending (host s)) <= 1)%nat).
    { apply run_pending. rewrite boot_pending; [lia | reflexivity]. }
    destruct (pending (host s)) as [|h [|h' rest]] eqn:Eh;
      [congruence | | cbn in Hle; lia].
    destruct (due_frame_cfg now h s later Hv Eh Ht) as (H1 & H2 & H3).
    split; [exact H1|]. split; [exact H2 | exact H3].
  - intros now h s later Hv Hp Ht. exact (due_frame_cfg now h s later Hv Hp Ht).
Qed.

End FrameLoops.


(** C5 on a page with its callback requested: the frame at 100 ms is due,
    clears and throws; the page is then resized, hidden and shown, and
    callbacks come at 120 and 160 ms: nothing more reaches the context. *)
Lemma visibility_pause_witness :
  let s := Mesh.rescheduled drifting in
  let s' := Mesh.run (M := JS.ref_Math) Mesh.cfg some_events
              (Mesh.state_of (Mesh.dispatch (M := JS.ref_Math) Mesh.cfg
                                (Mesh.AnimationFrame 100) s)) in
  Mesh.threw (Mesh.dispatch (M := JS.ref_Math) Mesh.cfg (Mesh.AnimationFrame 100) s) = true /\
  Mesh.pending (Mesh.host s') = [] /\
  Canvas.log (Mesh.canvas s')
  = Canvas.log (Mesh.canvas s) ++
      [Canvas.clearRect 0 0 (Mesh.width s) (Mesh.height s);
       Canvas.fillStyle (Canvas.LinearGradient 0 0 0 (Mesh.height s)
         [(0, Canvas.rgba 4 8 18 1); (1, Canvas.rgba 0 0 0 0.95)]%Q);
       Canvas.fillRect 0 0 (Mesh.width s) (Mesh.height s)]%Q.
Proof.
  apply (proj2 (proj2 (proj2 (proj2 (proj2 (proj2 (visibility_pause (M := JS.ref_Math)))))))
           100%Q 1%Z (Mesh.rescheduled drifting) some_events).
  - reflexivity.
  - reflexivity.
  - vm_compute. discriminate.
Defined.
